(** * bubble-mongo-linker: the record reconciliation core of [src/jobs/processor.ts]

  A shallow embedding of the last iteration of the processor (the one that
  keeps an authoritative collection under a unique index on the
  de-duplication key) and the properties its specification states.

  - JavaScript strings are sequences of UTF-16 code units.  The embedding
    uses [string]; an [ascii] stands for the code unit of the same number,
    so the strings covered are those over code units below 256.
    [normalizeString] is embedded a second time on strings of 16-bit code
    units ([normalizeString16]), where lower-casing goes by code points;
    what is said of it on every string is said there.
  - An [async] function is a tree of awaited commands ([Prog]); a worker
    gives up control at every [await] and nowhere else, so the runs of
    several jobs are the interleavings of their commands.
  - What the platform provides and the repository does not define (the URL
    parser and the regular expression engines) is a [Platform] value the
    development is parametric in. *)

From Stdlib Require Import List String Ascii Bool Arith NArith ZArith Lia.
Import ListNotations.
Open Scope string_scope.
Open Scope list_scope.

Set Implicit Arguments.

(* ================================================================= *)
(** ** Strings as JavaScript sees them *)

Module JsString.

(** Code unit of a character. *)
Definition code (c : ascii) : N := N_of_ascii c.

Definition in_range (lo hi : N) (c : ascii) : bool :=
  (N.leb lo (code c) && N.leb (code c) hi)%bool.

(** [String.prototype.toLowerCase] on one code unit below 256: A-Z, and the
    Latin-1 capitals U+00C0-U+00DE except the multiplication sign U+00D7. *)
Definition lower_char (c : ascii) : ascii :=
  if (in_range 65 90 c || (in_range 192 222 c && negb (N.eqb (code c) 215)))%bool
  then ascii_of_N (code c + 32)
  else c.

Fixpoint toLowerCase (s : string) : string :=
  match s with
  | EmptyString => EmptyString
  | String c r => String (lower_char c) (toLowerCase r)
  end.

(** The regular expression class [\s], which is also what [trim] removes:
    TAB, LF, VT, FF, CR, SPACE and NO-BREAK SPACE. *)
Definition is_space (c : ascii) : bool :=
  (in_range 9 13 c || N.eqb (code c) 32 || N.eqb (code c) 160)%bool.

(** [\D] is the complement of [0-9]. *)
Definition is_digit (c : ascii) : bool := in_range 48 57 c.

Fixpoint filter (f : ascii -> bool) (s : string) : string :=
  match s with
  | EmptyString => EmptyString
  | String c r => if f c then String c (filter f r) else filter f r
  end.

Fixpoint forallb (f : ascii -> bool) (s : string) : bool :=
  match s with
  | EmptyString => true
  | String c r => (f c && forallb f r)%bool
  end.

Fixpoint trimStart (s : string) : string :=
  match s with
  | EmptyString => EmptyString
  | String c r => if is_space c then trimStart r else s
  end.

(** [trimEnd]: a character is dropped when it is white space and everything
    after it has been dropped. *)
Fixpoint trimEnd (s : string) : string :=
  match s with
  | EmptyString => EmptyString
  | String c r =>
      match trimEnd r with
      | EmptyString => if is_space c then EmptyString else String c EmptyString
      | r' => String c r'
      end
  end.

Definition trim (s : string) : string := trimEnd (trimStart s).

(** [drop_prefix p s] is the rest of [s] after the prefix [p], when [s]
    starts with [p]. *)
Fixpoint drop_prefix (p s : string) : option string :=
  match p, s with
  | EmptyString, _ => Some s
  | String a p', String b s' => if Ascii.eqb a b then drop_prefix p' s' else None
  | String _ _, EmptyString => None
  end.

(** [s.replace(/^p/, '')] for a literal [p]. *)
Definition strip_prefix (p s : string) : string :=
  match drop_prefix p s with Some r => r | None => s end.

(** [s.split(sep)] for a separator of one character. *)
Fixpoint split (sep : ascii) (s : string) : list string :=
  match s with
  | EmptyString => [EmptyString]
  | String c r =>
      if Ascii.eqb c sep then EmptyString :: split sep r
      else match split sep r with
           | x :: xs => String c x :: xs
           | [] => [String c EmptyString]
           end
  end.

(** Truthiness of a value of type [string | undefined]. *)
Definition truthy (v : option string) : bool :=
  match v with
  | None => false
  | Some EmptyString => false
  | Some _ => true
  end.

(** [v || w] on such values. *)
Definition or_else (v w : option string) : option string :=
  if truthy v then v else w.

(** Containment of one string in another: what a regular expression made
    of literal characters decides. *)
Fixpoint contains (needle hay : string) : bool :=
  match drop_prefix needle hay with
  | Some _ => true
  | None => match hay with
            | EmptyString => false
            | String _ r => contains needle r
            end
  end.

End JsString.
Import JsString.

(* ================================================================= *)
(** ** Exceptions *)

Inductive Error : Type :=
| TypeError                                 (* [new URL] on an invalid URL *)
| SyntaxError                               (* [new RegExp] on an invalid pattern *)
| AxiosError (status : option N)            (* a failed HTTP exchange *)
| MongoServerError (code : N).              (* a write the server rejected *)

(** E11000, the server's duplicate key error. *)
Definition E11000 : Error := MongoServerError 11000.

Inductive Exc (A : Type) : Type :=
| Ok (a : A)
| Thrown (e : Error).
Arguments Thrown {A} e.

Definition exc_bind {A B} (m : Exc A) (k : A -> Exc B) : Exc B :=
  match m with
  | Ok a => k a
  | Thrown e => Thrown e
  end.

(** [try { m } catch { h }] for synchronous code. *)
Definition try_catch {A} (m : Exc A) (h : Error -> Exc A) : Exc A :=
  match m with
  | Ok a => Ok a
  | Thrown e => h e
  end.

(* ================================================================= *)
(** ** The platform *)

(** A compiled regular expression: its source and the flag [i]. *)
Record RegExp : Type := mkRegExp { source : string; ignoreCase : bool }.

(** What the program uses and the repository does not define. *)
Record Platform : Type := mkPlatform {
  (* [new URL(s).hostname], or [None] when the constructor throws. *)
  URL_hostname : string -> option string;
  (* Whether [new RegExp(p, 'i')] accepts the pattern [p]. *)
  RegExp_accepts : string -> bool;
  (* Whether the database's [$regex] operator finds the expression in a
     string. *)
  regex_search : RegExp -> string -> bool
}.

(* ================================================================= *)
(** ** Normalizer *)

Section Normalizer.

Variable pf : Platform.

(** The characters [normalizeString] deletes:
    [[\s.,\/#!$%\^&\*;:{}=\-_`~()']]. *)
Definition punctuation : string := ".,/#!$%^&*;:{}=-_`~()'".

Fixpoint mem_char (c : ascii) (s : string) : bool :=
  match s with
  | EmptyString => false
  | String d r => (Ascii.eqb c d || mem_char c r)%bool
  end.

Definition stripped (c : ascii) : bool :=
  (is_space c || mem_char c punctuation)%bool.

Definition normalizeString (str : option string) : string :=
  match str with
  | None => ""
  | Some s =>
      if negb (truthy str) then ""
      else trim (filter (fun c => negb (stripped c)) (toLowerCase s))
  end.

Definition new_URL (url : string) : Exc string :=
  match URL_hostname pf url with
  | Some h => Ok h
  | None => Thrown TypeError
  end.

(** [s.replace(/^(https?:\/\/)?(www\.)?/, '')]: both groups are optional and
    greedy, so each is removed when it is there. *)
Definition strip_scheme_www (s : string) : string :=
  let s1 :=
    match drop_prefix "https://" s with
    | Some r => r
    | None => strip_prefix "http://" s
    end in
  strip_prefix "www." s1.

Definition normalizeUrl (url : option string) : Exc string :=
  match url with
  | None => Ok ""
  | Some u =>
      if negb (truthy url) then Ok ""
      else
        try_catch
          (exc_bind (new_URL u) (fun hostname => Ok (strip_prefix "www." hostname)))
          (fun _ => Ok (hd "" (split "/" (strip_scheme_www (toLowerCase u)))))
  end.

End Normalizer.

(* ================================================================= *)
(** ** Strings of 16-bit code units *)

(** A string of the language is a sequence of code units below 65536, and
    [toLowerCase] goes by code points and by context.  [normalizeString]
    above is the function on strings of code units below 256, where
    lower-casing goes unit by unit; here it is on every string, with the
    case tables of Unicode as a parameter. *)

Definition in_range16 (lo hi c : N) : bool := (N.leb lo c && N.leb c hi)%bool.

Definition is_high_surrogate (c : N) : bool := in_range16 0xD800 0xDBFF c.

Definition is_low_surrogate (c : N) : bool := in_range16 0xDC00 0xDFFF c.

(** [StringToCodePoints]: a high surrogate and the low surrogate after it
    are one code point; any other code unit, a lone surrogate too, is the
    code point of its value. *)
Fixpoint StringToCodePoints (s : list N) : list N :=
  match s with
  | [] => []
  | c :: r =>
      match r with
      | d :: r' =>
          if (is_high_surrogate c && is_low_surrogate d)%bool
          then (0x10000 + (c - 0xD800) * 0x400 + (d - 0xDC00))%N :: StringToCodePoints r'
          else c :: StringToCodePoints r
      | [] => [c]
      end
  end.

(** [UTF16EncodeCodePoint]. *)
Definition UTF16EncodeCodePoint (cp : N) : list N :=
  if N.leb cp 0xFFFF then [cp]
  else [(0xD800 + (cp - 0x10000) / 0x400)%N; (0xDC00 + (cp - 0x10000) mod 0x400)%N].

(** [CodePointsToString]. *)
Definition CodePointsToString (cps : list N) : list N :=
  flat_map UTF16EncodeCodePoint cps.

(** The case tables: [toLowercase] of the Unicode Default Case Conversion,
    on a sequence of code points. *)
Record Unicode : Type := mkUnicode {
  toLowercase : list N -> list N
}.

(** [String.prototype.toLowerCase]. *)
Definition toLowerCase16 (u : Unicode) (s : list N) : list N :=
  CodePointsToString (toLowercase u (StringToCodePoints s)).

(** [\s], and what [trim] removes: the white space and the line
    terminators of the language. *)
Definition is_space16 (c : N) : bool :=
  (in_range16 9 13 c || N.eqb c 32 || N.eqb c 160 || N.eqb c 0x1680
   || in_range16 0x2000 0x200A c || N.eqb c 0x2028 || N.eqb c 0x2029
   || N.eqb c 0x202F || N.eqb c 0x205F || N.eqb c 0x3000 || N.eqb c 0xFEFF)%bool.

(** A string of code units below 256 as a string of 16-bit code units. *)
Fixpoint widen (s : string) : list N :=
  match s with
  | EmptyString => []
  | String c r => code c :: widen r
  end.

Definition stripped16 (c : N) : bool :=
  (is_space16 c || existsb (N.eqb c) (widen punctuation))%bool.

Definition kept16 (c : N) : bool := negb (stripped16 c).

Fixpoint trimStart16 (s : list N) : list N :=
  match s with
  | [] => []
  | c :: r => if is_space16 c then trimStart16 r else s
  end.

Fixpoint trimEnd16 (s : list N) : list N :=
  match s with
  | [] => []
  | c :: r =>
      match trimEnd16 r with
      | [] => if is_space16 c then [] else [c]
      | r' => c :: r'
      end
  end.

Definition trim16 (s : list N) : list N := trimEnd16 (trimStart16 s).

(** [normalizeString] (lines 15-18) on every string. *)
Definition normalizeString16 (u : Unicode) (str : option (list N)) : list N :=
  match str with
  | None => []
  | Some [] => []
  | Some s => trim16 (List.filter kept16 (toLowerCase16 u s))
  end.

(** Every code unit is below 256. *)
Definition latin1 (s : list N) : Prop := Forall (fun c => (c < 256)%N) s.

(** The tables lower-case text of code points below 256 as [toLowerCase]
    above does: A-Z and the capitals U+00C0-U+00DE but U+00D7 go to the
    letter 32 places on, and nothing else changes.  Unicode's do. *)
Definition latin1_casing (u : Unicode) : Prop :=
  forall s : string, toLowercase u (widen s) = widen (toLowerCase s).

(** A stand-in for the tables: the code points below 256 and the Deseret
    capitals U+10400-U+10427 lower-cased as Unicode has them, every other
    code point left as it is. *)
Definition scenario_lower (cp : N) : N :=
  if N.ltb cp 256 then code (lower_char (ascii_of_N cp))
  else if in_range16 0x10400 0x10427 cp then (cp + 40)%N
  else cp.

Definition scenario_unicode : Unicode := mkUnicode (map scenario_lower).


(* ================================================================= *)
(** ** Data model *)

Definition ObjectId : Type := nat.
Definition BubbleId : Type := string.
Definition Date : Type := nat.

(** The record the Bubble API returns for one identifier: the fields
    [processBubbleData] reads, each a string or absent. *)
Record BubbleRecord : Type := mkBubbleRecord {
  site_1 : option string;
  full_address_1 : option string;
  name_1 : option string;
  phone_1 : option string;
  email_1 : option string;
  Unique_ID_1 : option string;
  Unique_ID : option string
}.

(** A document of the business collection: the fields the queries look at. *)
Record BusinessDoc : Type := mkBusinessDoc {
  business_id : ObjectId;
  business_name : option string;
  business_website : option string;
  contact_phone : option string;
  old_pin_code : option string
}.

Inductive MatchType : Type := unmatched | direct_id | fallback_match | duplicate.

Record MongoMatch : Type := mkMongoMatch {
  mongo_business_id : option ObjectId;
  match_type : MatchType
}.

Record DeDupKey : Type := mkKey {
  website_normalized : string;
  address_normalized : string
}.

(** The object [newAuthoritativeDoc], as handed to [insertOne]; the
    members of [mongoMatch] are spread into it. *)
Record NewAuthoritativeDoc : Type := mkNewDoc {
  deDuplicationKey : DeDupKey;
  name : option string;
  website : option string;
  address : option string;
  phone : option string;
  email : option string;
  bubble_ids : list BubbleId;
  spread_mongoMatch : MongoMatch;   (* [...mongoMatch] *)
  created_at : Date;
  updated_at : Date
}.

(** A stored document of the authoritative collection. *)
Record AuthoritativeDoc : Type := mkDoc {
  _id : ObjectId;
  fields : NewAuthoritativeDoc
}.

Definition AuthoritativeCollection : Type := list AuthoritativeDoc.

Record JobData : Type := mkJobData { bubbleId : BubbleId }.
Record Job : Type := mkJob { id : string; data : JobData }.

Inductive Status : Type := success | skipped | not_found.

(** What [processBubbleData] resolves to. *)
Record Result : Type := mkResult {
  status : Status;
  result_match_type : option MatchType;
  reason : option string;
  result_bubbleId : BubbleId
}.

(** The conditions pushed on [queryConditions] and the query built from
    them: [{ $and: [{ website: { $regex } }, { $or: queryConditions }] }]. *)
Inductive Condition : Type :=
| name_regex (re : RegExp)
| contact_phone_regex (re : RegExp).

Record FallbackQuery : Type := mkQuery {
  website_regex : RegExp;
  or_conditions : list Condition
}.

(* ================================================================= *)
(** ** Awaited commands and asynchronous programs *)

Inductive Cmd : Type :=
| axios_get (b : BubbleId)
| authoritative_findOne (key : DeDupKey)
| authoritative_updateOne_addToSet (i : ObjectId) (b : BubbleId)
| business_findOne (pin : string)
| business_find (q : FallbackQuery)
| authoritative_insertOne (d : NewAuthoritativeDoc).

(** What a command resolves to.  [axios_get] resolves to the [response]
    member of the body, absent when the body has none. *)
Definition reply (c : Cmd) : Type :=
  match c with
  | axios_get _ => option BubbleRecord
  | authoritative_findOne _ => option AuthoritativeDoc
  | authoritative_updateOne_addToSet _ _ => unit
  | business_findOne _ => option BusinessDoc
  | business_find _ => list BusinessDoc
  | authoritative_insertOne _ => unit
  end.

Inductive LogLine : Type :=
| issueLogger_warn (title : string) (b : BubbleId)
| logger_error (jobId : string) (b : BubbleId) (e : Error).

(** An asynchronous computation: it returns, throws, writes a log line, or
    awaits a command and goes on with what the command settled to. *)
Inductive Prog (A : Type) : Type :=
| Ret (a : A)
| Throw (e : Error)
| Log (l : LogLine) (k : Prog A)
| Await (c : Cmd) (k : Exc (reply c) -> Prog A).
Arguments Throw {A} e.
Arguments Log {A} l k.
Arguments Await {A} c k.

Fixpoint bind {A B} (m : Prog A) (f : A -> Prog B) : Prog B :=
  match m with
  | Ret a => f a
  | Throw e => Throw e
  | Log l k => Log l (bind k f)
  | Await c k => Await c (fun r => bind (k r) f)
  end.

(** [await c]: a rejected promise is thrown at the [await]. *)
Definition await (c : Cmd) : Prog (reply c) :=
  Await c (fun r => match r with Ok v => Ret v | Thrown e => Throw e end).

Definition lift {A} (m : Exc A) : Prog A :=
  match m with Ok a => Ret a | Thrown e => Throw e end.

(** [try { m } catch (error) { h error }] around asynchronous code. *)
Fixpoint try_catch_async {A} (m : Prog A) (h : Error -> Prog A) : Prog A :=
  match m with
  | Ret a => Ret a
  | Throw e => h e
  | Log l k => Log l (try_catch_async k h)
  | Await c k => Await c (fun r => try_catch_async (k r) h)
  end.

Declare Scope prog_scope.
Delimit Scope prog_scope with prog.
Notation "x <- m ;; k" := (bind m (fun x => k))
  (at level 61, m at next level, right associativity) : prog_scope.
Notation "m ;;; k" := (bind m (fun _ => k))
  (at level 61, right associativity) : prog_scope.
Open Scope prog_scope.

(* ================================================================= *)
(** ** The processor *)

Section Processor.

Variable pf : Platform.

(** [new RegExp(p, 'i')]. *)
Definition new_RegExp_i (p : string) : Exc RegExp :=
  if RegExp_accepts pf p then Ok (mkRegExp p true) else Thrown SyntaxError.

Definition no_match : MongoMatch := mkMongoMatch None unmatched.

(** The direct-id tier (lines 95-101): one [findOne] on [old_pin_code] when
    the record carries [Unique_ID_1] or [Unique_ID]. *)
Definition direct_tier (bubbleRecord : BubbleRecord) : Prog MongoMatch :=
  let uniqueIdFromBubble := or_else (Unique_ID_1 bubbleRecord) (Unique_ID bubbleRecord) in
  match uniqueIdFromBubble with
  | Some pin =>
      if truthy uniqueIdFromBubble then
        matchingDoc <- await (business_findOne pin) ;;
        match matchingDoc with
        | Some d => Ret (mkMongoMatch (Some (business_id d)) direct_id)
        | None => Ret no_match
        end
      else Ret no_match
  | None => Ret no_match
  end.

(** [queryConditions] (lines 104-109). *)
Definition queryConditions (bubbleRecord : BubbleRecord) : Exc (list Condition) :=
  let name := name_1 bubbleRecord in
  let phone := phone_1 bubbleRecord in
  exc_bind
    (if truthy name
     then exc_bind (new_RegExp_i (normalizeString name)) (fun re => Ok [name_regex re])
     else Ok [])
    (fun conds =>
       match phone with
       | Some p =>
           if truthy phone then
             let digits := filter is_digit p in
             if Nat.ltb 6 (String.length digits)
             then Ok (conds ++ [contact_phone_regex (mkRegExp digits false)])
             else Ok conds
           else Ok conds
       | None => Ok conds
       end).

(** The fallback tier (lines 103-118), entered with the match found so far. *)
Definition fallback_tier (bubbleRecord : BubbleRecord) (found : MongoMatch)
  : Prog MongoMatch :=
  match mongo_business_id found with
  | Some _ => Ret found
  | None =>
      conds <- lift (queryConditions bubbleRecord) ;;
      if Nat.ltb 0 (List.length conds) then
        host <- lift (normalizeUrl pf (site_1 bubbleRecord)) ;;
        re <- lift (new_RegExp_i host) ;;
        matches <- await (business_find (mkQuery re conds)) ;;
        match matches with
        | [m] => Ret (mkMongoMatch (Some (business_id m)) fallback_match)
        | _ => Ret found
        end
      else Ret found
  end.

(** The matcher: lines 93-118 of [processBubbleData]. *)
Definition matcher (bubbleRecord : BubbleRecord) : Prog MongoMatch :=
  found <- direct_tier bubbleRecord ;;
  fallback_tier bubbleRecord found.

Definition skip_reason : string := "Missing website and address for de-duplication".

Definition not_found_reason (b : BubbleId) : string :=
  ("Record not found or accessible via API for bubbleId: " ++ b)%string.

(** The body of the [try] block (lines 53-135). *)
Definition processBubbleData_try (now : Date) (job : Job) : Prog Result :=
  let bubbleId := bubbleId (data job) in
  bubbleRecord <- await (axios_get bubbleId) ;;
  match bubbleRecord with
  | None =>
      Log (issueLogger_warn "Record Not Found" bubbleId)
          (Ret (mkResult not_found None (Some (not_found_reason bubbleId)) bubbleId))
  | Some bubbleRecord =>
      let site := site_1 bubbleRecord in
      let address := full_address_1 bubbleRecord in
      host <- lift (normalizeUrl pf site) ;;
      let deDuplicationKey := mkKey host (normalizeString address) in
      if (negb (truthy (Some (website_normalized deDuplicationKey)))
          && negb (truthy (Some (address_normalized deDuplicationKey))))%bool
      then Ret (mkResult skipped None (Some skip_reason) bubbleId)
      else
        existingAuthoritativeDoc <- await (authoritative_findOne deDuplicationKey) ;;
        match existingAuthoritativeDoc with
        | Some existing =>
            await (authoritative_updateOne_addToSet (_id existing) bubbleId) ;;;
            Ret (mkResult success (Some duplicate) None bubbleId)
        | None =>
            let name := name_1 bubbleRecord in
            let phone := phone_1 bubbleRecord in
            let email := email_1 bubbleRecord in
            mongoMatch <- matcher bubbleRecord ;;
            let newAuthoritativeDoc :=
              mkNewDoc deDuplicationKey name site address phone email
                       [bubbleId] mongoMatch now now in
            await (authoritative_insertOne newAuthoritativeDoc) ;;;
            Ret (mkResult success
                          (Some (match_type (spread_mongoMatch newAuthoritativeDoc)))
                          None bubbleId)
        end
  end.

(** The [catch] block (lines 137-149): it logs everything except a 404 of
    the API, and throws the error again. *)
Definition processBubbleData_catch (job : Job) (error : Error) : Prog Result :=
  let bubbleId := bubbleId (data job) in
  match error with
  | AxiosError (Some 404%N) => Throw error
  | _ => Log (logger_error (id job) bubbleId error) (Throw error)
  end.

Definition processBubbleData (now : Date) (job : Job) : Prog Result :=
  try_catch_async (processBubbleData_try now job) (processBubbleData_catch job).

End Processor.

(* ================================================================= *)
(** ** The collections and what the commands do to them *)

(** What a job cannot change: the Bubble API and the business collection,
    which the processor only reads. *)
Record Env : Type := mkEnv {
  bubble_api : BubbleId -> Exc (option BubbleRecord);
  business : list BusinessDoc
}.

Definition key_eqb (k1 k2 : DeDupKey) : bool :=
  (String.eqb (website_normalized k1) (website_normalized k2)
   && String.eqb (address_normalized k1) (address_normalized k2))%bool.

Definition doc_key (d : AuthoritativeDoc) : DeDupKey := deDuplicationKey (fields d).

Definition has_key (key : DeDupKey) (d : AuthoritativeDoc) : bool :=
  key_eqb (doc_key d) key.

(** [authoritativeCollection.findOne(deDuplicationKey)]. *)
Definition findOne (key : DeDupKey) (coll : AuthoritativeCollection)
  : option AuthoritativeDoc :=
  find (has_key key) coll.

(** [$addToSet] on an array. *)
Definition addToSet (b : BubbleId) (l : list BubbleId) : list BubbleId :=
  if existsb (String.eqb b) l then l else l ++ [b].

Definition add_bubble_id (b : BubbleId) (d : AuthoritativeDoc) : AuthoritativeDoc :=
  let f := fields d in
  mkDoc (_id d)
        (mkNewDoc (deDuplicationKey f) (name f) (website f) (address f) (phone f)
                  (email f) (addToSet b (bubble_ids f)) (spread_mongoMatch f)
                  (created_at f) (updated_at f)).

(** [updateOne({ _id: i }, { $addToSet: { bubble_ids: b } })]: the first
    document with that [_id], if there is one. *)
Fixpoint updateOne_addToSet (i : ObjectId) (b : BubbleId)
  (coll : AuthoritativeCollection) : AuthoritativeCollection :=
  match coll with
  | [] => []
  | d :: rest =>
      if Nat.eqb (_id d) i then add_bubble_id b d :: rest
      else d :: updateOne_addToSet i b rest
  end.

(** The driver gives a new document an [_id] no stored document has. *)
Definition fresh_id (coll : AuthoritativeCollection) : ObjectId :=
  S (list_max (map _id coll)).

(** [insertOne] under the unique index on
    [{ website_normalized: 1, address_normalized: 1 }] that [connectToMongo]
    creates (line 40): a document whose key is taken is rejected with E11000
    and the collection stays as it is. *)
Definition insertOne (d : NewAuthoritativeDoc) (coll : AuthoritativeCollection)
  : Exc AuthoritativeCollection :=
  if existsb (has_key (deDuplicationKey d)) coll then Thrown E11000
  else Ok (coll ++ [mkDoc (fresh_id coll) d]).

Section Semantics.

Variable pf : Platform.
Variable env : Env.

Definition field_matches (re : RegExp) (field : option string) : bool :=
  match field with
  | Some s => regex_search pf re s
  | None => false
  end.

Definition condition_holds (d : BusinessDoc) (c : Condition) : bool :=
  match c with
  | name_regex re => field_matches re (business_name d)
  | contact_phone_regex re => field_matches re (contact_phone d)
  end.

Definition query_holds (q : FallbackQuery) (d : BusinessDoc) : bool :=
  (field_matches (website_regex q) (business_website d)
   && existsb (condition_holds d) (or_conditions q))%bool.

Definition has_pin (pin : string) (d : BusinessDoc) : bool :=
  match old_pin_code d with
  | Some p => String.eqb p pin
  | None => false
  end.

(** One command against the collections: the collection afterwards and what
    the promise settles to. *)
Definition perform (coll : AuthoritativeCollection) (c : Cmd)
  : AuthoritativeCollection * Exc (reply c) :=
  match c return AuthoritativeCollection * Exc (reply c) with
  | axios_get b => (coll, bubble_api env b)
  | authoritative_findOne key => (coll, Ok (findOne key coll))
  | authoritative_updateOne_addToSet i b => (updateOne_addToSet i b coll, Ok tt)
  | business_findOne pin => (coll, Ok (find (has_pin pin) (business env)))
  | business_find q => (coll, Ok (List.filter (query_holds q) (business env)))
  | authoritative_insertOne d =>
      match insertOne d coll with
      | Ok coll' => (coll', Ok tt)
      | Thrown e => (coll, Thrown e)
      end
  end.

Inductive Event : Type :=
| Called (c : Cmd) (rejected : option Error)
| Logged (l : LogLine).

Definition rejection {A} (r : Exc A) : option Error :=
  match r with Ok _ => None | Thrown e => Some e end.

(** A job run alone, from start to end: the collection afterwards, how the
    promise settled, and what was called and logged on the way. *)
Fixpoint exec {A} (p : Prog A) (coll : AuthoritativeCollection)
  : AuthoritativeCollection * Exc A * list Event :=
  match p with
  | Ret a => (coll, Ok a, [])
  | Throw e => (coll, Thrown e, [])
  | Log l k =>
      let '(coll', r, tr) := exec k coll in (coll', r, Logged l :: tr)
  | Await c k =>
      let (coll1, r) := perform coll c in
      let '(coll', res, tr) := exec (k r) coll1 in
      (coll', res, Called c (rejection r) :: tr)
  end.

(** The synchronous stretch up to the next [await]. *)
Fixpoint settle {A} (p : Prog A) : list Event * Prog A :=
  match p with
  | Log l k => let (tr, q) := settle k in (Logged l :: tr, q)
  | _ => ([], p)
  end.

(** One turn of a worker: the awaited command is performed and the job runs
    on to its next [await].  A job that has settled stays as it is. *)
Definition step {A} (p : Prog A) (coll : AuthoritativeCollection)
  : AuthoritativeCollection * Prog A * list Event :=
  let (tr0, p0) := settle p in
  match p0 with
  | Await c k =>
      let (coll', r) := perform coll c in
      let (tr1, p1) := settle (k r) in
      (coll', p1, tr0 ++ Called c (rejection r) :: tr1)
  | _ => (coll, p0, tr0)
  end.

(** Replace the [n]-th job. *)
Fixpoint set_nth {A} (n : nat) (x : A) (l : list A) : list A :=
  match l, n with
  | [], _ => []
  | _ :: r, O => x :: r
  | y :: r, S m => y :: set_nth m x r
  end.

(** Concurrent jobs: the schedule names the job that takes each turn. *)
Fixpoint run {A} (sched : list nat) (jobs : list (Prog A))
  (coll : AuthoritativeCollection)
  : AuthoritativeCollection * list (Prog A) * list (nat * Event) :=
  match sched with
  | [] => (coll, jobs, [])
  | i :: rest =>
      match nth_error jobs i with
      | Some p =>
          let '(coll1, p', tr) := step p coll in
          let '(coll', jobs', tr') := run rest (set_nth i p' jobs) coll1 in
          (coll', jobs', map (pair i) tr ++ tr')
      | None => run rest jobs coll
      end
  end.

End Semantics.

(* ================================================================= *)
(** ** The vocabulary of the properties *)

(** The characters [normalizeString] keeps. *)
Definition kept (c : ascii) : bool := negb (stripped c).

Definition no_slash (s : string) : bool :=
  JsString.forallb (fun c => negb (Ascii.eqb c "/")) s.

(** A key the skip test (line 75) lets through: one of its parts is not
    empty. *)
Definition key_nonempty (key : DeDupKey) : Prop :=
  website_normalized key <> "" \/ address_normalized key <> "".

(** The verdict on the documents the fallback query returned. *)
Definition unique_match (matches : list BusinessDoc) : MongoMatch :=
  match matches with
  | [m] => mkMongoMatch (Some (business_id m)) fallback_match
  | _ => no_match
  end.

(** The document [processBubbleData] builds on a lookup miss (lines
    120-131), from the record, its key and the matcher's verdict. *)
Definition newAuthoritativeDoc (now : Date) (b : BubbleId) (r : BubbleRecord)
  (key : DeDupKey) (mm : MongoMatch) : NewAuthoritativeDoc :=
  mkNewDoc key (name_1 r) (site_1 r) (full_address_1 r) (phone_1 r) (email_1 r)
           [b] mm now now.

(** A verdict carries a business id exactly when it is a match. *)
Definition verdict_ok (mm : MongoMatch) : Prop :=
  match match_type mm with
  | direct_id | fallback_match => mongo_business_id mm <> None
  | unmatched => mongo_business_id mm = None
  | duplicate => False
  end.

(** What the claim on inserted documents says of a document handed to
    [insertOne] by the job of [b]. *)
Definition inserted_ok (b : BubbleId) (d : NewAuthoritativeDoc) : Prop :=
  bubble_ids d = [b] /\
  (mongo_business_id (spread_mongoMatch d) <> None <->
   match_type (spread_mongoMatch d) = direct_id \/
   match_type (spread_mongoMatch d) = fallback_match) /\
  (mongo_business_id (spread_mongoMatch d) = None <->
   match_type (spread_mongoMatch d) = unmatched).

Definition insert_ok (b : BubbleId) (c : Cmd) : Prop :=
  match c with
  | authoritative_insertOne d => inserted_ok b d
  | _ => True
  end.

(** How a settled promise shows as a job. *)
Definition settled {A} (r : Exc A) : Prog A :=
  match r with Ok a => Ret a | Thrown e => Throw e end.

(** [all_calls P p]: every command [p] can come to await, whatever the
    commands before it settled to, satisfies [P]. *)
Fixpoint all_calls {A} (P : Cmd -> Prop) (p : Prog A) : Prop :=
  match p with
  | Ret _ | Throw _ => True
  | Log _ k => all_calls P k
  | Await c k => P c /\ forall r, all_calls P (k r)
  end.

(** [all_rets Q p]: whatever [p] returns satisfies [Q]. *)
Fixpoint all_rets {A} (Q : A -> Prop) (p : Prog A) : Prop :=
  match p with
  | Ret a => Q a
  | Throw _ => True
  | Log _ k => all_rets Q k
  | Await c k => forall r, all_rets Q (k r)
  end.

(** The commands that change the authoritative collection, those that read
    the business collection, and the insert. *)
Definition is_write (c : Cmd) : bool :=
  match c with
  | authoritative_updateOne_addToSet _ _ | authoritative_insertOne _ => true
  | _ => false
  end.

Definition on_business (c : Cmd) : bool :=
  match c with
  | business_findOne _ | business_find _ => true
  | _ => false
  end.

Definition is_insert (c : Cmd) : bool :=
  match c with
  | authoritative_insertOne _ => true
  | _ => false
  end.

(** No two stored documents have the same de-duplication key. *)
Definition unique_keys (coll : AuthoritativeCollection) : Prop :=
  NoDup (map doc_key coll).

(** No two stored documents have the same [_id], as the server ensures. *)
Definition unique_ids (coll : AuthoritativeCollection) : Prop :=
  NoDup (map _id coll).

(** The document of key [key] lists the identifier [b]. *)
Definition linked (key : DeDupKey) (b : BubbleId) (coll : AuthoritativeCollection) : Prop :=
  exists d, In d coll /\ doc_key d = key /\ In b (bubble_ids (fields d)).

(** How a collection can change while a job waits: documents stay, with
    their [_id] and key, and their [bubble_ids] only grow. *)
Definition extends (coll coll' : AuthoritativeCollection) : Prop :=
  forall d, In d coll ->
    exists d', In d' coll' /\ _id d' = _id d /\ doc_key d' = doc_key d /\
               incl (bubble_ids (fields d)) (bubble_ids (fields d')).

(** A property of a result and the collection that no extension of the
    collection undoes. *)
Definition stable {A} (Q : A -> AuthoritativeCollection -> Prop) : Prop :=
  forall a coll coll', Q a coll -> extends coll coll' -> Q a coll'.

Section Vocabulary.

Variable pf : Platform.
Variable env : Env.

(** [ensures Q p coll]: if the job [p] returns [a], [Q a] holds of the
    collection then, however the collection was extended by others before
    each of its commands. *)
Fixpoint ensures {A} (Q : A -> AuthoritativeCollection -> Prop) (p : Prog A)
  (coll : AuthoritativeCollection) : Prop :=
  match p with
  | Ret a => Q a coll
  | Throw _ => True
  | Log _ k => ensures Q k coll
  | Await c k =>
      forall coll', extends coll coll' -> unique_ids coll' ->
        ensures Q (k (snd (perform pf env coll' c))) (fst (perform pf env coll' c))
  end.

(** The key of the record a job fetches, when it fetches one. *)
Definition job_key (job : Job) : option DeDupKey :=
  match bubble_api env (bubbleId (data job)) with
  | Ok (Some r) =>
      match normalizeUrl pf (site_1 r) with
      | Ok host => Some (mkKey host (normalizeString (full_address_1 r)))
      | Thrown _ => None
      end
  | _ => None
  end.

(** A job that returns [success] has its identifier listed under its key. *)
Definition success_linked (job : Job) (res : Result) (coll : AuthoritativeCollection) : Prop :=
  status res = success ->
  exists key, job_key job = Some key /\ linked key (bubbleId (data job)) coll.

(** Each job keeps its own guarantee. *)
Definition jobs_ensure {A} (Qs : nat -> A -> AuthoritativeCollection -> Prop)
  (jobs : list (Prog A)) (coll : AuthoritativeCollection) : Prop :=
  forall i p, nth_error jobs i = Some p -> ensures (Qs i) p coll.

(** [every_await P p]: every [await] the job [p] can come to in this
    environment, with what follows it, satisfies [P]. *)
Fixpoint every_await {A} (P : forall c : Cmd, (Exc (reply c) -> Prog A) -> Prop)
  (p : Prog A) : Prop :=
  match p with
  | Ret _ | Throw _ => True
  | Log _ k => every_await P k
  | Await c k => P c k /\ forall coll, every_await P (k (snd (perform pf env coll c)))
  end.

(** The states a job passes through, whatever the collection is at each of
    its turns. *)
Inductive reachable {A} (p0 : Prog A) : Prog A -> Prop :=
| reach_start : reachable p0 p0
| reach_turn (p : Prog A) (coll : AuthoritativeCollection) :
    reachable p0 p -> reachable p0 (snd (fst (step pf env p coll))).

(** What holds at an [insertOne] of the job: the document carries the key
    of the job's record, which is not empty, and a duplicate-key rejection
    goes through the [catch] block, which logs it and throws it again. *)
Definition rethrows (job : Job) (c : Cmd) (k : Exc (reply c) -> Prog Result) : Prop :=
  let rejected := settle (k (Thrown E11000)) in
  match c with
  | authoritative_insertOne d =>
      job_key job = Some (deDuplicationKey d) /\
      key_nonempty (deDuplicationKey d) /\
      rejected = ([Logged (logger_error (id job) (bubbleId (data job)) E11000)],
                  Throw E11000)
  | _ => True
  end.

End Vocabulary.

(* ================================================================= *)
(** ** A platform to run scenarios on *)

(** A stand-in for the URL parser on [http:] and [https:] addresses: the
    host is what follows the scheme up to the first [/], lower-cased; an
    address with another start, an empty host or a space in the host is
    rejected. *)
Definition scenario_URL_hostname (s : string) : option string :=
  let l := toLowerCase s in
  let after :=
    match drop_prefix "https://" l with
    | Some r => Some r
    | None => drop_prefix "http://" l
    end in
  match after with
  | Some r =>
      let h := hd "" (split "/" r) in
      if (Nat.eqb (String.length h) 0 || negb (JsString.forallb (fun c => negb (is_space c)) h))%bool
      then None else Some h
  | None => None
  end.

(** A stand-in for the regular expression engines on patterns made of
    literal characters: every pattern is accepted and is looked for as a
    substring, after lower-casing under the flag [i]. *)
Definition scenario_regex_search (re : RegExp) (s : string) : bool :=
  if ignoreCase re then contains (toLowerCase (source re)) (toLowerCase s)
  else contains (source re) s.

Definition scenario_platform : Platform :=
  mkPlatform scenario_URL_hostname (fun _ => true) scenario_regex_search.

(* ================================================================= *)
(** ** Scenarios *)

Module Scenario.

(** Two business documents on the same site. *)
Definition acme : BusinessDoc :=
  mkBusinessDoc 7 (Some "Acme Corp") (Some "http://acme.com")
                (Some "5551234567") (Some "PIN7").

Definition acme_outlet : BusinessDoc :=
  mkBusinessDoc 8 (Some "Acme Outlet") (Some "https://www.acme.com/outlet")
                (Some "5559876543") (Some "PIN8").

(** A record with a legacy identifier, whose site and name also fit both
    business documents. *)
Definition with_pin : BubbleRecord :=
  mkBubbleRecord (Some "https://www.acme.com/shop") (Some "1 Main St.")
                 (Some "Acme") None None (Some "PIN7") None.

(** The same record without the identifier. *)
Definition ambiguous : BubbleRecord :=
  mkBubbleRecord (Some "https://www.acme.com/shop") (Some "1 Main St.")
                 (Some "Acme") None None None None.

(** Two records of one place: no website, the same address spelled in two
    ways. *)
Definition corner_shop : BubbleRecord :=
  mkBubbleRecord None (Some "1 Main St.") None None None None None.

Definition corner_shop_again : BubbleRecord :=
  mkBubbleRecord None (Some "1 main st") None None None None None.

(** No website, an address and a name. *)
Definition no_website : BubbleRecord :=
  mkBubbleRecord None (Some "9 Elm Rd") (Some "Acme") None None None None.

(** Nothing to key on. *)
Definition blank : BubbleRecord :=
  mkBubbleRecord (Some "") (Some " - ") (Some "Nameless") None None None None.

Definition api (b : BubbleId) : Exc (option BubbleRecord) :=
  if String.eqb b "pin" then Ok (Some with_pin)
  else if String.eqb b "ambiguous" then Ok (Some ambiguous)
  else if String.eqb b "shop1" then Ok (Some corner_shop)
  else if String.eqb b "shop2" then Ok (Some corner_shop_again)
  else if String.eqb b "nosite" then Ok (Some no_website)
  else if String.eqb b "blank" then Ok (Some blank)
  else Thrown (AxiosError (Some 404%N)).

Definition env : Env := mkEnv api [acme; acme_outlet].

Definition job (b : BubbleId) : Job := mkJob "1" (mkJobData b).

Definition process (b : BubbleId) : Prog Result :=
  processBubbleData scenario_platform 0 (job b).

Definition shop_key : DeDupKey := mkKey "" "1mainst".

(** The collection once ["shop1"] has been processed. *)
Definition after_shop1 : AuthoritativeCollection :=
  [mkDoc 1 (newAuthoritativeDoc 0 "shop1" corner_shop shop_key no_match)].

End Scenario.

(** Two jobs for records of one key, their turns alternating: both miss
    the lookup, job 0 inserts, and the insert of job 1 is rejected. *)
Definition race_turns : list nat := [0; 1; 0; 1; 0; 1].

Definition race_jobs : list (Prog Result) :=
  [Scenario.process "shop1"; Scenario.process "shop2"].

Definition shop2_doc : NewAuthoritativeDoc :=
  newAuthoritativeDoc 0 "shop2" Scenario.corner_shop_again Scenario.shop_key no_match.

(** The job of ["shop2"] after its fetch and its lookup in an empty
    collection: it waits for its [insertOne]. *)
Definition shop2_before_insert : Prog Result :=
  snd (fst (step scenario_platform Scenario.env
              (snd (fst (step scenario_platform Scenario.env
                           (Scenario.process "shop2") [])))
              [])).

(* ================================================================= *)
(** ** More vocabulary: what a run leaves behind *)

(** What the [catch] block writes in the log for an error. *)
Definition catch_log (job : Job) (e : Error) : list Event :=
  match e with
  | AxiosError (Some 404%N) => []
  | _ => [Logged (logger_error (id job) (bubbleId (data job)) e)]
  end.

(** The log lines of a trace. *)
Fixpoint logged (tr : list Event) : list LogLine :=
  match tr with
  | [] => []
  | Logged l :: rest => l :: logged rest
  | Called _ _ :: rest => logged rest
  end.

(** The writes of a trace that the server accepted. *)
Fixpoint accepted_writes (tr : list Event) : list Cmd :=
  match tr with
  | [] => []
  | Called c None :: rest =>
      if is_write c then c :: accepted_writes rest else accepted_writes rest
  | _ :: rest => accepted_writes rest
  end.

(** Two versions of one stored document: everything is the same but,
    possibly, [bubble_ids], which has only grown. *)
Definition same_but_ids (d d' : AuthoritativeDoc) : Prop :=
  _id d' = _id d /\
  deDuplicationKey (fields d') = deDuplicationKey (fields d) /\
  name (fields d') = name (fields d) /\
  website (fields d') = website (fields d) /\
  address (fields d') = address (fields d) /\
  phone (fields d') = phone (fields d) /\
  email (fields d') = email (fields d) /\
  spread_mongoMatch (fields d') = spread_mongoMatch (fields d) /\
  created_at (fields d') = created_at (fields d) /\
  updated_at (fields d') = updated_at (fields d) /\
  incl (bubble_ids (fields d)) (bubble_ids (fields d')).

(** A collection that came from another by merges and inserts: the old
    documents are there in their places, changed in [bubble_ids] at most,
    and new ones follow. *)
Definition grown (coll coll' : AuthoritativeCollection) : Prop :=
  exists kept_docs added,
    coll' = kept_docs ++ added /\ Forall2 same_but_ids coll kept_docs.

(** The results the processor can return: the identifier is the job's, a
    [success] names how the record was matched, and the other two give a
    reason instead. *)
Definition result_ok (b : BubbleId) (res : Result) : Prop :=
  result_bubbleId res = b /\
  match status res with
  | success =>
      reason res = None /\
      exists mt, result_match_type res = Some mt
  | skipped => result_match_type res = None /\ reason res = Some skip_reason
  | not_found => result_match_type res = None /\ reason res = Some (not_found_reason b)
  end.

Section OutcomeVocabulary.

Variable pf : Platform.
Variable env : Env.

(** The runs of a job alone, case by case. *)
Inductive Outcome (now : Date) (job : Job) (coll : AuthoritativeCollection)
  : AuthoritativeCollection * Exc Result * list Event -> Prop :=
| out_fetch_failed e :
    bubble_api env (bubbleId (data job)) = Thrown e ->
    Outcome now job coll
      (coll, Thrown e,
       Called (axios_get (bubbleId (data job))) (Some e) :: catch_log job e)
| out_record_missing :
    bubble_api env (bubbleId (data job)) = Ok None ->
    Outcome now job coll
      (coll,
       Ok (mkResult not_found None (Some (not_found_reason (bubbleId (data job))))
                    (bubbleId (data job))),
       [Called (axios_get (bubbleId (data job))) None;
        Logged (issueLogger_warn "Record Not Found" (bubbleId (data job)))])
| out_no_key r :
    bubble_api env (bubbleId (data job)) = Ok (Some r) ->
    normalizeUrl pf (site_1 r) = Ok "" ->
    normalizeString (full_address_1 r) = "" ->
    Outcome now job coll
      (coll, Ok (mkResult skipped None (Some skip_reason) (bubbleId (data job))),
       [Called (axios_get (bubbleId (data job))) None])
| out_merged key existing :
    job_key pf env job = Some key -> key_nonempty key ->
    findOne key coll = Some existing ->
    Outcome now job coll
      (updateOne_addToSet (_id existing) (bubbleId (data job)) coll,
       Ok (mkResult success (Some duplicate) None (bubbleId (data job))),
       [Called (axios_get (bubbleId (data job))) None;
        Called (authoritative_findOne key) None;
        Called (authoritative_updateOne_addToSet (_id existing) (bubbleId (data job)))
               None])
| out_created r key mm trm :
    bubble_api env (bubbleId (data job)) = Ok (Some r) ->
    job_key pf env job = Some key -> key_nonempty key ->
    findOne key coll = None ->
    exec pf env (matcher pf r) coll = (coll, Ok mm, trm) ->
    Outcome now job coll
      (coll ++ [mkDoc (fresh_id coll)
                      (newAuthoritativeDoc now (bubbleId (data job)) r key mm)],
       Ok (mkResult success (Some (match_type mm)) None (bubbleId (data job))),
       Called (axios_get (bubbleId (data job))) None
         :: Called (authoritative_findOne key) None
         :: trm ++ [Called (authoritative_insertOne
                              (newAuthoritativeDoc now (bubbleId (data job)) r key mm))
                           None])
| out_match_failed r key e trm :
    bubble_api env (bubbleId (data job)) = Ok (Some r) ->
    job_key pf env job = Some key -> key_nonempty key ->
    findOne key coll = None ->
    exec pf env (matcher pf r) coll = (coll, Thrown e, trm) ->
    Outcome now job coll
      (coll, Thrown e,
       Called (axios_get (bubbleId (data job))) None
         :: Called (authoritative_findOne key) None :: trm ++ catch_log job e).

End OutcomeVocabulary.

(* ================================================================= *)
(** ** The worker ([src/workers/bubbleWorker.ts], last iteration) *)

(** [sessionStats].  The counters [unmatched] and [skipped] of the source
    are [unmatched_] and [skipped_] here, the plain names being the match
    type and the status. *)
Record SessionStats : Type := mkStats {
  startTime : Date;
  jobsProcessed : nat;
  newRecordsCreated : nat;
  duplicatesFound : nat;
  directMatches : nat;
  fallbackMatches : nat;
  unmatched_ : nat;
  skipped_ : nat;
  failed : nat;
  notFound : nat
}.

(** [sessionStats] when the worker module is loaded. *)
Definition sessionStats0 (t : Date) : SessionStats :=
  mkStats t 0 0 0 0 0 0 0 0 0.

(** What the two handlers write. *)
Inductive WorkerLog : Type :=
| logger_info_completed (jobId : string) (st : Status) (mt : option MatchType)
| issueLogger_warn_skipped (b : BubbleId) (why : option string) (jobId : string)
| issueLogger_error_failed (b : BubbleId) (jobId : string) (e : Error)
| logger_error_failed (jobId : string) (e : Error)
| issueLogger_error_unknown (e : Error).

(** [result.match_type === mt]. *)
Definition match_type_is (mt : MatchType) (v : option MatchType) : bool :=
  match v, mt with
  | Some unmatched, unmatched | Some direct_id, direct_id
  | Some fallback_match, fallback_match | Some duplicate, duplicate => true
  | _, _ => false
  end.

(** The handler of [completed] (lines 36-58). *)
Definition on_completed (s : SessionStats) (job : Job) (result : Result)
  : SessionStats * list WorkerLog :=
  let s := mkStats (startTime s) (S (jobsProcessed s)) (newRecordsCreated s)
                   (duplicatesFound s) (directMatches s) (fallbackMatches s)
                   (unmatched_ s) (skipped_ s) (failed s) (notFound s) in
  let line := logger_info_completed (id job) (status result) (result_match_type result) in
  match status result with
  | success =>
      if match_type_is duplicate (result_match_type result) then
        (mkStats (startTime s) (jobsProcessed s) (newRecordsCreated s)
                 (S (duplicatesFound s)) (directMatches s) (fallbackMatches s)
                 (unmatched_ s) (skipped_ s) (failed s) (notFound s),
         [line])
      else
        let mt := result_match_type result in
        (mkStats (startTime s) (jobsProcessed s) (S (newRecordsCreated s))
                 (duplicatesFound s)
                 (if match_type_is direct_id mt then S (directMatches s)
                  else directMatches s)
                 (if match_type_is fallback_match mt then S (fallbackMatches s)
                  else fallbackMatches s)
                 (if match_type_is unmatched mt then S (unmatched_ s)
                  else unmatched_ s)
                 (skipped_ s) (failed s) (notFound s),
         [line])
  | skipped =>
      (mkStats (startTime s) (jobsProcessed s) (newRecordsCreated s)
               (duplicatesFound s) (directMatches s) (fallbackMatches s)
               (unmatched_ s) (S (skipped_ s)) (failed s) (notFound s),
       [line; issueLogger_warn_skipped (bubbleId (data job)) (reason result) (id job)])
  | not_found =>
      (mkStats (startTime s) (jobsProcessed s) (newRecordsCreated s)
               (duplicatesFound s) (directMatches s) (fallbackMatches s)
               (unmatched_ s) (skipped_ s) (failed s) (S (notFound s)),
       [line])
  end.

(** The handler of [failed] (lines 60-69); the job may be unknown. *)
Definition on_failed (s : SessionStats) (job : option Job) (err : Error)
  : SessionStats * list WorkerLog :=
  (mkStats (startTime s) (S (jobsProcessed s)) (newRecordsCreated s)
           (duplicatesFound s) (directMatches s) (fallbackMatches s)
           (unmatched_ s) (skipped_ s) (S (failed s)) (notFound s),
   match job with
   | Some j => [issueLogger_error_failed (bubbleId (data j)) (id j) err;
                logger_error_failed (id j) err]
   | None => [issueLogger_error_unknown err]
   end).

(** The queue's worker tells the handlers how a job settled: [completed]
    with what the processor returned, [failed] with what it threw; a job
    still running has told nothing yet. *)
Definition on_settled (s : SessionStats) (job : Job) (p : Prog Result)
  : SessionStats * list WorkerLog :=
  match p with
  | Ret result => on_completed s job result
  | Throw err => on_failed s (Some job) err
  | _ => (s, [])
  end.

(** The statistics once the handlers have heard of every job of a list. *)
Fixpoint report (s : SessionStats) (jobs : list (Job * Prog Result)) : SessionStats :=
  match jobs with
  | [] => s
  | (job, p) :: rest => report (fst (on_settled s job p)) rest
  end.





(** The counters add up: every job heard of is counted once, as a
    duplicate, a new record, skipped, not found or failed, and every new
    record once, under its match type. *)
Definition balanced (s : SessionStats) : Prop :=
  jobsProcessed s
  = duplicatesFound s + newRecordsCreated s + skipped_ s + notFound s + failed s /\
  newRecordsCreated s = directMatches s + fallbackMatches s + unmatched_ s.

(** A [success] names its match type. *)
Definition names_match (res : Result) : Prop :=
  status res = success -> exists mt, result_match_type res = Some mt.

(** The jobs of a session, each with the time of its [new Date()]. *)
Definition session_jobs (pf : Platform) (jobs : list (Date * Job)) : list (Prog Result) :=
  map (fun nj => processBubbleData pf (fst nj) (snd nj)) jobs.

(* ================================================================= *)
(** ** Start-up: [connectToMongo] and [startWorker] *)

(** The database as [connectToMongo] meets it, step by step of its [try]
    block: what [new MongoClient(uri)] throws (on a malformed address),
    what [connect] throws, what getting the handles ([db], [collection])
    throws (on a name the driver refuses), the documents of the
    authoritative collection, whether the unique index on the
    de-duplication key is there, and what [createIndex] throws whatever the
    documents are (a lost connection, a missing permission, an index on
    the same fields with other options). *)
Record Server : Type := mkServer {
  client : Exc unit;
  connecting : Exc unit;
  handles : Exc unit;
  documents : AuthoritativeCollection;
  unique_index : bool;
  indexing : Exc unit
}.

(** Whether no two documents have the same key: what the server checks
    when it builds a unique index. *)
Fixpoint no_dup_keys (coll : AuthoritativeCollection) : bool :=
  match coll with
  | [] => true
  | d :: rest => (negb (existsb (has_key (doc_key d)) rest) && no_dup_keys rest)%bool
  end.

(** [createIndex({ website_normalized: 1, address_normalized: 1 },
    { unique: true })]: when the server takes the command, there is nothing
    to do if the index is there; otherwise it is built, unless two
    documents have the same key. *)
Definition createIndex (srv : Server) : Exc Server :=
  match indexing srv with
  | Thrown e => Thrown e
  | Ok _ =>
      if unique_index srv then Ok srv
      else if no_dup_keys (documents srv)
           then Ok (mkServer (client srv) (connecting srv) (handles srv)
                             (documents srv) true (indexing srv))
           else Thrown E11000
  end.

Inductive StartupLog : Type :=
| logger_info (msg : string)
| logger_error_connect (e : Error).

(** How [connectToMongo] ends: the process exits, or the call returns with
    the module's [mongoClient] set or not. *)
Inductive Startup : Type :=
| exited (code : nat) (log : list StartupLog)
| returned (mongoClient : bool) (srv : Server) (log : list StartupLog).

(** The [try] block of [connectToMongo] (lines 32-41): the server
    afterwards and what was logged, or what was thrown and what had been
    logged by then. *)
Definition connectToMongo_try (srv : Server) : Exc Server * list StartupLog :=
  match client srv with
  | Thrown e => (Thrown e, [])
  | Ok _ =>
      match connecting srv with
      | Thrown e => (Thrown e, [])
      | Ok _ =>
          match handles srv with
          | Thrown e => (Thrown e, [])
          | Ok _ =>
              match createIndex srv with
              | Thrown e => (Thrown e, [logger_info "Successfully connected to MongoDB."])
              | Ok srv' =>
                  (Ok srv',
                   [logger_info "Successfully connected to MongoDB.";
                    logger_info "Ensured indexes are in place for authoritative collection."])
              end
          end
      end
  end.

(** [connectToMongo] (lines 30-47); [mongoClient] tells whether the module
    variable of that name is set. *)
Definition connectToMongo (mongoClient : bool) (srv : Server) : Startup :=
  if mongoClient then returned mongoClient srv []
  else
    match connectToMongo_try srv with
    | (Ok srv', log) => returned true srv' log
    | (Thrown e, log) => exited 1 (log ++ [logger_error_connect e])
    end.

(** A server keeps what its index promises. *)
Definition server_ok (srv : Server) : Prop :=
  unique_index srv = true -> unique_keys (documents srv).

Section StartWorker.

Variable pf : Platform.
Variable env : Env.

(** [startWorker] (worker, lines 25-34): the jobs are worked on once
    [connectToMongo] has returned, and not at all when it exits. *)
Definition startWorker (srv : Server) (sched : list nat) (jobs : list (Date * Job))
  : option (AuthoritativeCollection * list (Prog Result) * list (nat * Event)) :=
  match connectToMongo false srv with
  | returned _ srv' _ => Some (run pf env sched (session_jobs pf jobs) (documents srv'))
  | exited _ _ => None
  end.

End StartWorker.

(* ================================================================= *)
(** ** The producer ([src/producer.ts], from a file of identifiers) *)

(** [config.producerJobLimit]: an integer or [Infinity]. *)
Inductive JobLimit : Type :=
| Finite (n : Z)
| Infinity.

(** The longest prefix of decimal digits, as a number, and whether there
    was a digit. *)
Fixpoint leading_digits (acc : Z) (seen : bool) (s : string) : Z * bool :=
  match s with
  | String c r =>
      if is_digit c
      then leading_digits (10 * acc + Z.of_N (code c - 48)) true r
      else (acc, seen)
  | EmptyString => (acc, seen)
  end.

(** [parseInt(s, 10)]; [None] is [NaN].  Leading white space is skipped, a
    sign is read, then the digits; what follows them is ignored. *)
Definition parseInt10 (s : string) : option Z :=
  let t := trimStart s in
  let (negative, rest) :=
    match t with
    | String "-" r => (true, r)
    | String "+" r => (false, r)
    | _ => (false, t)
    end in
  match leading_digits 0 false rest with
  | (n, true) => Some (if negative then (- n)%Z else n)
  | (_, false) => None
  end.

(** [parseInt(process.env.PRODUCER_JOB_LIMIT || '0', 10) || Infinity]
    (config, line 25). *)
Definition producerJobLimit (PRODUCER_JOB_LIMIT : option string) : JobLimit :=
  match or_else PRODUCER_JOB_LIMIT (Some "0") with
  | Some s =>
      match parseInt10 s with
      | Some n => if Z.eqb n 0 then Infinity else Finite n
      | None => Infinity
      end
  | None => Infinity
  end.

(** [jobPromises.length >= jobLimit]. *)
Definition limit_reached (n : nat) (jobLimit : JobLimit) : bool :=
  match jobLimit with
  | Finite l => Z.leb l (Z.of_nat n)
  | Infinity => false
  end.

Definition startsWith (p s : string) : bool :=
  match drop_prefix p s with Some _ => true | None => false end.

(** What the producer has done so far: the identifiers it has added to the
    queue, in order, and whether it has destroyed the file stream. *)
Record Producer : Type := mkProducer {
  jobPromises : list BubbleId;
  destroyed : bool
}.

(** The handler of [data] (lines 33-52), for one row of the file. *)
Definition on_data (jobLimit : JobLimit) (st : Producer) (row : list string) : Producer :=
  if limit_reached (List.length (jobPromises st)) jobLimit
  then mkProducer (jobPromises st) true
  else
    let bubbleId := option_map trim (nth_error row 0) in
    match bubbleId with
    | Some b =>
        if (truthy bubbleId && negb (startsWith "#" b))%bool
        then mkProducer (jobPromises st ++ [b]) (destroyed st)
        else st
    | None => st
    end.

(** The rows of the file through the handler, from the start. *)
Definition read_rows (jobLimit : JobLimit) (rows : list (list string)) : Producer :=
  fold_left (on_data jobLimit) rows (mkProducer [] false).

(** [enqueueJobs] (lines 10-74), by the jobs it adds to the queue: none
    without a file, where it rejects before it reads; otherwise those the
    handler has added once the rows [rows] have been through it. *)
Definition enqueueJobs (jobLimit : JobLimit) (file : option (list (list string)))
  : option (list BubbleId) :=
  match file with
  | None => None
  | Some rows => Some (jobPromises (read_rows jobLimit rows))
  end.

(** The identifier a row gives, if it gives one: its first column,
    trimmed, when that is not empty and is not a comment. *)
Definition row_id (row : list string) : option BubbleId :=
  match nth_error row 0 with
  | Some c =>
      let b := trim c in
      if (truthy (Some b) && negb (startsWith "#" b))%bool then Some b else None
  | None => None
  end.

Fixpoint row_ids (rows : list (list string)) : list BubbleId :=
  match rows with
  | [] => []
  | row :: rest =>
      match row_id row with
      | Some b => b :: row_ids rest
      | None => row_ids rest
      end
  end.

(** What is left of the limit after [n] jobs: that many of the
    identifiers to come are taken. *)
Definition up_to (jobLimit : JobLimit) (n : nat) (ids : list BubbleId) : list BubbleId :=
  match jobLimit with
  | Finite l => firstn (Z.to_nat (l - Z.of_nat n)) ids
  | Infinity => ids
  end.

(* ================================================================= *)
(** ** More scenarios *)

(** An API that has no record under any identifier. *)
Definition no_records : Env := mkEnv (fun _ => Ok None) [Scenario.acme].

(** A server that can be reached, holds the collection left by ["shop1"]
    and has no index yet. *)
Definition fresh_server : Server :=
  mkServer (Ok tt) (Ok tt) (Ok tt) Scenario.after_shop1 false (Ok tt).

(** The jobs of ["shop1"] and ["shop2"], as the worker is given them. *)
Definition shop_jobs : list (Date * Job) :=
  [(0, Scenario.job "shop1"); (0, Scenario.job "shop2")].

(** A file of identifiers: a comment, an empty line, and three
    identifiers with blanks around them. *)
Definition ids_file : list (list string) :=
  [["# bubble ids"]; [" a1 "; "x"]; [""]; ["b2"]; []; [" c3"]].

(* ================================================================= *)
(** ** Properties of the normalizer *)

Section NormalizerFacts.

Variable pf : Platform.

Lemma lower_char_idempotent (c : ascii) : lower_char (lower_char c) = lower_char c.
Proof. destruct c as [[] [] [] [] [] [] [] []]; reflexivity. Qed.

Lemma not_stripped_not_space (c : ascii) : stripped c = false -> is_space c = false.
Proof. unfold stripped. intros H. apply orb_false_iff in H. tauto. Qed.

Lemma filter_forallb (f : ascii -> bool) (s : string) :
  JsString.forallb f (filter f s) = true.
Proof.
  induction s as [|c r IH]; simpl; [reflexivity|].
  destruct (f c) eqn:E; simpl; [rewrite E|]; auto.
Qed.



Lemma trimStart_fixed (s : string) :
  JsString.forallb kept s = true -> trimStart s = s.
Proof.
  destruct s as [|c r]; simpl; [reflexivity|].
  intros H. apply andb_true_iff in H. destruct H as [Hc _].
  unfold kept in Hc. apply negb_true_iff in Hc.
  rewrite (not_stripped_not_space _ Hc). reflexivity.
Qed.

Lemma trimEnd_fixed (s : string) :
  JsString.forallb kept s = true -> trimEnd s = s.
Proof.
  induction s as [|c r IH]; simpl; [reflexivity|].
  intros H. apply andb_true_iff in H. destruct H as [Hc Hr].
  rewrite (IH Hr). unfold kept in Hc. apply negb_true_iff in Hc.
  rewrite (not_stripped_not_space _ Hc). destruct r; reflexivity.
Qed.

Lemma trim_fixed (s : string) : JsString.forallb kept s = true -> trim s = s.
Proof.
  intros H. unfold trim. rewrite (trimStart_fixed _ H). apply trimEnd_fixed, H.
Qed.

(** What [normalizeString] computes on a present string, without the
    final [trim], which has nothing left to remove. *)
Lemma normalizeString_Some (s : string) :
  normalizeString (Some s) = filter kept (toLowerCase s).
Proof.
  unfold normalizeString. destruct s as [|c r]; [reflexivity|].
  cbn [truthy negb]. apply trim_fixed, filter_forallb.
Qed.


(** The first piece of [split "/"] is the text before the first slash. *)
Lemma split_head (s : string) :
  exists rest,
    s = (hd "" (split "/" s) ++ rest)%string /\
    no_slash (hd "" (split "/" s)) = true /\
    (rest = "" \/ exists r, rest = String "/" r).
Proof.
  induction s as [|c r IH]; simpl.
  - exists "". auto.
  - destruct (Ascii.eqb c "/") eqn:E.
    + apply Ascii.eqb_eq in E. subst c. exists (String "/" r). simpl. eauto.
    + destruct IH as (rest & Hs & Hn & Hr).
      destruct (split "/" r) as [|x xs] eqn:Sp; simpl in *.
      * exists rest. unfold no_slash. simpl. rewrite E. simpl.
        split; [f_equal; exact Hs | auto].
      * exists rest. unfold no_slash in *. simpl. rewrite E, Hn. simpl.
        split; [f_equal; exact Hs | auto].
Qed.

Lemma normalizeUrl_never_throws (url : option string) :
  exists host, normalizeUrl pf url = Ok host.
Proof.
  destruct url as [u|]; simpl; [|eauto].
  destruct u as [|c r]; simpl; [eauto|].
  unfold new_URL. destruct (URL_hostname pf (String c r)); simpl; eauto.
Qed.

Lemma drop_prefix_Some (p s r : string) :
  drop_prefix p s = Some r -> s = (p ++ r)%string.
Proof.
  revert s. induction p as [|a p IH]; intros s H; simpl in *.
  - injection H as ->. reflexivity.
  - destruct s as [|b s]; [discriminate|].
    destruct (Ascii.eqb a b) eqn:E; [|discriminate].
    apply Ascii.eqb_eq in E. subst b. f_equal. apply IH, H.
Qed.

Lemma drop_prefix_app (p r : string) : drop_prefix p (p ++ r) = Some r.
Proof.
  induction p as [|a p IH]; simpl; [reflexivity|].
  rewrite Ascii.eqb_refl. exact IH.
Qed.

Lemma drop_prefix_None (p s : string) :
  drop_prefix p s = None -> forall r, s <> (p ++ r)%string.
Proof. intros H r ->. rewrite drop_prefix_app in H. discriminate H. Qed.

(** What [/^(https?:\/\/)?(www\.)?/] matches at the start of a string, and
    what [replace] leaves: a scheme when the string starts with one, then
    [www.] when that follows. *)
Lemma strip_scheme_www_parts (l : string) :
  exists scheme www,
    In scheme [""; "http://"; "https://"] /\ In www [""; "www."] /\
    l = (scheme ++ www ++ strip_scheme_www l)%string /\
    (www = "" -> forall r, strip_scheme_www l <> ("www." ++ r)%string) /\
    (scheme = "" -> www = "" ->
     forall r, l <> ("http://" ++ r)%string /\ l <> ("https://" ++ r)%string).
Proof.
  unfold strip_scheme_www, strip_prefix.
  destruct (drop_prefix "https://" l) as [r1|] eqn:E1.
  - apply drop_prefix_Some in E1.
    destruct (drop_prefix "www." r1) as [r2|] eqn:E2.
    + apply drop_prefix_Some in E2. exists "https://", "www.".
      split; [simpl; tauto|]. split; [simpl; tauto|].
      split; [rewrite E1, E2; reflexivity|]. split; discriminate.
    + exists "https://", "".
      split; [simpl; tauto|]. split; [simpl; tauto|].
      split; [exact E1|]. split; [|discriminate].
      intros _. apply drop_prefix_None, E2.
  - destruct (drop_prefix "http://" l) as [r1|] eqn:E3.
    + apply drop_prefix_Some in E3.
      destruct (drop_prefix "www." r1) as [r2|] eqn:E2.
      * apply drop_prefix_Some in E2. exists "http://", "www.".
        split; [simpl; tauto|]. split; [simpl; tauto|].
        split; [rewrite E3, E2; reflexivity|]. split; discriminate.
      * exists "http://", "".
        split; [simpl; tauto|]. split; [simpl; tauto|].
        split; [exact E3|]. split; [|discriminate].
        intros _. apply drop_prefix_None, E2.
    + destruct (drop_prefix "www." l) as [r2|] eqn:E2.
      * apply drop_prefix_Some in E2. exists "", "www.".
        split; [simpl; tauto|]. split; [simpl; tauto|].
        split; [exact E2|]. split; [discriminate|]. intros _ H. discriminate H.
      * exists "", "".
        split; [simpl; tauto|]. split; [simpl; tauto|].
        split; [reflexivity|]. split.
        -- intros _. apply drop_prefix_None, E2.
        -- intros _ _ r. split; apply drop_prefix_None; assumption.
Qed.

Lemma normalizeUrl_catch (u : string) :
  u <> "" -> URL_hostname pf u = None ->
  normalizeUrl pf (Some u) = Ok (hd "" (split "/" (strip_scheme_www (toLowerCase u)))).
Proof.
  intros Hu Hnone. destruct u as [|c r]; [congruence|].
  unfold normalizeUrl, new_URL. cbn [truthy negb]. rewrite Hnone. reflexivity.
Qed.

(** C8: [normalizeUrl] maps "https://www.Example.com/path" to "example.com"
    (the platform's parser giving the host "www.example.com") and "not a url",
    which the parser rejects, to itself; it throws on no input; an absent or
    empty input gives the empty string.  A rejected input is lower-cased, a
    leading [http://] or [https://] and then a leading [www.] are taken off,
    each when it is there, and the result is what is left up to its first
    slash. *)
Theorem normalizeUrl_examples_total :
  URL_hostname pf "https://www.Example.com/path" = Some "www.example.com" ->
  URL_hostname pf "not a url" = None ->
  normalizeUrl pf (Some "https://www.Example.com/path") = Ok "example.com" /\
  normalizeUrl pf (Some "not a url") = Ok "not a url" /\
  (forall url, exists host, normalizeUrl pf url = Ok host) /\
  normalizeUrl pf None = Ok "" /\
  normalizeUrl pf (Some "") = Ok "" /\
  (forall u, u <> "" -> URL_hostname pf u = None ->
     exists scheme www host tail,
       In scheme [""; "http://"; "https://"] /\ In www [""; "www."] /\
       toLowerCase u = (scheme ++ www ++ host ++ tail)%string /\
       (www = "" -> forall r, (host ++ tail)%string <> ("www." ++ r)%string) /\
       (scheme = "" -> www = "" ->
        forall r, (host ++ tail)%string <> ("http://" ++ r)%string /\
                  (host ++ tail)%string <> ("https://" ++ r)%string) /\
       no_slash host = true /\
       (tail = "" \/ exists r, tail = String "/" r) /\
       normalizeUrl pf (Some u) = Ok host).
Proof.
  intros Hparsed Hrejected.
  split; [|split; [|split; [|split; [|split]]]].
  - unfold normalizeUrl, new_URL. cbn [truthy negb]. rewrite Hparsed. reflexivity.
  - unfold normalizeUrl, new_URL. cbn [truthy negb]. rewrite Hrejected. reflexivity.
  - apply normalizeUrl_never_throws.
  - reflexivity.
  - reflexivity.
  - intros u Hu Hnone.
    destruct (strip_scheme_www_parts (toLowerCase u))
      as (scheme & www & Hs & Hw & Hl & Hmw & Hms).
    destruct (split_head (strip_scheme_www (toLowerCase u))) as (tail & Ht & Hn & Hr).
    exists scheme, www, (hd "" (split "/" (strip_scheme_www (toLowerCase u)))), tail.
    rewrite <- Ht.
    split; [exact Hs|]. split; [exact Hw|]. split; [exact Hl|].
    split; [exact Hmw|]. split.
    { intros H1 H2 r. specialize (Hms H1 H2 r). subst scheme www.
      simpl in Hl. rewrite <- Hl. exact Hms. }
    split; [exact Hn|]. split; [exact Hr|].
    apply normalizeUrl_catch; assumption.
Qed.

End NormalizerFacts.

Lemma normalizeUrl_examples_total_witness :
  normalizeUrl scenario_platform (Some "https://www.Example.com/path") = Ok "example.com" /\
  normalizeUrl scenario_platform (Some "not a url") = Ok "not a url" /\
  normalizeUrl scenario_platform (Some "HTTPS://WWW.Bad Host.com/Path") = Ok "bad host.com" /\
  exists scheme www host tail,
    toLowerCase "HTTPS://WWW.Bad Host.com/Path" = (scheme ++ www ++ host ++ tail)%string /\
    scheme <> "" /\ www <> "" /\
    normalizeUrl scenario_platform (Some "HTTPS://WWW.Bad Host.com/Path") = Ok host.
Proof.
  pose proof (normalizeUrl_examples_total scenario_platform eq_refl eq_refl) as H.
  split; [apply H|]. split; [apply H|]. split; [reflexivity|].
  destruct H as (_ & _ & _ & _ & _ & H).
  destruct (H "HTTPS://WWW.Bad Host.com/Path") as
    (scheme & www & host & tail & Hs & Hw & Hl & Hmw & Hms & _ & _ & Hn);
    [discriminate|reflexivity|].
  exists scheme, www, host, tail. split; [exact Hl|].
  split.
  - intros ->. destruct Hw as [<-|[<-|[]]].
    + destruct (Hms eq_refl eq_refl "www.bad host.com/path") as [_ Hc].
      apply Hc. simpl in Hl. symmetry. exact Hl.
    + discriminate Hl.
  - split; [|exact Hn]. intros ->.
    destruct Hs as [<-|[<-|[<-|[]]]].
    + destruct (Hms eq_refl eq_refl "www.bad host.com/path") as [_ Hc].
      apply Hc. simpl in Hl. symmetry. exact Hl.
    + discriminate Hl.
    + apply (Hmw eq_refl "bad host.com/path"). simpl in Hl. injection Hl. auto.
Defined.

(* ================================================================= *)
(** ** The normalizer on every string *)

Lemma latin1_widen_string (s : string) : latin1 (widen s).
Proof.
  induction s as [|c r IH]; simpl; constructor; [apply N_ascii_bounded|exact IH].
Qed.

Lemma latin1_widen (l : list N) : latin1 l -> exists s, l = widen s.
Proof.
  induction 1 as [|c r Hc _ (s & ->)]; [exists ""; reflexivity|].
  exists (String (ascii_of_N c) s). simpl. unfold code.
  rewrite (N_ascii_embedding _ Hc). reflexivity.
Qed.

Lemma widen_app (s t : string) : widen (s ++ t) = widen s ++ widen t.
Proof. induction s as [|c r IH]; simpl; [reflexivity|]. rewrite IH. reflexivity. Qed.


Lemma not_high_surrogate (c : N) : (c < 256)%N -> is_high_surrogate c = false.
Proof.
  intros H. unfold is_high_surrogate, in_range16.
  apply andb_false_iff. left. apply N.leb_gt. lia.
Qed.

Lemma StringToCodePoints_widen (s : string) : StringToCodePoints (widen s) = widen s.
Proof.
  induction s as [|c r IH]; [reflexivity|].
  cbn [widen StringToCodePoints]. destruct (widen r) as [|d r'] eqn:E; [reflexivity|].
  pose proof (N_ascii_bounded c) as Hc. fold (code c) in Hc.
  rewrite (not_high_surrogate Hc). cbn [andb]. rewrite IH. reflexivity.
Qed.

Lemma CodePointsToString_widen (s : string) : CodePointsToString (widen s) = widen s.
Proof.
  unfold CodePointsToString. induction s as [|c r IH]; [reflexivity|].
  cbn [widen flat_map]. rewrite IH. unfold UTF16EncodeCodePoint.
  pose proof (N_ascii_bounded c) as Hc. fold (code c) in Hc.
  replace (N.leb (code c) 0xFFFF) with true; [reflexivity|].
  symmetry. apply N.leb_le. lia.
Qed.

Lemma toLowerCase16_widen (u : Unicode) (s : string) :
  latin1_casing u -> toLowerCase16 u (widen s) = widen (toLowerCase s).
Proof.
  intros Hu. unfold toLowerCase16.
  rewrite StringToCodePoints_widen, Hu. apply CodePointsToString_widen.
Qed.

Lemma is_space16_code (c : ascii) : is_space16 (code c) = is_space c.
Proof. destruct c as [[] [] [] [] [] [] [] []]; reflexivity. Qed.

Lemma stripped16_code (c : ascii) : stripped16 (code c) = stripped c.
Proof. destruct c as [[] [] [] [] [] [] [] []]; reflexivity. Qed.

Lemma filter_kept16_widen (s : string) :
  List.filter kept16 (widen s) = widen (filter kept s).
Proof.
  induction s as [|c r IH]; [reflexivity|].
  cbn [widen List.filter filter].
  change (kept16 (code c)) with (negb (stripped16 (code c))).
  change (kept c) with (negb (stripped c)).
  rewrite stripped16_code. destruct (stripped c); cbn [negb widen]; rewrite IH; reflexivity.
Qed.

Lemma forallb_stripped16_widen (s : string) :
  List.forallb stripped16 (widen s) = JsString.forallb stripped s.
Proof.
  induction s as [|c r IH]; [reflexivity|].
  cbn [widen List.forallb JsString.forallb]. rewrite stripped16_code, IH. reflexivity.
Qed.

Lemma filter_kept16_forallb (l : list N) :
  List.forallb kept16 (List.filter kept16 l) = true.
Proof.
  induction l as [|c r IH]; [reflexivity|]. cbn [List.filter].
  destruct (kept16 c) eqn:E; [|exact IH]. cbn [List.forallb]. rewrite E. exact IH.
Qed.

Lemma kept16_not_space (c : N) : kept16 c = true -> is_space16 c = false.
Proof.
  unfold kept16, stripped16. intros H. apply negb_true_iff, orb_false_iff in H. tauto.
Qed.

Lemma trim16_fixed (l : list N) : List.forallb kept16 l = true -> trim16 l = l.
Proof.
  intros H. unfold trim16.
  assert (Hs : trimStart16 l = l).
  { destruct l as [|c r]; [reflexivity|]. cbn [List.forallb] in H.
    apply andb_true_iff in H. destruct H as [Hc _].
    cbn [trimStart16]. rewrite (kept16_not_space _ Hc). reflexivity. }
  rewrite Hs. clear Hs.
  induction l as [|c r IH]; [reflexivity|].
  cbn [List.forallb] in H. apply andb_true_iff in H. destruct H as [Hc Hr].
  cbn [trimEnd16]. rewrite (IH Hr), (kept16_not_space _ Hc). destruct r; reflexivity.
Qed.

(** What [normalizeString16] computes on a string that is not empty,
    without the final [trim], which has nothing left to remove. *)
Lemma normalizeString16_Some (u : Unicode) (s : list N) :
  s <> [] -> normalizeString16 u (Some s) = List.filter kept16 (toLowerCase16 u s).
Proof.
  intros Hs. destruct s as [|c r]; [congruence|].
  unfold normalizeString16. apply trim16_fixed, filter_kept16_forallb.
Qed.


(** On strings of code units below 256 the two embeddings agree. *)
Lemma normalizeString16_widen (u : Unicode) (s : string) :
  latin1_casing u ->
  normalizeString16 u (Some (widen s)) = widen (normalizeString (Some s)).
Proof.
  intros Hu. destruct s as [|c r]; [reflexivity|].
  rewrite normalizeString16_Some by discriminate.
  rewrite (toLowerCase16_widen _ Hu), filter_kept16_widen, normalizeString_Some.
  reflexivity.
Qed.

Lemma scenario_lower_code (c : ascii) : scenario_lower (code c) = code (lower_char c).
Proof.
  unfold scenario_lower. pose proof (N_ascii_bounded c) as Hc. fold (code c) in Hc.
  replace (N.ltb (code c) 256) with true by (symmetry; apply N.ltb_lt; exact Hc).
  unfold code at 2. rewrite ascii_N_embedding. reflexivity.
Qed.

Lemma scenario_unicode_latin1 : latin1_casing scenario_unicode.
Proof.
  intros s. cbn [scenario_unicode toLowercase].
  induction s as [|c r IH]; [reflexivity|].
  cbn [widen map toLowerCase]. rewrite scenario_lower_code, IH. reflexivity.
Qed.




(* ================================================================= *)
(** ** Running programs: general facts *)

Section ExecFacts.

Variable pf : Platform.
Variable env : Env.

Lemma exec_bind {A B} (m : Prog A) (f : A -> Prog B) (coll : AuthoritativeCollection) :
  exec pf env (bind m f) coll =
  let '(c1, r, t1) := exec pf env m coll in
  match r with
  | Ok a => let '(c2, r2, t2) := exec pf env (f a) c1 in (c2, r2, t1 ++ t2)
  | Thrown e => (c1, Thrown e, t1)
  end.
Proof.
  revert coll. induction m as [a|e|l k IH|c k IH]; intros coll; simpl.
  - destruct (exec pf env (f a) coll) as [[c2 r2] t2]. reflexivity.
  - reflexivity.
  - rewrite IH. destruct (exec pf env k coll) as [[c1 r] t1].
    destruct r as [a|e]; [|reflexivity].
    destruct (exec pf env (f a) c1) as [[c2 r2] t2]. reflexivity.
  - destruct (perform pf env coll c) as [coll1 r]. rewrite IH.
    destruct (exec pf env (k r) coll1) as [[c1 r1] t1].
    destruct r1 as [a|e]; [|reflexivity].
    destruct (exec pf env (f a) c1) as [[c2 r2] t2]. reflexivity.
Qed.

Lemma exec_try_catch_async {A} (m : Prog A) (h : Error -> Prog A)
  (coll : AuthoritativeCollection) :
  exec pf env (try_catch_async m h) coll =
  let '(c1, r, t1) := exec pf env m coll in
  match r with
  | Ok a => (c1, Ok a, t1)
  | Thrown e => let '(c2, r2, t2) := exec pf env (h e) c1 in (c2, r2, t1 ++ t2)
  end.
Proof.
  revert coll. induction m as [a|e|l k IH|c k IH]; intros coll; simpl.
  - reflexivity.
  - destruct (exec pf env (h e) coll) as [[c2 r2] t2]. reflexivity.
  - rewrite IH. destruct (exec pf env k coll) as [[c1 r] t1].
    destruct r as [a|e]; [reflexivity|].
    destruct (exec pf env (h e) c1) as [[c2 r2] t2]. reflexivity.
  - destruct (perform pf env coll c) as [coll1 r]. rewrite IH.
    destruct (exec pf env (k r) coll1) as [[c1 r1] t1].
    destruct r1 as [a|e]; [reflexivity|].
    destruct (exec pf env (h e) c1) as [[c2 r2] t2]. reflexivity.
Qed.

Lemma exec_lift {A} (m : Exc A) (coll : AuthoritativeCollection) :
  exec pf env (lift m) coll = (coll, m, []).
Proof. destruct m; reflexivity. Qed.

(** A run that returns is not touched by the [catch] block. *)
Lemma exec_processBubbleData_returns now job coll coll' res tr :
  exec pf env (processBubbleData_try pf now job) coll = (coll', Ok res, tr) ->
  exec pf env (processBubbleData pf now job) coll = (coll', Ok res, tr).
Proof.
  intros H. unfold processBubbleData. rewrite exec_try_catch_async, H. reflexivity.
Qed.

Lemma truthy_Some (s : string) : s <> "" -> truthy (Some s) = true.
Proof. destruct s; [congruence|reflexivity]. Qed.

Lemma truthy_Some_inv (v : option string) :
  truthy v = true -> exists s, v = Some s /\ s <> "".
Proof.
  destruct v as [[|c r]|]; simpl; try discriminate.
  intros _. exists (String c r). split; [reflexivity|discriminate].
Qed.

Lemma filter_singleton_find {A} (f : A -> bool) (l : list A) (x : A) :
  List.filter f l = [x] -> find f l = Some x.
Proof.
  induction l as [|y r IH]; simpl; [discriminate|].
  destruct (f y); [congruence|auto].
Qed.

End ExecFacts.

(* ================================================================= *)
(** ** A job alone *)

Section Alone.

Variable pf : Platform.
Variable env : Env.

Lemma exec_settle {A} (p : Prog A) coll :
  exec pf env p coll =
  (fst (exec pf env (snd (settle p)) coll),
   fst (settle p) ++ snd (exec pf env (snd (settle p)) coll)).
Proof.
  induction p as [a|e|l k IH|c k IH]; simpl.
  - reflexivity.
  - reflexivity.
  - rewrite IH. destruct (settle k) as [tr q]. simpl.
    destruct (exec pf env q coll) as [[c1 r1] t1]. reflexivity.
  - destruct (perform pf env coll c) as [coll1 r].
    destruct (exec pf env (k r) coll1) as [[c1 r1] t1]. reflexivity.
Qed.

Lemma run_settled {A} (r : Exc A) (m : nat) coll :
  run pf env (repeat 0 m) [settled r] coll = (coll, [settled r], []).
Proof.
  induction m as [|m IH]; simpl; [reflexivity|].
  destruct r as [a|e]; simpl in *; rewrite IH; reflexivity.
Qed.

(** [exec] is [run] for one job given turns enough: the same collection,
    the same settlement, the same calls and log lines. *)
Lemma run_alone {A} (p : Prog A) coll :
  exists n, forall m, n <= m ->
    run pf env (repeat 0 m) [snd (settle p)] coll
    = (fst (fst (exec pf env (snd (settle p)) coll)),
       [settled (snd (fst (exec pf env (snd (settle p)) coll)))],
       map (pair 0) (snd (exec pf env (snd (settle p)) coll))).
Proof.
  revert coll. induction p as [a|e|l k IH|c k IH]; intros coll.
  - exists 0. intros m _. apply (run_settled (Ok a)).
  - exists 0. intros m _. apply (@run_settled A (Thrown e)).
  - simpl. destruct (IH coll) as (n & Hn). exists n.
    destruct (settle k) as [tr q]. exact Hn.
  - cbn [settle snd].
    destruct (IH (snd (perform pf env coll c)) (fst (perform pf env coll c)))
      as (n & Hn).
    exists (S n). intros [|m] Hm; [lia|].
    specialize (Hn m ltac:(lia)).
    cbn [repeat run nth_error]. unfold step. cbn [settle exec].
    destruct (perform pf env coll c) as [coll1 r]. cbn [fst snd] in *.
    rewrite (exec_settle (k r) coll1).
    destruct (settle (k r)) as [tr1 p1]. cbn [fst snd set_nth app] in *.
    rewrite Hn.
    destruct (exec pf env p1 coll1) as [[c1 r1] t1]. cbn [fst snd].
    simpl. rewrite map_app. reflexivity.
Qed.

End Alone.

(* ================================================================= *)
(** ** What a program may call *)

Lemma all_calls_bind {A B} (P : Cmd -> Prop) (m : Prog A) (f : A -> Prog B) :
  all_calls P m -> (forall a, all_calls P (f a)) -> all_calls P (bind m f).
Proof.
  induction m as [a|e|l k IH|c k IH]; simpl; auto.
  intros [Hc Hk] Hf. split; auto.
Qed.

Lemma all_calls_try_catch_async {A} (P : Cmd -> Prop) (m : Prog A) (h : Error -> Prog A) :
  all_calls P m -> (forall e, all_calls P (h e)) -> all_calls P (try_catch_async m h).
Proof.
  induction m as [a|e|l k IH|c k IH]; simpl; auto.
  intros [Hc Hk] Hh. split; auto.
Qed.

Lemma all_calls_lift {A} (P : Cmd -> Prop) (m : Exc A) : all_calls P (lift m).
Proof. destruct m; exact I. Qed.

Lemma all_calls_await (P : Cmd -> Prop) (c : Cmd) : P c -> all_calls P (await c).
Proof. intros H. split; [exact H|]. intros [v|e]; exact I. Qed.

Lemma all_calls_impl {A} (P Q : Cmd -> Prop) (p : Prog A) :
  (forall c, P c -> Q c) -> all_calls P p -> all_calls Q p.
Proof.
  intros HPQ. induction p as [a|e|l k IH|c k IH]; simpl; auto.
  intros [Hc Hk]. split; auto.
Qed.

Section MatcherFacts.

Variable pf : Platform.
Variable env : Env.

(** The matcher calls nothing but the business collection. *)
Lemma matcher_on_business r :
  all_calls (fun c => on_business c = true) (matcher pf r).
Proof.
  unfold matcher. apply all_calls_bind.
  - unfold direct_tier.
    destruct (or_else (Unique_ID_1 r) (Unique_ID r)) as [pin|]; [|exact I].
    destruct (truthy (Some pin)); [|exact I].
    apply all_calls_bind; [apply all_calls_await; reflexivity|].
    intros [d|]; exact I.
  - intros found. unfold fallback_tier.
    destruct (mongo_business_id found); [exact I|].
    apply all_calls_bind; [apply all_calls_lift|]. intros conds.
    destruct (Nat.ltb 0 (List.length conds)); [|exact I].
    apply all_calls_bind; [apply all_calls_lift|]. intros host.
    apply all_calls_bind; [apply all_calls_lift|]. intros re.
    apply all_calls_bind; [apply all_calls_await; reflexivity|].
    intros [|m [|m' ms]]; exact I.
Qed.

(** A program that writes nothing leaves the authoritative collection as it
    found it. *)
Lemma exec_read_only {A} (p : Prog A) coll :
  all_calls (fun c => is_write c = false) p ->
  fst (fst (exec pf env p coll)) = coll.
Proof.
  revert coll. induction p as [a|e|l k IH|c k IH]; intros coll; simpl; auto.
  - intros H. specialize (IH coll H).
    destruct (exec pf env k coll) as [[c1 r1] t1]. exact IH.
  - intros [Hc Hk].
    assert (Hp : fst (perform pf env coll c) = coll)
      by (destruct c; simpl in *; try reflexivity; discriminate).
    destruct (perform pf env coll c) as [coll1 r]. simpl in Hp. subst coll1.
    specialize (IH r coll (Hk r)).
    destruct (exec pf env (k r) coll) as [[c1 r1] t1]. exact IH.
Qed.

Lemma matcher_read_only r : all_calls (fun c => is_write c = false) (matcher pf r).
Proof.
  apply all_calls_impl with (P := fun c => on_business c = true).
  - intros [] H; simpl in *; congruence.
  - apply matcher_on_business.
Qed.

Lemma exec_matcher_coll r coll :
  fst (fst (exec pf env (matcher pf r) coll)) = coll.
Proof. apply exec_read_only, matcher_read_only. Qed.

End MatcherFacts.

(* ================================================================= *)
(** ** Single runs of the processor *)

Section RunFacts.

Variable pf : Platform.
Variable env : Env.

Lemma key_nonempty_test key :
  key_nonempty key ->
  (negb (truthy (Some (website_normalized key)))
   && negb (truthy (Some (address_normalized key))))%bool = false.
Proof.
  intros [H|H]; rewrite (truthy_Some H); simpl; [reflexivity|].
  apply andb_false_r.
Qed.

(** *** The collection *)

Lemma key_eqb_eq k1 k2 : key_eqb k1 k2 = true <-> k1 = k2.
Proof.
  unfold key_eqb. rewrite andb_true_iff, !String.eqb_eq.
  destruct k1, k2; simpl. split.
  - intros [-> ->]. reflexivity.
  - intros H. injection H. auto.
Qed.

Lemma has_key_eq key d : has_key key d = true <-> doc_key d = key.
Proof. apply key_eqb_eq. Qed.

Lemma find_split {A} (f : A -> bool) (l : list A) (x : A) :
  find f l = Some x ->
  exists l1 l2, l = l1 ++ x :: l2 /\ f x = true /\ forall y, In y l1 -> f y = false.
Proof.
  induction l as [|a l IH]; simpl; [discriminate|].
  destruct (f a) eqn:E.
  - intros H. injection H as ->. exists [], l. simpl. tauto.
  - intros H. destruct (IH H) as (l1 & l2 & -> & Hx & Hl1).
    exists (a :: l1), l2. simpl. split; [reflexivity|]. split; [exact Hx|].
    intros y [<-|Hy]; auto.
Qed.

Lemma find_app_first {A} (f : A -> bool) (l1 l2 : list A) (x : A) :
  (forall y, In y l1 -> f y = false) -> f x = true ->
  find f (l1 ++ x :: l2) = Some x.
Proof.
  intros Hl1 Hx. induction l1 as [|a l1 IH]; simpl.
  - rewrite Hx. reflexivity.
  - rewrite (Hl1 a (or_introl eq_refl)). apply IH. intros y Hy. apply Hl1. right. exact Hy.
Qed.

Lemma updateOne_addToSet_at i b l1 d l2 :
  (forall y, In y l1 -> _id y <> i) -> _id d = i ->
  updateOne_addToSet i b (l1 ++ d :: l2) = l1 ++ add_bubble_id b d :: l2.
Proof.
  intros Hl1 Hd. induction l1 as [|a l1 IH]; simpl.
  - rewrite Hd, Nat.eqb_refl. reflexivity.
  - destruct (Nat.eqb (_id a) i) eqn:E.
    + apply Nat.eqb_eq in E. exfalso. apply (Hl1 a); [left; reflexivity|exact E].
    + rewrite IH; [reflexivity|]. intros y Hy. apply Hl1. right. exact Hy.
Qed.

Lemma NoDup_ids_before l1 (d : AuthoritativeDoc) l2 :
  NoDup (map _id (l1 ++ d :: l2)) -> forall y, In y l1 -> _id y <> _id d.
Proof.
  rewrite map_app. simpl. intros H y Hy E.
  apply NoDup_remove_2 in H. apply H. apply in_or_app. left.
  rewrite <- E. apply in_map. exact Hy.
Qed.

(** [$addToSet] is set union with a singleton. *)
Lemma addToSet_In b l x : In x (addToSet b l) <-> x = b \/ In x l.
Proof.
  unfold addToSet. destruct (existsb (String.eqb b) l) eqn:E.
  - split; [auto|]. intros [->|H]; [|exact H].
    apply existsb_exists in E. destruct E as (y & Hy & Hby).
    apply String.eqb_eq in Hby. subst y. exact Hy.
  - rewrite in_app_iff. simpl. intuition.
Qed.

Lemma addToSet_NoDup b l : NoDup l -> NoDup (addToSet b l).
Proof.
  unfold addToSet. destruct (existsb (String.eqb b) l) eqn:E; [auto|].
  intros H. apply NoDup_app; [exact H | repeat constructor; simpl; tauto |].
  intros x Hx [->|[]].
  assert (existsb (String.eqb x) l = true); [|congruence].
  apply existsb_exists. exists x. split; [exact Hx|apply String.eqb_refl].
Qed.

Lemma addToSet_present b l : In b l -> addToSet b l = l.
Proof.
  intros H. unfold addToSet.
  assert (E : existsb (String.eqb b) l = true).
  { apply existsb_exists. exists b. split; [exact H|apply String.eqb_refl]. }
  rewrite E. reflexivity.
Qed.

Lemma add_bubble_id_twice b d : add_bubble_id b (add_bubble_id b d) = add_bubble_id b d.
Proof.
  unfold add_bubble_id. simpl. f_equal. f_equal.
  apply addToSet_present, addToSet_In. left. reflexivity.
Qed.

Lemma exec_await (c : Cmd) coll :
  exec pf env (await c) coll =
  (fst (perform pf env coll c), snd (perform pf env coll c),
   [Called c (rejection (snd (perform pf env coll c)))]).
Proof.
  unfold await. simpl. destruct (perform pf env coll c) as [c1 [v|e]]; reflexivity.
Qed.

Lemma findOne_None_insertOne key coll d :
  findOne key coll = None -> deDuplicationKey d = key ->
  insertOne d coll = Ok (coll ++ [mkDoc (fresh_id coll) d]).
Proof.
  intros Hf Hk. unfold insertOne. rewrite Hk.
  destruct (existsb (has_key key) coll) eqn:E; [|reflexivity].
  apply existsb_exists in E. destruct E as (x & Hin & Hx).
  unfold findOne in Hf. pose proof (find_none _ _ Hf x Hin). congruence.
Qed.

(** A run whose lookup misses: the matcher runs, the document is inserted
    and the matcher's verdict is the outcome. *)
Lemma exec_processBubbleData_miss now job r host coll mm trm :
  let b := bubbleId (data job) in
  let key := mkKey host (normalizeString (full_address_1 r)) in
  let d := newAuthoritativeDoc now b r key mm in
  bubble_api env b = Ok (Some r) ->
  normalizeUrl pf (site_1 r) = Ok host ->
  key_nonempty key ->
  findOne key coll = None ->
  exec pf env (matcher pf r) coll = (coll, Ok mm, trm) ->
  exec pf env (processBubbleData pf now job) coll =
  (coll ++ [mkDoc (fresh_id coll) d],
   Ok (mkResult success (Some (match_type mm)) None b),
   Called (axios_get b) None :: Called (authoritative_findOne key) None
     :: trm ++ [Called (authoritative_insertOne d) None]).
Proof.
  intros b key d Hapi Hhost Hkey Hfind Hm.
  apply exec_processBubbleData_returns.
  unfold processBubbleData_try. fold b.
  rewrite exec_bind, exec_await. cbn [perform fst snd rejection]. rewrite Hapi.
  cbn [rejection].
  rewrite exec_bind, exec_lift, Hhost. fold key.
  rewrite (key_nonempty_test Hkey).
  rewrite exec_bind, exec_await. cbn [perform fst snd rejection]. rewrite Hfind.
  rewrite exec_bind, Hm.
  rewrite exec_bind, exec_await. cbn [perform fst snd rejection].
  fold (newAuthoritativeDoc now b r key mm). fold d.
  rewrite (@findOne_None_insertOne key coll d Hfind eq_refl).
  cbn [fst snd rejection exec app]. reflexivity.
Qed.

(** A run whose lookup hits (lines 81-87). *)
Lemma exec_processBubbleData_hit now job r host coll existing :
  let b := bubbleId (data job) in
  let key := mkKey host (normalizeString (full_address_1 r)) in
  bubble_api env b = Ok (Some r) ->
  normalizeUrl pf (site_1 r) = Ok host ->
  key_nonempty key ->
  findOne key coll = Some existing ->
  exec pf env (processBubbleData pf now job) coll =
  (updateOne_addToSet (_id existing) b coll,
   Ok (mkResult success (Some duplicate) None b),
   [Called (axios_get b) None; Called (authoritative_findOne key) None;
    Called (authoritative_updateOne_addToSet (_id existing) b) None]).
Proof.
  intros b key Hapi Hhost Hkey Hfind.
  apply exec_processBubbleData_returns.
  unfold processBubbleData_try. fold b.
  rewrite exec_bind, exec_await. cbn [perform fst snd rejection]. rewrite Hapi.
  cbn [rejection].
  rewrite exec_bind, exec_lift, Hhost. fold key.
  rewrite (key_nonempty_test Hkey).
  rewrite exec_bind, exec_await. cbn [perform fst snd rejection]. rewrite Hfind.
  rewrite exec_bind, exec_await. cbn [perform fst snd rejection exec app].
  reflexivity.
Qed.

(** C6: when a document with the record's key is stored, the run adds the
    identifier to that document's [bubble_ids] as to a set (the identifier is
    in afterwards, nothing else is, and no entry is repeated), changes
    nothing else, and returns [duplicate]; run again, it returns [duplicate]
    and leaves the collection as it is. *)
Theorem duplicate_merges_idempotently now job r host coll existing :
  let b := bubbleId (data job) in
  let key := mkKey host (normalizeString (full_address_1 r)) in
  let outcome := Ok (mkResult success (Some duplicate) None b) in
  NoDup (map _id coll) ->
  bubble_api env b = Ok (Some r) ->
  normalizeUrl pf (site_1 r) = Ok host ->
  key_nonempty key ->
  findOne key coll = Some existing ->
  exists before after merged ids,
    coll = before ++ existing :: after /\
    merged = mkDoc (_id existing)
               (mkNewDoc (deDuplicationKey (fields existing)) (name (fields existing))
                         (website (fields existing)) (address (fields existing))
                         (phone (fields existing)) (email (fields existing)) ids
                         (spread_mongoMatch (fields existing))
                         (created_at (fields existing)) (updated_at (fields existing))) /\
    (forall x, In x ids <-> x = b \/ In x (bubble_ids (fields existing))) /\
    (NoDup (bubble_ids (fields existing)) -> NoDup ids) /\
    fst (exec pf env (processBubbleData pf now job) coll)
      = (before ++ merged :: after, outcome) /\
    fst (exec pf env (processBubbleData pf now job) (before ++ merged :: after))
      = (before ++ merged :: after, outcome).
Proof.
  intros b key outcome Hids Hapi Hhost Hkey Hfind.
  destruct (find_split _ _ Hfind) as (before & after & Hcoll & Hex & Hbefore).
  exists before, after, (add_bubble_id b existing),
    (addToSet b (bubble_ids (fields existing))).
  split; [exact Hcoll|]. split; [reflexivity|].
  split; [apply addToSet_In|]. split; [apply addToSet_NoDup|].
  assert (Hupd : updateOne_addToSet (_id existing) b coll
                 = before ++ add_bubble_id b existing :: after).
  { rewrite Hcoll. apply updateOne_addToSet_at; [|reflexivity].
    apply NoDup_ids_before with (l2 := after). rewrite <- Hcoll. exact Hids. }
  split.
  - rewrite (@exec_processBubbleData_hit now job r host coll existing Hapi Hhost Hkey Hfind).
    cbn [fst]. fold b. rewrite Hupd. reflexivity.
  - assert (Hfind' : findOne key (before ++ add_bubble_id b existing :: after)
                     = Some (add_bubble_id b existing)).
    { apply find_app_first; [exact Hbefore|exact Hex]. }
    rewrite (@exec_processBubbleData_hit now job r host _ _ Hapi Hhost Hkey Hfind').
    cbn [fst]. fold b.
    rewrite updateOne_addToSet_at.
    + rewrite add_bubble_id_twice. reflexivity.
    + apply (@NoDup_ids_before before existing after). rewrite <- Hcoll. exact Hids.
    + reflexivity.
Qed.

End RunFacts.

(* ================================================================= *)
(** ** The matcher *)

Section MatcherTiers.

Variable pf : Platform.
Variable env : Env.

Lemma exec_direct_tier r coll :
  exec pf env (direct_tier r) coll =
  match or_else (Unique_ID_1 r) (Unique_ID r) with
  | Some pin =>
      if truthy (Some pin) then
        (coll,
         Ok match find (has_pin pin) (business env) with
            | Some d => mkMongoMatch (Some (business_id d)) direct_id
            | None => no_match
            end,
         [Called (business_findOne pin) None])
      else (coll, Ok no_match, [])
  | None => (coll, Ok no_match, [])
  end.
Proof.
  unfold direct_tier.
  destruct (or_else (Unique_ID_1 r) (Unique_ID r)) as [pin|]; [|reflexivity].
  destruct (truthy (Some pin)); [|reflexivity].
  rewrite exec_bind, exec_await. cbn [perform fst snd rejection].
  destruct (find (has_pin pin) (business env)); reflexivity.
Qed.

(** The fallback tier, entered without a match. *)
Lemma exec_fallback_tier r coll :
  exec pf env (fallback_tier pf r no_match) coll =
  match queryConditions pf r with
  | Thrown e => (coll, Thrown e, [])
  | Ok conds =>
      if Nat.ltb 0 (List.length conds) then
        match normalizeUrl pf (site_1 r) with
        | Thrown e => (coll, Thrown e, [])
        | Ok host =>
            match new_RegExp_i pf host with
            | Thrown e => (coll, Thrown e, [])
            | Ok re =>
                (coll,
                 Ok match List.filter (query_holds pf (mkQuery re conds)) (business env) with
                    | [m] => mkMongoMatch (Some (business_id m)) fallback_match
                    | _ => no_match
                    end,
                 [Called (business_find (mkQuery re conds)) None])
            end
        end
      else (coll, Ok no_match, [])
  end.
Proof.
  unfold fallback_tier. cbn [mongo_business_id no_match].
  rewrite exec_bind, exec_lift.
  destruct (queryConditions pf r) as [conds|e]; [|reflexivity].
  destruct (Nat.ltb 0 (List.length conds)); [|reflexivity].
  rewrite exec_bind, exec_lift.
  destruct (normalizeUrl pf (site_1 r)) as [host|e]; [|reflexivity].
  rewrite exec_bind, exec_lift.
  destruct (new_RegExp_i pf host) as [re|e]; [|reflexivity].
  rewrite exec_bind, exec_await. cbn [perform fst snd rejection].
  destruct (List.filter _ _) as [|m [|m' ms]]; reflexivity.
Qed.


(** The fallback tier, entered with a match: nothing is asked. *)
Lemma exec_fallback_tier_found r coll i t :
  exec pf env (fallback_tier pf r (mkMongoMatch (Some i) t)) coll
  = (coll, Ok (mkMongoMatch (Some i) t), []).
Proof. reflexivity. Qed.

(** C5: a record whose legacy identifier ([Unique_ID_1], or [Unique_ID] when
    that one is absent or empty) is the [old_pin_code] of exactly one
    business document is matched as [direct_id] with that document's id, by
    the one [findOne]: no fallback query is made, whatever website, name and
    phone would have matched.  On a lookup miss that is the match type of
    the run and of the document inserted. *)
Theorem direct_id_wins r pin e coll :
  or_else (Unique_ID_1 r) (Unique_ID r) = Some pin ->
  pin <> "" ->
  List.filter (has_pin pin) (business env) = [e] ->
  let verdict := mkMongoMatch (Some (business_id e)) direct_id in
  exec pf env (matcher pf r) coll
    = (coll, Ok verdict, [Called (business_findOne pin) None]) /\
  forall now job host,
    let b := bubbleId (data job) in
    let key := mkKey host (normalizeString (full_address_1 r)) in
    let d := newAuthoritativeDoc now b r key verdict in
    bubble_api env b = Ok (Some r) ->
    normalizeUrl pf (site_1 r) = Ok host ->
    key_nonempty key ->
    findOne key coll = None ->
    exec pf env (processBubbleData pf now job) coll =
    (coll ++ [mkDoc (fresh_id coll) d],
     Ok (mkResult success (Some direct_id) None b),
     [Called (axios_get b) None; Called (authoritative_findOne key) None;
      Called (business_findOne pin) None; Called (authoritative_insertOne d) None]).
Proof.
  intros Hpin Hne Hone verdict.
  assert (Hm : exec pf env (matcher pf r) coll
               = (coll, Ok verdict, [Called (business_findOne pin) None])).
  { unfold matcher. rewrite exec_bind, exec_direct_tier, Hpin.
    rewrite (truthy_Some Hne), (filter_singleton_find _ _ Hone).
    rewrite exec_fallback_tier_found. reflexivity. }
  split; [exact Hm|].
  intros now job host b key d Hapi Hhost Hkey Hfind.
  exact (@exec_processBubbleData_miss pf env now job r host coll verdict _
           Hapi Hhost Hkey Hfind Hm).
Qed.


End MatcherTiers.

(* ================================================================= *)
(** ** Early exits and the shape of what is inserted *)

Lemma all_rets_bind {A B} (Q : A -> Prop) (R : B -> Prop) (m : Prog A) (f : A -> Prog B) :
  all_rets Q m -> (forall a, Q a -> all_rets R (f a)) -> all_rets R (bind m f).
Proof. induction m as [a|e|l k IH|c k IH]; simpl; auto. Qed.

Lemma all_rets_lift {A} (m : Exc A) : all_rets (fun _ => True) (lift m).
Proof. destruct m; exact I. Qed.

Lemma all_rets_await (c : Cmd) : all_rets (fun _ => True) (await c).
Proof. intros [v|e]; exact I. Qed.

Lemma all_calls_bind_rets {A B} (P : Cmd -> Prop) (Q : A -> Prop)
  (m : Prog A) (f : A -> Prog B) :
  all_calls P m -> all_rets Q m -> (forall a, Q a -> all_calls P (f a)) ->
  all_calls P (bind m f).
Proof.
  induction m as [a|e|l k IH|c k IH]; simpl; auto.
  intros [Hc Hk] Hr Hf. split; auto.
Qed.

Lemma verdict_ok_inserted b mm key n w a p e t1 t2 :
  verdict_ok mm -> inserted_ok b (mkNewDoc key n w a p e [b] mm t1 t2).
Proof.
  unfold verdict_ok, inserted_ok. simpl.
  destruct mm as [i t]; simpl. destruct t; intros H; try contradiction;
    (split; [reflexivity|]); split; split; intros H'; try congruence;
    try (destruct H' as [H'|H']; discriminate); auto; try contradiction.
Qed.

Section Shape.

Variable pf : Platform.

Lemma matcher_verdict_ok r : all_rets verdict_ok (matcher pf r).
Proof.
  unfold matcher.
  apply all_rets_bind with (Q := verdict_ok).
  - unfold direct_tier.
    destruct (or_else (Unique_ID_1 r) (Unique_ID r)) as [pin|]; [|reflexivity].
    destruct (truthy (Some pin)); [|reflexivity].
    apply all_rets_bind with (Q := fun _ => True); [apply all_rets_await|].
    intros [d|] _; simpl; [unfold verdict_ok; simpl; discriminate|reflexivity].
  - intros found Hfound. unfold fallback_tier.
    destruct (mongo_business_id found) eqn:E; [exact Hfound|].
    apply all_rets_bind with (Q := fun _ => True); [apply all_rets_lift|].
    intros conds _. destruct (Nat.ltb 0 (List.length conds)); [|exact Hfound].
    apply all_rets_bind with (Q := fun _ => True); [apply all_rets_lift|].
    intros host _.
    apply all_rets_bind with (Q := fun _ => True); [apply all_rets_lift|].
    intros re _.
    apply all_rets_bind with (Q := fun _ => True); [apply all_rets_await|].
    intros [|m [|m' ms]] _; simpl; try exact Hfound.
    unfold verdict_ok; simpl; discriminate.
Qed.

Lemma matcher_no_insert b r : all_calls (insert_ok b) (matcher pf r).
Proof.
  apply all_calls_impl with (P := fun c => on_business c = true).
  - intros [] H; simpl in *; try exact I. discriminate.
  - apply matcher_on_business.
Qed.

(** C10: every document the processor hands to [insertOne], on every path
    and whatever the commands before settled to, has [bubble_ids] equal to
    the one identifier of the job, and a [mongo_business_id] that is present
    exactly when [match_type] is [direct_id] or [fallback_match] and null
    exactly when it is [unmatched]; an accepted insert stores that document
    as it is, at the end of the collection; so every insert named in the
    trace of a run has this shape. *)
Theorem inserted_doc_shape now job :
  let b := bubbleId (data job) in
  all_calls (insert_ok b) (processBubbleData pf now job) /\
  (forall d coll coll', insertOne d coll = Ok coll' ->
     coll' = coll ++ [mkDoc (fresh_id coll) d]) /\
  (forall env coll d rejected,
     In (Called (authoritative_insertOne d) rejected)
        (snd (exec pf env (processBubbleData pf now job) coll)) ->
     inserted_ok b d).
Proof.
  intros b.
  assert (Hall : all_calls (insert_ok b) (processBubbleData pf now job)).
  { unfold processBubbleData.
    apply all_calls_try_catch_async.
    - unfold processBubbleData_try. fold b.
      apply all_calls_bind; [apply all_calls_await; exact I|].
      intros [r|]; [|exact I].
      apply all_calls_bind; [apply all_calls_lift|]. intros host.
      match goal with |- context [if ?c then _ else _] => destruct c end; [exact I|].
      apply all_calls_bind; [apply all_calls_await; exact I|].
      intros [existing|].
      + apply all_calls_bind; [apply all_calls_await; exact I|]. intros _. exact I.
      + apply all_calls_bind_rets with (Q := verdict_ok);
          [apply matcher_no_insert|apply matcher_verdict_ok|].
        intros mm Hmm.
        apply all_calls_bind; [apply all_calls_await|intros _; exact I].
        apply verdict_ok_inserted, Hmm.
    - intros e. unfold processBubbleData_catch.
      destruct e as [| |[s|]|]; try exact I.
      destruct s as [|p]; [exact I|].
      repeat (destruct p as [p|p|]; try exact I). }
  split; [exact Hall|]. split.
  - intros d coll coll'. unfold insertOne.
    destruct (existsb _ _); [discriminate|]. intros H. injection H as <-. reflexivity.
  - intros env coll d rejected.
    generalize (processBubbleData pf now job) Hall. clear Hall.
    intros p. revert coll.
    induction p as [a|e|l k IH|c k IH]; intros coll Hp; simpl.
    + intros [].
    + intros [].
    + specialize (IH coll Hp).
      destruct (exec pf env k coll) as [[c1 r1] t1]. simpl in *.
      intros [H|H]; [discriminate|auto].
    + destruct Hp as [Hc Hk].
      destruct (perform pf env coll c) as [coll1 r].
      specialize (IH r coll1 (Hk r)).
      destruct (exec pf env (k r) coll1) as [[c1 r1] t1]. simpl in *.
      intros [H|H]; [|auto]. injection H as -> _. exact Hc.
Qed.

End Shape.

Section EarlyExit.

Variable pf : Platform.
Variable env : Env.

(** C7: a record whose normalized website and normalized address are both
    empty is answered [skipped] right after the fetch: the run calls nothing
    but the API, logs nothing, and leaves the authoritative collection as it
    was; as a concurrent job it settles in its first turn. *)
Theorem empty_key_skipped now job r coll :
  let b := bubbleId (data job) in
  let outcome := mkResult skipped None (Some skip_reason) b in
  bubble_api env b = Ok (Some r) ->
  normalizeUrl pf (site_1 r) = Ok "" ->
  normalizeString (full_address_1 r) = "" ->
  exec pf env (processBubbleData pf now job) coll
    = (coll, Ok outcome, [Called (axios_get b) None]) /\
  step pf env (processBubbleData pf now job) coll
    = (coll, Ret outcome, [Called (axios_get b) None]).
Proof.
  intros b outcome Hapi Hhost Haddr. split.
  - apply exec_processBubbleData_returns.
    unfold processBubbleData_try. fold b.
    rewrite exec_bind, exec_await. cbn [perform fst snd rejection]. rewrite Hapi.
    cbn [rejection].
    rewrite exec_bind, exec_lift, Hhost, Haddr. reflexivity.
  - unfold processBubbleData, processBubbleData_try. fold b.
    cbn [bind await try_catch_async step settle perform]. rewrite Hapi.
    cbn [bind try_catch_async]. rewrite Hhost, Haddr. reflexivity.
Qed.

End EarlyExit.

Section FallbackGuard.

Variable pf : Platform.
Variable env : Env.

Lemma normalizeUrl_falsy (site : option string) :
  truthy site = false -> normalizeUrl pf site = Ok "".
Proof. destruct site as [[|c s]|]; simpl; intros H; try reflexivity; discriminate. Qed.

Lemma queryConditions_nonempty r conds :
  queryConditions pf r = Ok conds ->
  Nat.ltb 0 (List.length conds) = true ->
  truthy (name_1 r) = true \/
  exists p, phone_1 r = Some p /\ 7 <= String.length (filter is_digit p).
Proof.
  unfold queryConditions.
  destruct (truthy (name_1 r)); [auto|]. cbn [exc_bind].
  destruct (phone_1 r) as [p|]; [|intros H; injection H as <-; discriminate].
  destruct (truthy (Some p)); [|intros H; injection H as <-; discriminate].
  destruct (Nat.ltb 6 (String.length (filter is_digit p))) eqn:E;
    [|intros H; injection H as <-; discriminate].
  intros _ _. right. exists p. split; [reflexivity|].
  apply Nat.ltb_lt in E. exact E.
Qed.

(** The half of the guard the code has: the fallback query is made only for
    a record with a name or with a phone of seven digits or more. *)
Lemma fallback_query_needs_secondary_field r coll q :
  In (Called (business_find q) None) (snd (exec pf env (matcher pf r) coll)) ->
  truthy (name_1 r) = true \/
  exists p, phone_1 r = Some p /\ 7 <= String.length (filter is_digit p).
Proof.
  assert (Hfb : In (Called (business_find q) None)
                   (snd (exec pf env (fallback_tier pf r no_match) coll)) ->
                truthy (name_1 r) = true \/
                exists p, phone_1 r = Some p /\ 7 <= String.length (filter is_digit p)).
  { rewrite exec_fallback_tier.
    destruct (queryConditions pf r) as [conds|e] eqn:Eq; [|intros []].
    destruct (Nat.ltb 0 (List.length conds)) eqn:El; [|intros []].
    intros _. exact (queryConditions_nonempty _ Eq El). }
  unfold matcher. rewrite exec_bind, exec_direct_tier.
  destruct (or_else (Unique_ID_1 r) (Unique_ID r)) as [pin|];
    [destruct (truthy (Some pin));
     [destruct (find (has_pin pin) (business env)) as [d|]|]|].
  - rewrite exec_fallback_tier_found. simpl. intros [H|[]]. discriminate.
  - destruct (exec pf env (fallback_tier pf r no_match) coll) as [[c2 v2] t2].
    simpl in *. intros [H|H]; [discriminate|auto].
  - destruct (exec pf env (fallback_tier pf r no_match) coll) as [[c2 v2] t2].
    simpl in *. auto.
  - destruct (exec pf env (fallback_tier pf r no_match) coll) as [[c2 v2] t2].
    simpl in *. auto.
Qed.

(** C4, where the code departs from it: a record with no website, an
    address, a name and no legacy identifier, met for the first time, makes
    the fallback query all the same; the website pattern of the query is the
    empty expression. *)
Theorem fallback_query_without_website now job r coll :
  let b := bubbleId (data job) in
  let key := mkKey "" (normalizeString (full_address_1 r)) in
  let q := mkQuery (mkRegExp "" true)
                   [name_regex (mkRegExp (normalizeString (name_1 r)) true)] in
  bubble_api env b = Ok (Some r) ->
  truthy (site_1 r) = false ->
  normalizeString (full_address_1 r) <> "" ->
  findOne key coll = None ->
  or_else (Unique_ID_1 r) (Unique_ID r) = None ->
  truthy (name_1 r) = true ->
  phone_1 r = None ->
  RegExp_accepts pf (normalizeString (name_1 r)) = true ->
  RegExp_accepts pf "" = true ->
  In (Called (business_find q) None)
     (snd (exec pf env (processBubbleData pf now job) coll)).
Proof.
  intros b key q Hapi Hsite Haddr Hfind Hpin Hname Hphone Hre Hre0.
  pose proof (normalizeUrl_falsy _ Hsite) as Hhost.
  assert (Hm : exec pf env (matcher pf r) coll
               = (coll, Ok (unique_match (List.filter (query_holds pf q) (business env))),
                  [Called (business_find q) None])).
  { unfold matcher. rewrite exec_bind, exec_direct_tier, Hpin.
    rewrite exec_fallback_tier. unfold queryConditions.
    rewrite Hname, Hphone. unfold new_RegExp_i. rewrite Hre. cbn [exc_bind].
    cbn [List.length Nat.ltb Nat.leb]. rewrite Hhost, Hre0. reflexivity. }
  rewrite (@exec_processBubbleData_miss pf env now job r "" coll _ _
             Hapi Hhost (or_intror Haddr) Hfind Hm).
  cbn [snd]. right. right. left. reflexivity.
Qed.

End FallbackGuard.

(* ================================================================= *)
(** ** The scenarios, run *)

Lemma direct_id_wins_witness :
  exec scenario_platform Scenario.env (matcher scenario_platform Scenario.with_pin) []
  = ([], Ok (mkMongoMatch (Some 7) direct_id), [Called (business_findOne "PIN7") None]).
Proof.
  pose proof (@direct_id_wins scenario_platform Scenario.env Scenario.with_pin
                "PIN7" Scenario.acme [] eq_refl) as H.
  apply H; [discriminate|reflexivity].
Defined.


Lemma duplicate_merges_idempotently_witness :
  exists before after merged ids,
    Scenario.after_shop1 = before ++ mkDoc 1 (newAuthoritativeDoc 0 "shop1"
                               Scenario.corner_shop Scenario.shop_key no_match) :: after /\
    (forall x, In x ids <-> x = "shop2" \/ In x ["shop1"]) /\
    fst (exec scenario_platform Scenario.env (Scenario.process "shop2") Scenario.after_shop1)
    = (before ++ merged :: after,
       Ok (mkResult success (Some duplicate) None "shop2")).
Proof.
  destruct (@duplicate_merges_idempotently scenario_platform Scenario.env 0
              (Scenario.job "shop2") Scenario.corner_shop_again "" Scenario.after_shop1
              (mkDoc 1 (newAuthoritativeDoc 0 "shop1" Scenario.corner_shop
                                           Scenario.shop_key no_match)))
    as (before & after & merged & ids & H1 & H2 & H3 & H4 & H5 & H6).
  - repeat constructor. simpl. tauto.
  - reflexivity.
  - reflexivity.
  - right. simpl. discriminate.
  - reflexivity.
  - exists before, after, merged, ids. auto.
Defined.

Lemma empty_key_skipped_witness :
  exec scenario_platform Scenario.env (Scenario.process "blank") Scenario.after_shop1
  = (Scenario.after_shop1,
     Ok (mkResult skipped None (Some skip_reason) "blank"),
     [Called (axios_get "blank") None]).
Proof.
  apply (@empty_key_skipped scenario_platform Scenario.env 0 (Scenario.job "blank")
           Scenario.blank Scenario.after_shop1); reflexivity.
Defined.

Lemma fallback_query_without_website_witness :
  truthy (site_1 Scenario.no_website) = false /\
  In (Called (business_find
                (mkQuery (mkRegExp "" true) [name_regex (mkRegExp "acme" true)])) None)
     (snd (exec scenario_platform Scenario.env (Scenario.process "nosite") [])).
Proof.
  split; [reflexivity|].
  apply (@fallback_query_without_website scenario_platform Scenario.env 0
           (Scenario.job "nosite") Scenario.no_website []);
    solve [reflexivity | discriminate].
Defined.

(* ================================================================= *)
(** ** The collection under concurrent jobs *)

Lemma extends_refl coll : extends coll coll.
Proof. intros d Hd. exists d. repeat split; auto. apply incl_refl. Qed.

Lemma extends_trans c1 c2 c3 : extends c1 c2 -> extends c2 c3 -> extends c1 c3.
Proof.
  intros H12 H23 d Hd.
  destruct (H12 d Hd) as (d2 & Hd2 & Hi2 & Hk2 & Hb2).
  destruct (H23 d2 Hd2) as (d3 & Hd3 & Hi3 & Hk3 & Hb3).
  exists d3. repeat split; try congruence.
  eapply incl_tran; eauto.
Qed.

Lemma linked_extends key b coll coll' :
  linked key b coll -> extends coll coll' -> linked key b coll'.
Proof.
  intros (d & Hd & Hk & Hb) Hext.
  destruct (Hext d Hd) as (d' & Hd' & _ & Hk' & Hb').
  exists d'. repeat split; [exact Hd'|congruence|auto].
Qed.

Lemma updateOne_addToSet_keys i b coll :
  map doc_key (updateOne_addToSet i b coll) = map doc_key coll.
Proof.
  induction coll as [|d rest IH]; simpl; [reflexivity|].
  destruct (Nat.eqb (_id d) i); simpl; [reflexivity|]. rewrite IH. reflexivity.
Qed.

Lemma updateOne_addToSet_ids i b coll :
  map _id (updateOne_addToSet i b coll) = map _id coll.
Proof.
  induction coll as [|d rest IH]; simpl; [reflexivity|].
  destruct (Nat.eqb (_id d) i); simpl; [reflexivity|]. rewrite IH. reflexivity.
Qed.

Lemma updateOne_addToSet_In i b coll d :
  In d coll ->
  In d (updateOne_addToSet i b coll) \/ In (add_bubble_id b d) (updateOne_addToSet i b coll).
Proof.
  induction coll as [|x rest IH]; simpl; [tauto|].
  destruct (Nat.eqb (_id x) i); simpl.
  - intros [->|H]; auto.
  - intros [->|H]; [auto|]. destruct (IH H); auto.
Qed.

Lemma updateOne_addToSet_extends i b coll : extends coll (updateOne_addToSet i b coll).
Proof.
  intros d Hd. destruct (updateOne_addToSet_In i b _ _ Hd) as [H|H].
  - exists d. repeat split; auto. apply incl_refl.
  - exists (add_bubble_id b d). repeat split; [exact H|].
    simpl. intros x Hx. apply addToSet_In. right. exact Hx.
Qed.

Lemma fresh_id_new coll : ~ In (fresh_id coll) (map _id coll).
Proof.
  unfold fresh_id. intros H.
  assert (Hle : Forall (fun k => k <= list_max (map _id coll)) (map _id coll))
    by (apply list_max_le; apply Nat.le_refl).
  rewrite Forall_forall in Hle. specialize (Hle _ H). lia.
Qed.

Lemma NoDup_snoc {A} (l : list A) (x : A) : NoDup l -> ~ In x l -> NoDup (l ++ [x]).
Proof.
  intros Hl Hx. apply NoDup_app; [exact Hl|repeat constructor; simpl; tauto|].
  intros y Hy [<-|[]]. exact (Hx Hy).
Qed.

Lemma insertOne_Ok d coll coll' :
  insertOne d coll = Ok coll' ->
  coll' = coll ++ [mkDoc (fresh_id coll) d] /\ ~ In (deDuplicationKey d) (map doc_key coll).
Proof.
  unfold insertOne. destruct (existsb (has_key (deDuplicationKey d)) coll) eqn:E;
    [discriminate|].
  intros H. injection H as <-. split; [reflexivity|].
  intros Hin. apply in_map_iff in Hin. destruct Hin as (x & Hx & Hin).
  assert (existsb (has_key (deDuplicationKey d)) coll = true); [|congruence].
  apply existsb_exists. exists x. split; [exact Hin|]. apply has_key_eq. exact Hx.
Qed.

(** A rejected insert means the key is taken. *)
Lemma insertOne_Thrown d coll e :
  insertOne d coll = Thrown e ->
  e = E11000 /\ exists existing, findOne (deDuplicationKey d) coll = Some existing.
Proof.
  unfold insertOne, findOne.
  destruct (existsb (has_key (deDuplicationKey d)) coll) eqn:E; [|discriminate].
  intros H. injection H as <-. split; [reflexivity|].
  apply existsb_exists in E. destruct E as (x & Hx & Hk).
  destruct (find (has_key (deDuplicationKey d)) coll) as [y|] eqn:F; [eauto|].
  pose proof (find_none _ _ F x Hx). congruence.
Qed.

Section Invariants.

Variable pf : Platform.
Variable env : Env.

Lemma perform_unique_keys coll c :
  unique_keys coll -> unique_keys (fst (perform pf env coll c)).
Proof.
  unfold unique_keys. intros H. destruct c; simpl; auto.
  - rewrite updateOne_addToSet_keys. exact H.
  - destruct (insertOne d coll) as [coll'|e] eqn:E; simpl; [|exact H].
    apply insertOne_Ok in E. destruct E as [-> Hnew].
    rewrite map_app. simpl. apply NoDup_snoc; assumption.
Qed.

Lemma perform_unique_ids coll c :
  unique_ids coll -> unique_ids (fst (perform pf env coll c)).
Proof.
  unfold unique_ids. intros H. destruct c; simpl; auto.
  - rewrite updateOne_addToSet_ids. exact H.
  - destruct (insertOne d coll) as [coll'|e] eqn:E; simpl; [|exact H].
    apply insertOne_Ok in E. destruct E as [-> _].
    rewrite map_app. simpl. apply NoDup_snoc; [exact H|apply fresh_id_new].
Qed.

Lemma perform_extends coll c : extends coll (fst (perform pf env coll c)).
Proof.
  destruct c; simpl; try apply extends_refl.
  - apply updateOne_addToSet_extends.
  - destruct (insertOne d coll) as [coll'|e] eqn:E; simpl; [|apply extends_refl].
    apply insertOne_Ok in E. destruct E as [-> _].
    intros x Hx. exists x. repeat split; [|apply incl_refl].
    apply in_or_app. left. exact Hx.
Qed.

(** What a turn is made of. *)
Lemma step_spec {A} (p : Prog A) coll :
  (fst (fst (step pf env p coll)) = coll /\
   snd (fst (step pf env p coll)) = snd (settle p) /\
   forall c k, snd (settle p) <> Await c k) \/
  exists c k,
    snd (settle p) = Await c k /\
    fst (fst (step pf env p coll)) = fst (perform pf env coll c) /\
    snd (fst (step pf env p coll)) = snd (settle (k (snd (perform pf env coll c)))).
Proof.
  unfold step. destruct (settle p) as [tr0 p0]. simpl.
  destruct p0 as [a|e|l k|c k]; try (left; repeat split; intros; discriminate).
  right. exists c, k. destruct (perform pf env coll c) as [coll' r]. simpl.
  destruct (settle (k r)) as [tr1 p1]. simpl. auto.
Qed.

Lemma step_preserves (I : AuthoritativeCollection -> Prop) {A} (p : Prog A) coll :
  (forall coll c, I coll -> I (fst (perform pf env coll c))) ->
  I coll -> I (fst (fst (step pf env p coll))).
Proof.
  intros HI H. destruct (step_spec p coll) as [(-> & _)|(c & k & _ & -> & _)]; auto.
Qed.

Lemma step_extends {A} (p : Prog A) coll : extends coll (fst (fst (step pf env p coll))).
Proof.
  destruct (step_spec p coll) as [(-> & _)|(c & k & _ & -> & _)].
  - apply extends_refl.
  - apply perform_extends.
Qed.

(** Whatever the jobs are and however their turns are ordered, a
    collection with unique keys (and ids) keeps them. *)
Lemma run_preserves (I : AuthoritativeCollection -> Prop) {A}
  (sched : list nat) (jobs : list (Prog A)) coll :
  (forall coll c, I coll -> I (fst (perform pf env coll c))) ->
  I coll -> I (fst (fst (run pf env sched jobs coll))).
Proof.
  intros HI. revert jobs coll.
  induction sched as [|i rest IH]; intros jobs coll H; simpl; [exact H|].
  destruct (nth_error jobs i) as [p|]; [|apply IH, H].
  pose proof (@step_preserves I A p coll HI H) as Hs.
  destruct (step pf env p coll) as [[coll1 p'] tr]. simpl in Hs.
  specialize (IH (set_nth i p' jobs) coll1 Hs).
  destruct (run pf env rest (set_nth i p' jobs) coll1) as [[coll' jobs'] tr'].
  exact IH.
Qed.

End Invariants.

(* ================================================================= *)
(** ** What a job guarantees while others run *)

Section Guarantees.

Variable pf : Platform.
Variable env : Env.

Lemma ensures_extends {A} (Q : A -> AuthoritativeCollection -> Prop) (p : Prog A) coll coll' :
  stable Q -> ensures pf env Q p coll -> extends coll coll' -> ensures pf env Q p coll'.
Proof.
  intros HQ. induction p as [a|e|l k IH|c k IH]; simpl; auto.
  - intros H Hext. eapply HQ; eauto.
  - intros H Hext coll'' Hext' Hids. apply H; [|exact Hids].
    eapply extends_trans; eauto.
Qed.

Lemma ensures_settle {A} (Q : A -> AuthoritativeCollection -> Prop) (p : Prog A) coll :
  ensures pf env Q p coll -> ensures pf env Q (snd (settle p)) coll.
Proof.
  induction p as [a|e|l k IH|c k IH]; simpl; auto.
  intros H. specialize (IH H). destruct (settle k) as [tr q]. exact IH.
Qed.

Lemma ensures_step {A} (Q : A -> AuthoritativeCollection -> Prop) (p : Prog A) coll :
  unique_ids coll -> ensures pf env Q p coll ->
  ensures pf env Q (snd (fst (step pf env p coll))) (fst (fst (step pf env p coll))).
Proof.
  intros Hids H. apply ensures_settle in H.
  destruct (step_spec pf env p coll) as [(-> & -> & _)|(c & k & Hp & -> & ->)];
    [exact H|].
  rewrite Hp in H. simpl in H.
  apply ensures_settle. apply H; [apply extends_refl|exact Hids].
Qed.

(** Through a stretch that only reads, under the [catch] block. *)
Lemma ensures_try_bind {A B} (Q : B -> AuthoritativeCollection -> Prop)
  (m : Prog A) (f : A -> Prog B) (h : Error -> Prog B) coll :
  all_calls (fun c => is_write c = false) m ->
  (forall a coll', extends coll coll' -> ensures pf env Q (try_catch_async (f a) h) coll') ->
  (forall e coll', ensures pf env Q (h e) coll') ->
  ensures pf env Q (try_catch_async (bind m f) h) coll.
Proof.
  intros Hm Hf Hh. revert coll Hm Hf.
  induction m as [a|e|l k IH|c k IH]; intros coll Hm Hf; simpl.
  - apply Hf, extends_refl.
  - apply Hh.
  - apply IH; assumption.
  - destruct Hm as [Hc Hk]. intros coll' Hext Hids.
    assert (Hp : fst (perform pf env coll' c) = coll')
      by (destruct c; simpl in *; try reflexivity; discriminate).
    rewrite Hp. apply IH; [apply Hk|].
    intros a coll'' Hext'. apply Hf. eapply extends_trans; eauto.
Qed.

(** The first document with an [_id] is the only one, so an update by [_id]
    reaches the document that was found, wherever the collection went since. *)
Lemma updateOne_addToSet_linked coll d b :
  unique_ids coll -> In d coll ->
  linked (doc_key d) b (updateOne_addToSet (_id d) b coll).
Proof.
  unfold unique_ids. induction coll as [|x rest IH]; simpl; [tauto|].
  intros Hnd Hin. inversion Hnd as [|? ? Hx Hrest]; subst.
  destruct (Nat.eqb (_id x) (_id d)) eqn:E.
  - apply Nat.eqb_eq in E.
    assert (x = d) as ->.
    { destruct Hin as [H|H]; [exact H|]. exfalso. apply Hx. rewrite E.
      apply in_map. exact H. }
    exists (add_bubble_id b d). split; [left; reflexivity|]. split; [reflexivity|].
    simpl. apply addToSet_In. left. reflexivity.
  - destruct Hin as [->|Hin]; [rewrite Nat.eqb_refl in E; discriminate|].
    destruct (IH Hrest Hin) as (d' & Hd' & Hk & Hb).
    exists d'. split; [right; exact Hd'|auto].
Qed.

Lemma found_then_updated key coll coll' existing b :
  findOne key coll = Some existing ->
  extends coll coll' -> unique_ids coll' ->
  linked key b (updateOne_addToSet (_id existing) b coll').
Proof.
  intros Hfind Hext Hids.
  apply find_some in Hfind. destruct Hfind as [Hin Hk]. apply has_key_eq in Hk.
  destruct (Hext _ Hin) as (d' & Hd' & Hi & Hk' & _).
  rewrite <- Hi, <- Hk, <- Hk'. apply updateOne_addToSet_linked; assumption.
Qed.

Lemma success_linked_stable job : stable (success_linked pf env job).
Proof.
  intros res coll coll' H Hext Hs. destruct (H Hs) as (key & Hk & Hl).
  exists key. split; [exact Hk|]. eapply linked_extends; eauto.
Qed.

Lemma catch_ensures (Q : Result -> AuthoritativeCollection -> Prop) job e coll :
  ensures pf env Q (processBubbleData_catch job e) coll.
Proof.
  unfold processBubbleData_catch.
  destruct e as [| |[s|]|]; try exact I.
  destruct s as [|p]; [exact I|].
  repeat (destruct p as [p|p|]; try exact I).
Qed.

Lemma processBubbleData_ensures now job coll :
  ensures pf env (success_linked pf env job) (processBubbleData pf now job) coll.
Proof.
  unfold processBubbleData, processBubbleData_try.
  cbn [bind await try_catch_async ensures].
  intros coll1 _ _. cbn [perform fst snd].
  destruct (bubble_api env (bubbleId (data job))) as [[r|]|e] eqn:Hapi;
    cbn [bind try_catch_async ensures];
    [|intros H; discriminate|apply catch_ensures].
  destruct (normalizeUrl pf (site_1 r)) as [host|e] eqn:Hhost;
    cbn [lift bind try_catch_async ensures]; [|apply catch_ensures].
  assert (Hkey : job_key pf env job
                 = Some (mkKey host (normalizeString (full_address_1 r))))
    by (unfold job_key; rewrite Hapi, Hhost; reflexivity).
  set (key := mkKey host (normalizeString (full_address_1 r))) in *.
  match goal with |- context [if ?c then _ else _] => destruct c end;
    cbn [bind await try_catch_async ensures]; [intros H; discriminate|].
  intros coll2 _ _. cbn [perform fst snd].
  destruct (findOne key coll2) as [existing|] eqn:Hfind;
    cbn [bind await try_catch_async ensures].
  - intros coll3 Hext3 Hids3. cbn [perform fst snd bind try_catch_async ensures].
    intros _. exists key. split; [exact Hkey|].
    eapply found_then_updated; eauto.
  - apply ensures_try_bind.
    + apply matcher_read_only.
    + intros mm coll3 _. cbn [bind await try_catch_async ensures].
      intros coll4 _ _. cbn [perform].
      destruct (insertOne _ coll4) as [coll5|e] eqn:Hins;
        cbn [fst snd bind try_catch_async ensures]; [|apply catch_ensures].
      intros _. exists key. split; [exact Hkey|].
      apply insertOne_Ok in Hins. destruct Hins as [-> _].
      eexists. split; [apply in_or_app; right; left; reflexivity|].
      split; [reflexivity|]. left. reflexivity.
    + intros e coll3. apply catch_ensures.
Qed.

End Guarantees.

(* ================================================================= *)
(** ** Concurrent jobs *)

Lemma nth_error_set_nth_same {A} (l : list A) i x y :
  nth_error l i = Some y -> nth_error (set_nth i x l) i = Some x.
Proof.
  revert i. induction l as [|a l IH]; intros [|i]; simpl; try discriminate; auto.
Qed.

Lemma nth_error_set_nth_other {A} (l : list A) i j x :
  i <> j -> nth_error (set_nth i x l) j = nth_error l j.
Proof.
  revert i j. induction l as [|a l IH]; intros [|i] [|j] H; simpl; auto.
  congruence.
Qed.

Lemma unique_key_filter key coll d :
  unique_keys coll -> In d coll -> doc_key d = key ->
  List.filter (has_key key) coll = [d].
Proof.
  unfold unique_keys. induction coll as [|x rest IH]; simpl; [tauto|].
  intros Hnd Hin Hk. inversion Hnd as [|? ? Hx Hrest]; subst.
  destruct (has_key (doc_key d) x) eqn:E.
  - apply has_key_eq in E.
    destruct Hin as [->|Hin].
    + f_equal. destruct (List.filter (has_key (doc_key d)) rest) as [|y ys] eqn:F;
        [reflexivity|].
      assert (Hy : In y (List.filter (has_key (doc_key d)) rest))
        by (rewrite F; left; reflexivity).
      apply filter_In in Hy. destruct Hy as [Hy Hyk]. apply has_key_eq in Hyk.
      exfalso. apply Hx. rewrite <- Hyk. apply in_map. exact Hy.
    + exfalso. apply Hx. rewrite E. apply in_map. exact Hin.
  - destruct Hin as [->|Hin]; [|auto].
    assert (has_key (doc_key d) d = true) by (apply has_key_eq; reflexivity).
    congruence.
Qed.

Section Concurrency.

Variable pf : Platform.
Variable env : Env.

Lemma run_ensures {A} (Qs : nat -> A -> AuthoritativeCollection -> Prop) :
  (forall i, stable (Qs i)) ->
  forall sched (jobs : list (Prog A)) coll,
    unique_ids coll -> jobs_ensure pf env Qs jobs coll ->
    jobs_ensure pf env Qs (snd (fst (run pf env sched jobs coll)))
                (fst (fst (run pf env sched jobs coll))).
Proof.
  intros HQ. induction sched as [|i rest IH]; intros jobs coll Hids Hjobs; simpl;
    [exact Hjobs|].
  destruct (nth_error jobs i) as [p|] eqn:Hp; [|apply IH; assumption].
  pose proof (@ensures_step pf env A (Qs i) p coll Hids (Hjobs i p Hp)) as Hstep.
  pose proof (@step_preserves pf env unique_ids A p coll
                (perform_unique_ids pf env) Hids) as Hids1.
  pose proof (@step_extends pf env A p coll) as Hext.
  destruct (step pf env p coll) as [[coll1 p'] tr]. simpl in Hstep, Hids1, Hext.
  assert (Hjobs1 : jobs_ensure pf env Qs (set_nth i p' jobs) coll1).
  { intros j q Hq. destruct (Nat.eq_dec i j) as [<-|Hij].
    - rewrite (nth_error_set_nth_same _ _ _ Hp) in Hq. injection Hq as <-. exact Hstep.
    - rewrite (nth_error_set_nth_other _ _ Hij) in Hq.
      eapply ensures_extends; [apply HQ|apply Hjobs; exact Hq|exact Hext]. }
  specialize (IH (set_nth i p' jobs) coll1 Hids1 Hjobs1).
  destruct (run pf env rest (set_nth i p' jobs) coll1) as [[coll' jobs'] tr'].
  exact IH.
Qed.

(** C2, as the code has it: whatever jobs run and in whatever order their
    commands are taken, a collection with at most one document per key keeps
    at most one document per key; and when the jobs of two records with the
    same normalized website and address have both returned [success], the
    one document of that key lists both identifiers. *)
Theorem one_record_per_key now1 now2 job1 job2 key sched coll coll' q1 q2 tr :
  unique_keys coll -> unique_ids coll ->
  job_key pf env job1 = Some key -> job_key pf env job2 = Some key ->
  run pf env sched [processBubbleData pf now1 job1; processBubbleData pf now2 job2] coll
    = (coll', [q1; q2], tr) ->
  (forall (jobs : list (Prog Result)) (turns : list nat) c0,
     unique_keys c0 -> unique_keys (fst (fst (run pf env turns jobs c0)))) /\
  unique_keys coll' /\
  (forall res1 res2,
     q1 = Ret res1 -> q2 = Ret res2 ->
     status res1 = success -> status res2 = success ->
     exists d,
       List.filter (has_key key) coll' = [d] /\
       In (bubbleId (data job1)) (bubble_ids (fields d)) /\
       In (bubbleId (data job2)) (bubble_ids (fields d))).
Proof.
  intros Hkeys Hids Hk1 Hk2 Hrun.
  assert (Hkeys' : unique_keys coll').
  { pose proof (@run_preserves pf env unique_keys Result sched
                  [processBubbleData pf now1 job1; processBubbleData pf now2 job2] coll
                  (perform_unique_keys pf env) Hkeys) as H.
    rewrite Hrun in H. exact H. }
  split; [|split; [exact Hkeys'|]].
  { intros jobs turns c0. apply run_preserves, perform_unique_keys. }
  intros res1 res2 -> -> Hs1 Hs2.
  set (Qs := fun i : nat =>
               match i with
               | 0 => success_linked pf env job1
               | _ => success_linked pf env job2
               end).
  assert (HQ : forall i, stable (Qs i))
    by (intros [|i]; simpl; apply success_linked_stable).
  assert (Hstart : jobs_ensure pf env Qs
            [processBubbleData pf now1 job1; processBubbleData pf now2 job2] coll).
  { intros [|[|i]] p Hp; simpl in Hp;
      [injection Hp as <-; apply processBubbleData_ensures
      |injection Hp as <-; apply processBubbleData_ensures
      |destruct i; discriminate]. }
  pose proof (@run_ensures Result Qs HQ sched _ coll Hids Hstart) as Hend.
  rewrite Hrun in Hend. simpl in Hend.
  pose proof (Hend 0 _ eq_refl Hs1) as (k1 & Hjk1 & d1 & Hd1 & Hdk1 & Hb1).
  pose proof (Hend 1 _ eq_refl Hs2) as (k2 & Hjk2 & d2 & Hd2 & Hdk2 & Hb2).
  assert (Hkey1 : doc_key d1 = key) by congruence.
  assert (Hkey2 : doc_key d2 = key) by congruence.
  pose proof (@unique_key_filter key coll' d1 Hkeys' Hd1 Hkey1) as F1.
  pose proof (@unique_key_filter key coll' d2 Hkeys' Hd2 Hkey2) as F2.
  assert (d2 = d1) by congruence. subst d2.
  exists d1. auto.
Qed.

End Concurrency.

(* ================================================================= *)
(** ** A rejected insert *)

Section Rejection.

Variable pf : Platform.
Variable env : Env.

Lemma every_await_settle {A} (P : forall c : Cmd, (Exc (reply c) -> Prog A) -> Prop)
  (p : Prog A) :
  every_await pf env P p -> every_await pf env P (snd (settle p)).
Proof.
  induction p as [a|e|l k IH|c k IH]; simpl; auto.
  intros H. specialize (IH H). destruct (settle k) as [tr q]. exact IH.
Qed.

Lemma every_await_step {A} (P : forall c : Cmd, (Exc (reply c) -> Prog A) -> Prop)
  (p : Prog A) coll :
  every_await pf env P p -> every_await pf env P (snd (fst (step pf env p coll))).
Proof.
  intros H. apply every_await_settle in H.
  destruct (step_spec pf env p coll) as [(_ & -> & _)|(c & k & Hp & _ & ->)];
    [exact H|].
  rewrite Hp in H. destruct H as [_ H]. apply every_await_settle, H.
Qed.

Lemma reachable_every_await {A} (P : forall c : Cmd, (Exc (reply c) -> Prog A) -> Prop)
  (p0 p : Prog A) :
  every_await pf env P p0 -> reachable pf env p0 p -> every_await pf env P p.
Proof.
  intros H0 Hr. induction Hr as [|p coll Hr IH]; [exact H0|].
  apply every_await_step, IH.
Qed.

Lemma every_await_try_bind {A B}
  (P : forall c : Cmd, (Exc (reply c) -> Prog B) -> Prop)
  (m : Prog A) (f : A -> Prog B) (h : Error -> Prog B) :
  (forall c k, is_insert c = false -> P c k) ->
  all_calls (fun c => is_insert c = false) m ->
  (forall a, every_await pf env P (try_catch_async (f a) h)) ->
  (forall e, every_await pf env P (h e)) ->
  every_await pf env P (try_catch_async (bind m f) h).
Proof.
  intros HP Hm Hf Hh.
  induction m as [a|e|l k IH|c k IH]; simpl; auto.
  destruct Hm as [Hc Hk]. split; [apply HP, Hc|].
  intros coll. apply IH, Hk.
Qed.

Lemma key_test_nonempty key :
  (negb (truthy (Some (website_normalized key)))
   && negb (truthy (Some (address_normalized key))))%bool = false ->
  key_nonempty key.
Proof.
  unfold key_nonempty. destruct key as [[|c w] [|c' a]]; simpl; intros H;
    try discriminate; [right|left|left]; discriminate.
Qed.

Lemma catch_every_await (P : forall c : Cmd, (Exc (reply c) -> Prog Result) -> Prop) job e :
  every_await pf env P (processBubbleData_catch job e).
Proof.
  unfold processBubbleData_catch.
  destruct e as [| |[s|]|]; try exact I.
  destruct s as [|p]; [exact I|].
  repeat (destruct p as [p|p|]; try exact I).
Qed.

Lemma processBubbleData_rethrows now job :
  every_await pf env (rethrows pf env job) (processBubbleData pf now job).
Proof.
  unfold processBubbleData, processBubbleData_try.
  cbn [bind await try_catch_async every_await].
  split; [exact I|]. intros coll1. cbn [perform fst snd].
  destruct (bubble_api env (bubbleId (data job))) as [[r|]|e] eqn:Hapi;
    cbn [bind try_catch_async every_await];
    [|exact I|apply catch_every_await].
  destruct (normalizeUrl pf (site_1 r)) as [host|e] eqn:Hhost;
    cbn [lift bind try_catch_async every_await]; [|apply catch_every_await].
  assert (Hkey : job_key pf env job
                 = Some (mkKey host (normalizeString (full_address_1 r))))
    by (unfold job_key; rewrite Hapi, Hhost; reflexivity).
  set (key := mkKey host (normalizeString (full_address_1 r))) in *.
  match goal with |- context [if ?c then _ else _] => destruct c eqn:Htest end;
    cbn [bind await try_catch_async every_await]; [exact I|].
  split; [exact I|]. intros coll2. cbn [perform fst snd].
  destruct (findOne key coll2) as [existing|];
    cbn [bind await try_catch_async every_await].
  - split; [exact I|]. intros coll3. exact I.
  - apply every_await_try_bind.
    + intros [] k H; try exact I. discriminate.
    + apply all_calls_impl with (P := fun c => on_business c = true);
        [|apply matcher_on_business].
      intros [] H; simpl in *; congruence.
    + intros mm. cbn [bind await try_catch_async every_await].
      split.
      * unfold rethrows. cbn [deDuplicationKey].
        split; [exact Hkey|]. split; [apply key_test_nonempty, Htest|].
        reflexivity.
      * intros coll4. cbn [perform].
        destruct (insertOne _ coll4) as [coll5|e];
          cbn [fst snd bind try_catch_async every_await];
          [exact I|apply catch_every_await].
    + intros e. apply catch_every_await.
Qed.

Lemma job_key_Some job key :
  job_key pf env job = Some key ->
  exists r host,
    bubble_api env (bubbleId (data job)) = Ok (Some r) /\
    normalizeUrl pf (site_1 r) = Ok host /\
    key = mkKey host (normalizeString (full_address_1 r)).
Proof.
  unfold job_key.
  destruct (bubble_api env (bubbleId (data job))) as [[r|]|e]; try discriminate.
  destruct (normalizeUrl pf (site_1 r)) as [host|e] eqn:Hhost; try discriminate.
  intros H. injection H as <-. exists r, host. auto.
Qed.

Lemma findOne_extends key coll coll' existing :
  findOne key coll = Some existing -> extends coll coll' ->
  exists existing', findOne key coll' = Some existing'.
Proof.
  intros Hfind Hext. apply find_some in Hfind. destruct Hfind as [Hin Hk].
  destruct (Hext _ Hin) as (d' & Hd' & _ & Hk' & _).
  unfold findOne. destruct (find (has_key key) coll') as [x|] eqn:F; [eauto|].
  pose proof (find_none _ _ F d' Hd') as Hn.
  apply has_key_eq in Hk. rewrite <- Hk' in Hk. apply has_key_eq in Hk. congruence.
Qed.

(** C1, as the code has it: a job whose [insertOne] is rejected for a
    duplicate key makes no update; the rejection passes through the [catch]
    block, which logs it and throws it to the caller, and the collection
    stays as the other writer left it.  Run again, as the queue does with a
    failed job, on the collection as it is by then, the job finds the stored
    document, adds its identifier to it and returns [duplicate]. *)
Theorem rejected_insert_rethrown now job p coll d k :
  let b := bubbleId (data job) in
  reachable pf env (processBubbleData pf now job) p ->
  p = Await (authoritative_insertOne d) k ->
  insertOne d coll = Thrown E11000 ->
  step pf env p coll
    = (coll, Throw E11000,
       [Called (authoritative_insertOne d) (Some E11000);
        Logged (logger_error (id job) b E11000)]) /\
  forall now' coll',
    extends coll coll' -> unique_ids coll' ->
    exists existing,
      findOne (deDuplicationKey d) coll' = Some existing /\
      fst (exec pf env (processBubbleData pf now' job) coll')
        = (updateOne_addToSet (_id existing) b coll',
           Ok (mkResult success (Some duplicate) None b)) /\
      linked (deDuplicationKey d) b (updateOne_addToSet (_id existing) b coll').
Proof.
  intros b Hreach -> Hrej.
  pose proof (reachable_every_await (rethrows pf env job)
                (processBubbleData_rethrows now job) Hreach) as [(Hkey & Hne & Hcatch) _].
  split.
  - unfold step. cbn [settle perform]. rewrite Hrej. cbn [rejection].
    unfold b. rewrite Hcatch. reflexivity.
  - intros now' coll' Hext Hids.
    destruct (insertOne_Thrown _ _ Hrej) as (_ & existing0 & Hfind0).
    destruct (findOne_extends _ Hfind0 Hext) as (existing & Hfind).
    exists existing. split; [exact Hfind|].
    destruct (job_key_Some _ Hkey) as (r & host & Hapi & Hhost & Hk).
    split.
    + rewrite Hk in Hfind, Hne.
      rewrite (@exec_processBubbleData_hit pf env now' job r host coll' existing
                 Hapi Hhost Hne Hfind).
      reflexivity.
    + eapply found_then_updated; [exact Hfind|apply extends_refl|exact Hids].
Qed.

End Rejection.

(* ================================================================= *)
(** ** The insert race *)

(** Against C1 as stated: in the race the insert of job 1 is rejected, and
    the job ends by throwing the rejection; it makes no update, and its
    identifier is in no document. *)
Lemma rejected_insert_not_recovered :
  fst (run scenario_platform Scenario.env race_turns race_jobs [])
  = (Scenario.after_shop1,
     [Ret (mkResult success (Some unmatched) None "shop1"); Throw E11000]) /\
  In (1, Called (authoritative_insertOne shop2_doc) (Some E11000))
     (snd (run scenario_platform Scenario.env race_turns race_jobs [])) /\
  (forall i b, ~ In (1, Called (authoritative_updateOne_addToSet i b) None)
                    (snd (run scenario_platform Scenario.env race_turns race_jobs []))) /\
  ~ linked Scenario.shop_key "shop2" Scenario.after_shop1.
Proof.
  split; [reflexivity|]. split; [vm_compute; tauto|]. split.
  - intros i b H. vm_compute in H.
    repeat (destruct H as [H|H]; [discriminate|]). exact H.
  - intros (d & Hin & _ & Hb).
    destruct Hin as [<-|[]]. destruct Hb as [H|[]]. discriminate.
Qed.

Lemma rejected_insert_rethrown_witness :
  step scenario_platform Scenario.env shop2_before_insert Scenario.after_shop1
  = (Scenario.after_shop1, Throw E11000,
     [Called (authoritative_insertOne shop2_doc) (Some E11000);
      Logged (logger_error "1" "shop2" E11000)]).
Proof.
  refine (proj1 (@rejected_insert_rethrown scenario_platform Scenario.env 0
                   (Scenario.job "shop2") shop2_before_insert Scenario.after_shop1
                   shop2_doc _ _ _ _)).
  - apply reach_turn, reach_turn, reach_start.
  - reflexivity.
  - reflexivity.
Defined.

(** Against C2 as stated: with the turns the other way round job 1 wins the
    race; both jobs have been processed, one document has the key, and it
    lists ["shop2"] only. *)
Lemma race_loses_an_identifier :
  job_key scenario_platform Scenario.env (Scenario.job "shop1") = Some Scenario.shop_key /\
  job_key scenario_platform Scenario.env (Scenario.job "shop2") = Some Scenario.shop_key /\
  fst (run scenario_platform Scenario.env [1; 0; 1; 0; 1; 0] race_jobs [])
  = ([mkDoc 1 shop2_doc],
     [Throw E11000; Ret (mkResult success (Some unmatched) None "shop2")]) /\
  bubble_ids shop2_doc = ["shop2"] /\
  ~ linked Scenario.shop_key "shop1" [mkDoc 1 shop2_doc].
Proof.
  repeat (split; [reflexivity|]).
  intros (d & Hin & _ & Hb).
  destruct Hin as [<-|[]]. destruct Hb as [H|[]]. discriminate.
Qed.

Lemma one_record_per_key_witness :
  exists d,
    List.filter (has_key Scenario.shop_key)
      (fst (fst (run scenario_platform Scenario.env [0; 0; 0; 1; 1; 1] race_jobs [])))
    = [d] /\
    In "shop1" (bubble_ids (fields d)) /\ In "shop2" (bubble_ids (fields d)).
Proof.
  refine (proj2 (proj2 (@one_record_per_key scenario_platform Scenario.env 0 0
                          (Scenario.job "shop1") (Scenario.job "shop2")
                          Scenario.shop_key [0; 0; 0; 1; 1; 1] [] _
                          (Ret (mkResult success (Some unmatched) None "shop1"))
                          (Ret (mkResult success (Some duplicate) None "shop2"))
                          (snd (run scenario_platform Scenario.env [0; 0; 0; 1; 1; 1]
                                    race_jobs []))
                          _ _ eq_refl eq_refl eq_refl))
            _ _ eq_refl eq_refl eq_refl eq_refl).
  - constructor.
  - constructor.
Defined.

(* ================================================================= *)
(** ** Every way a run alone can go *)

Section Outcomes.

Variable pf : Platform.
Variable env : Env.

Lemma exec_catch job e coll :
  exec pf env (processBubbleData_catch job e) coll = (coll, Thrown e, catch_log job e).
Proof.
  unfold processBubbleData_catch, catch_log.
  destruct e as [| |[s|]|]; try reflexivity.
  destruct s as [|p]; [reflexivity|].
  repeat (destruct p as [p|p|]; try reflexivity).
Qed.

Lemma exec_processBubbleData_throws now job coll coll' e tr :
  exec pf env (processBubbleData_try pf now job) coll = (coll', Thrown e, tr) ->
  exec pf env (processBubbleData pf now job) coll = (coll', Thrown e, tr ++ catch_log job e).
Proof.
  intros H. unfold processBubbleData.
  rewrite exec_try_catch_async, H, exec_catch. reflexivity.
Qed.

Lemma job_key_intro job r host :
  bubble_api env (bubbleId (data job)) = Ok (Some r) ->
  normalizeUrl pf (site_1 r) = Ok host ->
  job_key pf env job = Some (mkKey host (normalizeString (full_address_1 r))).
Proof. intros Ha Hh. unfold job_key. rewrite Ha, Hh. reflexivity. Qed.

Lemma exec_processBubbleData_Outcome now job coll :
  Outcome pf env now job coll (exec pf env (processBubbleData pf now job) coll).
Proof.
  set (b := bubbleId (data job)).
  destruct (bubble_api env b) as [[r|]|e] eqn:Hapi.
  - destruct (normalizeUrl_never_throws pf (site_1 r)) as (host & Hhost).
    pose proof (job_key_intro job Hapi Hhost) as Hjk.
    set (key := mkKey host (normalizeString (full_address_1 r))) in *.
    destruct ((negb (truthy (Some (website_normalized key)))
               && negb (truthy (Some (address_normalized key))))%bool) eqn:Htest.
    + assert (host = "" /\ normalizeString (full_address_1 r) = "") as [-> Ha].
      { subst key. simpl in Htest. destruct host; [|discriminate].
        destruct (normalizeString (full_address_1 r)); [auto|discriminate]. }
      assert (Ht : exec pf env (processBubbleData_try pf now job) coll
                   = (coll, Ok (mkResult skipped None (Some skip_reason) b),
                      [Called (axios_get b) None])).
      { unfold processBubbleData_try. fold b.
        rewrite exec_bind, exec_await. cbn [perform fst snd rejection].
        rewrite Hapi. cbn [rejection].
        rewrite exec_bind, exec_lift, Hhost, Ha. reflexivity. }
      rewrite (exec_processBubbleData_returns _ _ _ _ _ Ht).
      apply out_no_key with (r := r); assumption.
    + pose proof (key_test_nonempty _ Htest) as Hne.
      destruct (findOne key coll) as [existing|] eqn:Hfind.
      * rewrite (@exec_processBubbleData_hit pf env now job r host coll existing
                   Hapi Hhost Hne Hfind).
        apply out_merged; assumption.
      * pose proof (exec_matcher_coll pf env r coll) as Hc.
        destruct (exec pf env (matcher pf r) coll) as [[c1 [mm|e]] trm] eqn:Hm;
          simpl in Hc; subst c1.
        -- rewrite (@exec_processBubbleData_miss pf env now job r host coll mm trm
                      Hapi Hhost Hne Hfind Hm).
           apply out_created; assumption.
        -- assert (Ht : exec pf env (processBubbleData_try pf now job) coll
                        = (coll, Thrown e,
                           Called (axios_get b) None
                             :: Called (authoritative_findOne key) None :: trm)).
           { unfold processBubbleData_try. fold b.
             rewrite exec_bind, exec_await. cbn [perform fst snd rejection].
             rewrite Hapi. cbn [rejection].
             rewrite exec_bind, exec_lift, Hhost. fold key. rewrite Htest.
             rewrite exec_bind, exec_await. cbn [perform fst snd rejection].
             rewrite Hfind. rewrite exec_bind, Hm. reflexivity. }
           rewrite (exec_processBubbleData_throws _ _ _ Ht).
           change (Outcome pf env now job coll
                     (coll, Thrown e,
                      Called (axios_get b) None
                        :: Called (authoritative_findOne key) None
                        :: trm ++ catch_log job e)).
           apply out_match_failed with (r := r); assumption.
  - assert (Ht : exec pf env (processBubbleData_try pf now job) coll
                 = (coll,
                    Ok (mkResult not_found None (Some (not_found_reason b)) b),
                    [Called (axios_get b) None;
                     Logged (issueLogger_warn "Record Not Found" b)])).
    { unfold processBubbleData_try. fold b.
      rewrite exec_bind, exec_await. cbn [perform fst snd rejection].
      rewrite Hapi. reflexivity. }
    rewrite (exec_processBubbleData_returns _ _ _ _ _ Ht).
    apply out_record_missing. exact Hapi.
  - assert (Ht : exec pf env (processBubbleData_try pf now job) coll
                 = (coll, Thrown e, [Called (axios_get b) (Some e)])).
    { unfold processBubbleData_try. fold b.
      rewrite exec_bind, exec_await. cbn [perform fst snd rejection].
      rewrite Hapi. reflexivity. }
    rewrite (exec_processBubbleData_throws _ _ _ Ht).
    apply out_fetch_failed. exact Hapi.
Qed.

End Outcomes.

(* ================================================================= *)
(** ** What a run alone leaves behind *)

Lemma updateOne_addToSet_same i b coll :
  Forall2 same_but_ids coll (updateOne_addToSet i b coll).
Proof.
  assert (Hrefl : forall d, same_but_ids d d)
    by (intros d; unfold same_but_ids; repeat split; apply incl_refl).
  assert (Hall : forall l, Forall2 same_but_ids l l)
    by (induction l; constructor; auto).
  induction coll as [|d rest IH]; simpl; [constructor|].
  destruct (Nat.eqb (_id d) i).
  - constructor; [|apply Hall].
    unfold same_but_ids. simpl. repeat split.
    intros x Hx. apply addToSet_In. right. exact Hx.
  - constructor; [apply Hrefl|exact IH].
Qed.

Lemma updateOne_addToSet_length i b coll :
  List.length (updateOne_addToSet i b coll) = List.length coll.
Proof.
  induction coll as [|d rest IH]; simpl; [reflexivity|].
  destruct (Nat.eqb (_id d) i); simpl; congruence.
Qed.


Lemma Forall2_same_but_ids_refl coll : Forall2 same_but_ids coll coll.
Proof.
  induction coll; constructor; auto.
  unfold same_but_ids. repeat split. apply incl_refl.
Qed.

Lemma grown_snoc coll d : grown coll (coll ++ [d]).
Proof. exists coll, [d]. split; [reflexivity|apply Forall2_same_but_ids_refl]. Qed.

Lemma grown_refl coll : grown coll coll.
Proof.
  exists coll, []. split; [symmetry; apply app_nil_r|apply Forall2_same_but_ids_refl].
Qed.

Lemma add_bubble_id_present b d :
  In b (bubble_ids (fields d)) -> add_bubble_id b d = d.
Proof.
  intros H. unfold add_bubble_id. rewrite (addToSet_present _ _ H).
  destruct d as [i f]. destruct f. reflexivity.
Qed.

Section Aftermath.

Variable pf : Platform.
Variable env : Env.

(** What a program returns in a run is among what it can return. *)
Lemma all_rets_exec {A} (Q : A -> Prop) (p : Prog A) :
  all_rets Q p ->
  forall coll coll' a tr, exec pf env p coll = (coll', Ok a, tr) -> Q a.
Proof.
  induction p as [a0|e|l k IH|c k IH]; simpl; intros Hp coll coll' a tr Hex.
  - injection Hex as _ <- _. exact Hp.
  - discriminate.
  - destruct (exec pf env k coll) as [[c1 r1] t1] eqn:E.
    injection Hex as <- -> _. eapply IH; eauto.
  - destruct (perform pf env coll c) as [coll1 rp].
    destruct (exec pf env (k rp) coll1) as [[c1 r1] t1] eqn:E.
    injection Hex as <- -> _. eapply IH; eauto.
Qed.

(** What the matcher throws is a [SyntaxError] of [new RegExp]; it logs
    nothing and writes nothing. *)
Lemma exec_matcher_quiet r coll :
  logged (snd (exec pf env (matcher pf r) coll)) = [] /\
  accepted_writes (snd (exec pf env (matcher pf r) coll)) = [] /\
  forall e, snd (fst (exec pf env (matcher pf r) coll)) = Thrown e -> e = SyntaxError.
Proof.
  assert (Hq : forall e, queryConditions pf r = Thrown e -> e = SyntaxError).
  { intros e. unfold queryConditions, new_RegExp_i.
    destruct (truthy (name_1 r)); cbn [exc_bind].
    - destruct (RegExp_accepts pf (normalizeString (name_1 r))); cbn [exc_bind].
      + destruct (phone_1 r) as [p|]; [|discriminate].
        destruct (truthy (Some p)); [|discriminate].
        destruct (Nat.ltb 6 (String.length (filter is_digit p))); discriminate.
      + intros H. injection H as <-. reflexivity.
    - destruct (phone_1 r) as [p|]; [|discriminate].
      destruct (truthy (Some p)); [|discriminate].
      destruct (Nat.ltb 6 (String.length (filter is_digit p))); discriminate. }
  assert (Hfb : logged (snd (exec pf env (fallback_tier pf r no_match) coll)) = [] /\
                accepted_writes (snd (exec pf env (fallback_tier pf r no_match) coll)) = [] /\
                forall e, snd (fst (exec pf env (fallback_tier pf r no_match) coll))
                          = Thrown e -> e = SyntaxError).
  { rewrite exec_fallback_tier.
    destruct (queryConditions pf r) as [conds|e0] eqn:Eq.
    - destruct (Nat.ltb 0 (List.length conds)); [|repeat split; discriminate].
      destruct (normalizeUrl_never_throws pf (site_1 r)) as (host & ->).
      unfold new_RegExp_i. destruct (RegExp_accepts pf host); simpl.
      + repeat split. discriminate.
      + repeat split. intros e H. injection H as <-. reflexivity.
    - simpl. repeat split. intros e H. injection H as <-.
      exact (Hq _ eq_refl). }
  unfold matcher. rewrite exec_bind, exec_direct_tier.
  destruct (or_else (Unique_ID_1 r) (Unique_ID r)) as [pin|];
    [destruct (truthy (Some pin));
     [destruct (find (has_pin pin) (business env)) as [d|]|]|].
  - rewrite exec_fallback_tier_found. simpl. repeat split. discriminate.
  - destruct (exec pf env (fallback_tier pf r no_match) coll) as [[c2 v2] t2].
    simpl in *. exact Hfb.
  - destruct (exec pf env (fallback_tier pf r no_match) coll) as [[c2 v2] t2].
    simpl in *. exact Hfb.
  - destruct (exec pf env (fallback_tier pf r no_match) coll) as [[c2 v2] t2].
    simpl in *. exact Hfb.
Qed.

Lemma logged_app t1 t2 : logged (t1 ++ t2) = logged t1 ++ logged t2.
Proof.
  induction t1 as [|[c r|l] t1 IH]; simpl; [reflexivity|exact IH|].
  rewrite IH. reflexivity.
Qed.

Lemma accepted_writes_app t1 t2 :
  accepted_writes (t1 ++ t2) = accepted_writes t1 ++ accepted_writes t2.
Proof.
  induction t1 as [|[c [e|]|l] t1 IH]; simpl; auto.
  destruct (is_write c); simpl; [rewrite IH|]; auto.
Qed.

Lemma catch_log_quiet job e : accepted_writes (catch_log job e) = [].
Proof.
  unfold catch_log. destruct e as [| |[s|]|]; try reflexivity.
  destruct s as [|p]; [reflexivity|].
  repeat (destruct p as [p|p|]; try reflexivity).
Qed.

(** X1.  When the API has no record for the identifier (the body has no
    [response]), the run returns [not_found] with the reason "Record not
    found or accessible via API for bubbleId: " and the identifier, writes
    one issue warning, calls nothing but the API and leaves the collection
    as it is. *)
Theorem missing_record_not_found now job coll :
  let b := bubbleId (data job) in
  bubble_api env b = Ok None ->
  exec pf env (processBubbleData pf now job) coll
  = (coll,
     Ok (mkResult not_found None
           (Some ("Record not found or accessible via API for bubbleId: " ++ b)%string) b),
     [Called (axios_get b) None; Logged (issueLogger_warn "Record Not Found" b)]).
Proof.
  intros b Hapi.
  apply exec_processBubbleData_returns.
  unfold processBubbleData_try. fold b.
  rewrite exec_bind, exec_await. cbn [perform fst snd rejection].
  rewrite Hapi. reflexivity.
Qed.

(** X2.  A run that throws has changed nothing: the collection is as before and
    no write was accepted.  What it throws is the error of the API call or
    a [SyntaxError] of [new RegExp]; it is logged once, unless it is a 404
    of the API, which is not logged at all. *)
Theorem failed_run_changes_nothing now job coll coll' e tr :
  exec pf env (processBubbleData pf now job) coll = (coll', Thrown e, tr) ->
  coll' = coll /\
  accepted_writes tr = [] /\
  logged tr = logged (catch_log job e) /\
  (bubble_api env (bubbleId (data job)) = Thrown e \/ e = SyntaxError).
Proof.
  intros Hexec.
  pose proof (exec_processBubbleData_Outcome pf env now job coll) as H.
  rewrite Hexec in H.
  remember (coll', Thrown e, tr) as out eqn:Eo.
  destruct H as [e0 Ha|Ha|r Ha Hh Hn|key ex Hk Hne Hf
                 |r key mm trm Ha Hk Hne Hf Hm|r key e0 trm Ha Hk Hne Hf Hm];
    try discriminate Eo; injection Eo as <- <- <-.
  - split; [reflexivity|]. split; [apply catch_log_quiet|]. auto.
  - destruct (exec_matcher_quiet r coll) as (Hl & Hw & He).
    rewrite Hm in Hl, Hw, He. simpl in Hl, Hw, He.
    split; [reflexivity|]. split; [|split].
    + simpl. rewrite accepted_writes_app, Hw. apply catch_log_quiet.
    + simpl. rewrite logged_app, Hl. reflexivity.
    + right. apply He. reflexivity.
Qed.

(** X3.  A run alone makes at most one write, and makes one exactly when it
    returns [success]: an [updateOne] for a [duplicate], an [insertOne]
    otherwise.  Whatever it does, the documents stored before are still
    there, each in its place and the same but for a longer [bubble_ids]:
    match, copied fields and both dates stay as at the first sighting. *)
Theorem one_write_per_run now job coll :
  let out := exec pf env (processBubbleData pf now job) coll in
  grown coll (fst (fst out)) /\
  List.length (accepted_writes (snd out)) <= 1 /\
  (forall res, snd (fst out) = Ok res ->
     (status res = success <-> accepted_writes (snd out) <> []) /\
     (result_match_type res = Some duplicate <->
      exists i, accepted_writes (snd out)
                = [authoritative_updateOne_addToSet i (bubbleId (data job))]) /\
     (List.length (fst (fst out)) = List.length coll + 1 <->
      status res = success /\ result_match_type res <> Some duplicate)) /\
  (accepted_writes (snd out) = [] -> fst (fst out) = coll).
Proof.
  intros out. subst out.
  pose proof (exec_processBubbleData_Outcome pf env now job coll) as H.
  destruct H as [e Ha|Ha|r Ha Hh Hn|key ex Hk Hne Hf
                 |r key mm trm Ha Hk Hne Hf Hm|r key e trm Ha Hk Hne Hf Hm];
    cbn [fst snd].
  - split; [apply grown_refl|]. cbn [accepted_writes]. rewrite catch_log_quiet. simpl.
    split; [lia|]. split; [discriminate|reflexivity].
  - split; [apply grown_refl|]. simpl. split; [lia|]. split; [|reflexivity].
    intros res Hres. injection Hres as <-. simpl.
    repeat split; try discriminate; try congruence; try lia.
    all: try (intros [i Hi]; discriminate).
    all: try (intros [Hs _]; discriminate).
  - split; [apply grown_refl|]. simpl. split; [lia|]. split; [|reflexivity].
    intros res Hres. injection Hres as <-. simpl.
    repeat split; try discriminate; try congruence; try lia.
    all: try (intros [i Hi]; discriminate).
    all: try (intros [Hs _]; discriminate).
  - split.
    { exists (updateOne_addToSet (_id ex) (bubbleId (data job)) coll), [].
      split; [symmetry; apply app_nil_r|apply updateOne_addToSet_same]. }
    simpl. split; [lia|]. split; [|discriminate].
    intros res Hres. injection Hres as <-. simpl.
    rewrite updateOne_addToSet_length.
    repeat split; try discriminate; try congruence; try lia; eauto.
    all: try (intros [_ Hd]; congruence).
  - destruct (exec_matcher_quiet r coll) as (_ & Hw & _).
    rewrite Hm in Hw. simpl in Hw.
    split; [apply grown_snoc|].
    simpl. rewrite accepted_writes_app, Hw. simpl.
    split; [lia|]. split; [|discriminate].
    intros res Hres. injection Hres as <-. simpl.
    rewrite length_app. simpl.
    assert (Hmt : match_type mm <> duplicate).
    { pose proof (@all_rets_exec _ verdict_ok (matcher pf r) (matcher_verdict_ok pf r)
                    _ _ _ _ Hm) as Hv.
      unfold verdict_ok in Hv. intros E. rewrite E in Hv. exact Hv. }
    repeat split; try discriminate; try congruence; try lia.
    all: try (intros [i Hi]; discriminate).
    all: try (intros _; split; [reflexivity|congruence]).
  - destruct (exec_matcher_quiet r coll) as (_ & Hw & _).
    rewrite Hm in Hw. simpl in Hw.
    split; [apply grown_refl|].
    simpl. rewrite accepted_writes_app, Hw, catch_log_quiet. simpl.
    split; [lia|]. split; [discriminate|reflexivity].
Qed.

Lemma processBubbleData_result_ok now job :
  all_rets (result_ok (bubbleId (data job))) (processBubbleData pf now job).
Proof.
  set (b := bubbleId (data job)).
  unfold processBubbleData.
  assert (Htc : forall (m : Prog Result) h,
             all_rets (result_ok b) m -> (forall e, all_rets (result_ok b) (h e)) ->
             all_rets (result_ok b) (try_catch_async m h)).
  { intros m h. induction m as [a|e|l k IH|c k IH]; simpl; auto. }
  apply Htc.
  - unfold processBubbleData_try. fold b.
    apply all_rets_bind with (Q := fun _ => True); [apply all_rets_await|].
    intros [r|] _; [|simpl; unfold result_ok; simpl; auto].
    apply all_rets_bind with (Q := fun _ => True); [apply all_rets_lift|].
    intros host _.
    match goal with |- context [if ?c then _ else _] => destruct c end;
      [simpl; unfold result_ok; simpl; auto|].
    apply all_rets_bind with (Q := fun _ => True); [apply all_rets_await|].
    intros [existing|] _.
    + apply all_rets_bind with (Q := fun _ => True); [apply all_rets_await|].
      intros _ _. simpl. unfold result_ok. simpl. eauto.
    + apply all_rets_bind with (Q := fun _ => True).
      * generalize (matcher pf r). intros p.
        induction p as [a|e|l k IH|c k IH]; simpl; auto.
      * intros mm _.
        apply all_rets_bind with (Q := fun _ => True); [apply all_rets_await|].
        intros _ _. simpl. unfold result_ok. simpl. eauto.
  - intros e. unfold processBubbleData_catch.
    destruct e as [| |[s|]|]; try exact I.
    destruct s as [|p]; [exact I|].
    repeat (destruct p as [p|p|]; try exact I).
Qed.

(** X4.  Whatever the API and the collections answer, what the processor
    returns carries the identifier of its job; a [success] carries a match
    type and no reason, [skipped] and [not_found] carry their reason and no
    match type. *)
Theorem results_well_formed now job :
  let b := bubbleId (data job) in
  all_rets (result_ok b) (processBubbleData pf now job) /\
  forall coll res,
    snd (fst (exec pf env (processBubbleData pf now job) coll)) = Ok res ->
    result_ok b res.
Proof.
  intros b. split; [apply processBubbleData_result_ok|].
  intros coll res Hres.
  destruct (exec pf env (processBubbleData pf now job) coll) as [[c1 r1] t1] eqn:E.
  simpl in Hres. subst r1.
  exact (@all_rets_exec _ (result_ok b) _ (processBubbleData_result_ok now job)
           _ _ _ _ E).
Qed.

(** X5.  Delivering a job again after it succeeded is harmless: the second run
    returns [duplicate] and leaves the collection exactly as the first run
    left it. *)
Theorem rerun_after_success now now' job coll coll1 res tr :
  unique_ids coll ->
  exec pf env (processBubbleData pf now job) coll = (coll1, Ok res, tr) ->
  status res = success ->
  fst (exec pf env (processBubbleData pf now' job) coll1)
  = (coll1, Ok (mkResult success (Some duplicate) None (bubbleId (data job)))).
Proof.
  intros Hids Hexec Hs.
  pose proof (exec_processBubbleData_Outcome pf env now job coll) as H.
  rewrite Hexec in H.
  remember (coll1, Ok res, tr) as out eqn:Eo.
  destruct H as [e0 Ha|Ha|r Ha Hh Hn|key ex Hk Hne Hf
                 |r key mm trm Ha Hk Hne Hf Hm|r key e0 trm Ha Hk Hne Hf Hm];
    try discriminate Eo; injection Eo as <- <- <-; try discriminate Hs.
  - destruct (job_key_Some _ _ _ Hk) as (r & host & Hapi & Hhost & ->).
    destruct (find_split _ _ Hf) as (before & after & Hcoll & Hex & Hbefore).
    assert (Hno : forall y, In y before -> _id y <> _id ex).
    { apply (@NoDup_ids_before before ex after). rewrite <- Hcoll. exact Hids. }
    assert (Hupd : updateOne_addToSet (_id ex) (bubbleId (data job)) coll
                   = before ++ add_bubble_id (bubbleId (data job)) ex :: after).
    { rewrite Hcoll. apply updateOne_addToSet_at; [exact Hno|reflexivity]. }
    rewrite Hupd.
    assert (Hf' : findOne (mkKey host (normalizeString (full_address_1 r)))
                    (before ++ add_bubble_id (bubbleId (data job)) ex :: after)
                  = Some (add_bubble_id (bubbleId (data job)) ex)).
    { apply find_app_first; [exact Hbefore|exact Hex]. }
    rewrite (@exec_processBubbleData_hit pf env now' job r host _ _ Hapi Hhost Hne Hf').
    cbn [fst]. rewrite updateOne_addToSet_at; [|exact Hno|reflexivity].
    rewrite add_bubble_id_twice. reflexivity.
  - destruct (job_key_Some _ _ _ Hk) as (r' & host & Hapi & Hhost & ->).
    set (d := mkDoc (fresh_id coll)
                    (newAuthoritativeDoc now (bubbleId (data job)) r
                       (mkKey host (normalizeString (full_address_1 r'))) mm)).
    assert (Hf' : findOne (mkKey host (normalizeString (full_address_1 r')))
                    (coll ++ [d]) = Some d).
    { apply find_app_first.
      - intros y Hy. unfold findOne in Hf.
        exact (find_none _ _ Hf y Hy).
      - apply has_key_eq. reflexivity. }
    rewrite (@exec_processBubbleData_hit pf env now' job r' host _ _ Hapi Hhost Hne Hf').
    cbn [fst]. rewrite updateOne_addToSet_at.
    + rewrite add_bubble_id_present; [reflexivity|]. left. reflexivity.
    + intros y Hy E. apply (fresh_id_new coll). simpl in E. rewrite <- E.
      apply in_map. exact Hy.
    + reflexivity.
Qed.

(** X6.  Insert, then look up: once a job has returned [success], a later job
    whose record has the same key returns [duplicate], adds no document,
    and leaves the document of that key listing both identifiers. *)
Theorem later_job_same_key now1 now2 job1 job2 key coll coll1 res1 tr1 :
  unique_ids coll ->
  job_key pf env job1 = Some key ->
  job_key pf env job2 = Some key ->
  exec pf env (processBubbleData pf now1 job1) coll = (coll1, Ok res1, tr1) ->
  status res1 = success ->
  let out2 := exec pf env (processBubbleData pf now2 job2) coll1 in
  snd (fst out2) = Ok (mkResult success (Some duplicate) None (bubbleId (data job2))) /\
  List.length (fst (fst out2)) = List.length coll1 /\
  linked key (bubbleId (data job1)) (fst (fst out2)) /\
  linked key (bubbleId (data job2)) (fst (fst out2)).
Proof.
  intros Hids Hk1 Hk2 Hexec Hs out2. subst out2.
  assert (Hids1 : unique_ids coll1).
  { pose proof (exec_processBubbleData_Outcome pf env now1 job1 coll) as H.
    rewrite Hexec in H.
    remember (coll1, Ok res1, tr1) as out eqn:Eo.
    destruct H; try discriminate Eo; injection Eo as <- <- <-; try exact Hids.
    - unfold unique_ids. rewrite updateOne_addToSet_ids. exact Hids.
    - unfold unique_ids. rewrite map_app. simpl.
      apply NoDup_snoc; [exact Hids|apply fresh_id_new]. }
  assert (Hl1 : linked key (bubbleId (data job1)) coll1 /\ key_nonempty key).
  { pose proof (exec_processBubbleData_Outcome pf env now1 job1 coll) as H.
    rewrite Hexec in H.
    remember (coll1, Ok res1, tr1) as out eqn:Eo.
    destruct H as [e0 Ha|Ha|r Ha Hh Hn|key0 ex Hk Hne Hf
                   |r key0 mm trm Ha Hk Hne Hf Hm|r key0 e0 trm Ha Hk Hne Hf Hm];
      try discriminate Eo; injection Eo as <- <- <-; try discriminate Hs.
    - assert (key0 = key) by congruence. subst key0. split; [|exact Hne].
      eapply found_then_updated; [exact Hf|apply extends_refl|exact Hids].
    - assert (key0 = key) by congruence. subst key0. split; [|exact Hne].
      eexists. split; [apply in_or_app; right; left; reflexivity|].
      split; [reflexivity|]. left. reflexivity. }
  destruct Hl1 as [Hl1 Hne].
  destruct (job_key_Some _ _ _ Hk2) as (r2 & host & Hapi & Hhost & Hkey).
  destruct Hl1 as (d & Hd & Hdk & Hb).
  assert (Hfind : exists existing, findOne key coll1 = Some existing).
  { unfold findOne. destruct (find (has_key key) coll1) as [x|] eqn:F; [eauto|].
    pose proof (find_none _ _ F d Hd) as Hn.
    apply has_key_eq in Hdk. congruence. }
  destruct Hfind as (existing & Hfind).
  rewrite Hkey in Hfind, Hne.
  rewrite (@exec_processBubbleData_hit pf env now2 job2 r2 host coll1 existing
             Hapi Hhost Hne Hfind).
  cbn [fst snd]. split; [reflexivity|]. split; [apply updateOne_addToSet_length|].
  rewrite <- Hkey in Hfind. split.
  - eapply linked_extends; [|apply updateOne_addToSet_extends].
    exists d. auto.
  - eapply found_then_updated; [exact Hfind|apply extends_refl|exact Hids1].
Qed.

End Aftermath.

(* ================================================================= *)
(** ** More on the normalizer *)

Lemma kept_lower_char (c : ascii) : kept (lower_char c) = kept c.
Proof. destruct c as [[] [] [] [] [] [] [] []]; reflexivity. Qed.

Lemma toLowerCase_idempotent (s : string) : toLowerCase (toLowerCase s) = toLowerCase s.
Proof.
  induction s as [|c r IH]; simpl; [reflexivity|].
  rewrite lower_char_idempotent, IH. reflexivity.
Qed.

Lemma toLowerCase_app (s t : string) :
  toLowerCase (s ++ t) = (toLowerCase s ++ toLowerCase t)%string.
Proof. induction s as [|c r IH]; simpl; [reflexivity|]. rewrite IH. reflexivity. Qed.

Lemma filter_app (f : ascii -> bool) (s t : string) :
  filter f (s ++ t) = (filter f s ++ filter f t)%string.
Proof.
  induction s as [|c r IH]; simpl; [reflexivity|].
  destruct (f c); simpl; rewrite IH; reflexivity.
Qed.

Lemma filter_lower (s : string) :
  filter kept (toLowerCase (toLowerCase s)) = filter kept (toLowerCase s).
Proof. rewrite toLowerCase_idempotent. reflexivity. Qed.

Lemma filter_kept_stripped (p : string) :
  JsString.forallb stripped p = true -> filter kept (toLowerCase p) = "".
Proof.
  induction p as [|c r IH]; simpl; [reflexivity|].
  intros H. apply andb_true_iff in H. destruct H as [Hc Hr].
  rewrite kept_lower_char. unfold kept at 1. rewrite Hc. simpl. auto.
Qed.


Lemma normalizeString_app (s t : string) :
  normalizeString (Some (s ++ t)%string)
  = (normalizeString (Some s) ++ normalizeString (Some t))%string.
Proof. rewrite !normalizeString_Some, toLowerCase_app, filter_app. reflexivity. Qed.

Lemma normalizeString_lower (s : string) :
  normalizeString (Some (toLowerCase s)) = normalizeString (Some s).
Proof. rewrite !normalizeString_Some. apply filter_lower. Qed.

Lemma normalizeString_stripped (p : string) :
  JsString.forallb stripped p = true -> normalizeString (Some p) = "".
Proof. intros Hp. rewrite normalizeString_Some. apply filter_kept_stripped, Hp. Qed.


(** X8.  On strings of code units below 256 [normalizeString] works
    character by character: the normal form of a concatenation is the
    concatenation of the normal forms; so lower-casing the input first, or
    putting white space and listed punctuation anywhere in it, changes
    nothing. *)
Theorem normalizeString_insensitive (u : Unicode) :
  latin1_casing u ->
  (forall s t, latin1 s -> latin1 t ->
     normalizeString16 u (Some (s ++ t))
     = normalizeString16 u (Some s) ++ normalizeString16 u (Some t)) /\
  (forall s, latin1 s ->
     normalizeString16 u (Some (toLowerCase16 u s)) = normalizeString16 u (Some s)) /\
  (forall a p b, latin1 a -> latin1 p -> latin1 b ->
     List.forallb stripped16 p = true ->
     normalizeString16 u (Some (a ++ p ++ b)) = normalizeString16 u (Some (a ++ b))).
Proof.
  intros Hu.
  assert (Happ : forall s t : string,
            normalizeString16 u (Some (widen s ++ widen t))
            = normalizeString16 u (Some (widen s)) ++ normalizeString16 u (Some (widen t))).
  { intros s t. rewrite <- widen_app, !(normalizeString16_widen _ Hu).
    rewrite normalizeString_app. apply widen_app. }
  split; [|split].
  - intros s t Hs Ht.
    destruct (latin1_widen Hs) as (s' & ->). destruct (latin1_widen Ht) as (t' & ->).
    apply Happ.
  - intros s Hs. destruct (latin1_widen Hs) as (s' & ->).
    rewrite (toLowerCase16_widen _ Hu), !(normalizeString16_widen _ Hu).
    rewrite normalizeString_lower. reflexivity.
  - intros a p b Ha Hp Hb Hstr.
    destruct (latin1_widen Ha) as (a' & ->). destruct (latin1_widen Hp) as (p' & ->).
    destruct (latin1_widen Hb) as (b' & ->).
    rewrite forallb_stripped16_widen in Hstr.
    rewrite <- !widen_app, !(normalizeString16_widen _ Hu).
    rewrite !normalizeString_app, (normalizeString_stripped _ Hstr). reflexivity.
Qed.

Section UrlFacts.

Variable pf : Platform.

Lemma lower_tail c r : toLowerCase (String c r) = String c r -> toLowerCase r = r.
Proof. simpl. intros H. injection H. auto. Qed.

Lemma drop_prefix_lower p s r :
  drop_prefix p s = Some r -> toLowerCase s = s -> toLowerCase r = r.
Proof.
  revert s. induction p as [|a p IH]; intros s; simpl.
  - intros H. injection H as <-. auto.
  - destruct s as [|b s]; [discriminate|].
    destruct (Ascii.eqb a b); [|discriminate].
    intros H Hs. apply (IH s H). exact (lower_tail Hs).
Qed.

Lemma strip_prefix_lower p s : toLowerCase s = s -> toLowerCase (strip_prefix p s) = strip_prefix p s.
Proof.
  intros Hs. unfold strip_prefix. destruct (drop_prefix p s) as [r|] eqn:E; [|exact Hs].
  exact (drop_prefix_lower _ E Hs).
Qed.

Lemma strip_scheme_www_lower s :
  toLowerCase s = s -> toLowerCase (strip_scheme_www s) = strip_scheme_www s.
Proof.
  intros Hs. unfold strip_scheme_www. apply strip_prefix_lower.
  destruct (drop_prefix "https://" s) as [r|] eqn:E.
  - exact (drop_prefix_lower _ E Hs).
  - apply strip_prefix_lower, Hs.
Qed.

Lemma lower_prefix (h rest : string) :
  toLowerCase (h ++ rest) = (h ++ rest)%string -> toLowerCase h = h.
Proof.
  induction h as [|c r IH]; simpl; [reflexivity|].
  intros H. injection H as Hc Hr. rewrite Hc, (IH Hr). reflexivity.
Qed.

(** X9.  The [catch] branch of [normalizeUrl]: for an address the parser
    rejects the result is in lower case and has no slash, and it is empty
    exactly when the lower-cased address is a scheme ([http://] or
    [https://], or none) and [www.] (or not) with nothing after them or a
    slash next. *)
Theorem normalizeUrl_rejected (u : string) :
  u <> "" -> URL_hostname pf u = None ->
  exists host,
    normalizeUrl pf (Some u) = Ok host /\
    toLowerCase host = host /\
    no_slash host = true /\
    (host = "" <->
     exists scheme www tail,
       In scheme [""; "http://"; "https://"] /\ In www [""; "www."] /\
       toLowerCase u = (scheme ++ www ++ tail)%string /\
       (tail = "" \/ exists r, tail = String "/" r)).
Proof.
  intros Hu Hnone.
  set (t := strip_scheme_www (toLowerCase u)).
  exists (hd "" (split "/" t)).
  split; [apply normalizeUrl_catch; assumption|].
  destruct (split_head t) as (rest & Hs & Hn & Hr).
  assert (Ht : toLowerCase t = t)
    by (apply strip_scheme_www_lower, toLowerCase_idempotent).
  split; [apply lower_prefix with (rest := rest); rewrite <- Hs; exact Ht|].
  split; [exact Hn|].
  split.
  - intros Hh. rewrite Hh in Hs. simpl in Hs.
    destruct (strip_scheme_www_parts (toLowerCase u))
      as (scheme & www & Hsc & Hw & Hl & _).
    exists scheme, www, rest. fold t in Hl. rewrite Hs in Hl. auto.
  - intros (scheme & www & tail & Hsc & Hw & Hl & Htail).
    subst t. rewrite Hl.
    destruct Hsc as [<-|[<-|[<-|[]]]]; destruct Hw as [<-|[<-|[]]];
      destruct Htail as [->|(r & ->)]; reflexivity.
Qed.

End UrlFacts.

(* ================================================================= *)
(** ** The worker's statistics *)

Lemma all_rets_impl {A} (P Q : A -> Prop) (p : Prog A) :
  (forall a, P a -> Q a) -> all_rets P p -> all_rets Q p.
Proof. intros HPQ. induction p as [a|e|l k IH|c k IH]; simpl; auto. Qed.

Lemma all_rets_settle {A} (Q : A -> Prop) (p : Prog A) :
  all_rets Q p -> all_rets Q (snd (settle p)).
Proof.
  induction p as [a|e|l k IH|c k IH]; simpl; auto.
  intros H. specialize (IH H). destruct (settle k) as [tr q]. exact IH.
Qed.





Lemma set_nth_length {A} (l : list A) i x : List.length (set_nth i x l) = List.length l.
Proof. revert i. induction l as [|a l IH]; intros [|i]; simpl; auto. Qed.

Lemma Forall_set_nth {A} (P : A -> Prop) (l : list A) i x :
  Forall P l -> P x -> Forall P (set_nth i x l).
Proof.
  intros Hl Hx. revert i. induction Hl as [|a l Ha Hl IH]; intros [|i]; simpl;
    constructor; auto.
Qed.

Section WorkerFacts.

Variable pf : Platform.
Variable env : Env.

Lemma all_rets_step {A} (Q : A -> Prop) (p : Prog A) coll :
  all_rets Q p -> all_rets Q (snd (fst (step pf env p coll))).
Proof.
  intros H. apply all_rets_settle in H.
  destruct (step_spec pf env p coll) as [(_ & -> & _)|(c & k & Hp & _ & ->)];
    [exact H|].
  rewrite Hp in H. apply all_rets_settle, H.
Qed.



Lemma run_all_rets {A} (Q : A -> Prop) sched (jobs : list (Prog A)) coll :
  Forall (all_rets Q) jobs ->
  Forall (all_rets Q) (snd (fst (run pf env sched jobs coll))).
Proof.
  revert jobs coll. induction sched as [|i rest IH]; intros jobs coll Hjobs; simpl;
    [exact Hjobs|].
  destruct (nth_error jobs i) as [p|] eqn:Hp; [|apply IH, Hjobs].
  assert (Hin : all_rets Q p).
  { rewrite Forall_forall in Hjobs. apply Hjobs. eapply nth_error_In; eauto. }
  pose proof (@all_rets_step A Q p coll Hin) as Hs.
  destruct (step pf env p coll) as [[coll1 p'] tr]. cbn [fst snd] in *.
  specialize (IH (set_nth i p' jobs) coll1 (@Forall_set_nth _ _ jobs i p' Hjobs Hs)).
  destruct (run pf env rest (set_nth i p' jobs) coll1) as [[coll' jobs'] tr'].
  exact IH.
Qed.

End WorkerFacts.

Section WorkerSession.

Variable pf : Platform.
Variable env : Env.




Lemma on_completed_balanced s job res :
  names_match res -> balanced s -> balanced (fst (on_completed s job res)).
Proof.
  unfold names_match, balanced, on_completed. intros Hn [H1 H2].
  destruct (status res) eqn:Es; simpl.
  - destruct (Hn eq_refl) as (mt & ->). destruct mt; simpl; lia.
  - lia.
  - lia.
Qed.

Lemma report_balanced s (jobs : list (Job * Prog Result)) :
  Forall (fun jp => all_rets names_match (snd jp)) jobs ->
  balanced s -> balanced (report s jobs).
Proof.
  intros Hjobs. revert s. induction Hjobs as [|[job p] rest Hp Hrest IH]; intros s Hs;
    simpl; [exact Hs|].
  apply IH. destruct p as [res|e|l k|c k]; simpl; try exact Hs.
  - apply on_completed_balanced; [exact Hp|exact Hs].
  - unfold balanced in *. simpl. lia.
Qed.



Lemma names_match_of_result_ok b res : result_ok b res -> names_match res.
Proof.
  unfold result_ok, names_match. intros [_ H] Hs. rewrite Hs in H. tauto.
Qed.

(** X10.  The statistics of a session add up, however the jobs were interleaved
    and wherever the session stands: [jobsProcessed] is the sum of
    [duplicatesFound], [newRecordsCreated], [skipped], [notFound] and
    [failed], and [newRecordsCreated] is the sum of [directMatches],
    [fallbackMatches] and [unmatched]. *)
Theorem session_statistics_add_up t0 (jobs : list (Date * Job)) sched coll :
  let settled := snd (fst (run pf env sched (session_jobs pf jobs) coll)) in
  let s := report (sessionStats0 t0) (combine (map snd jobs) settled) in
  jobsProcessed s
  = duplicatesFound s + newRecordsCreated s + skipped_ s + notFound s + failed s /\
  newRecordsCreated s = directMatches s + fallbackMatches s + unmatched_ s.
Proof.
  intros settled s. subst s. apply report_balanced; [|split; reflexivity].
  assert (Hall : Forall (all_rets names_match) settled).
  { apply run_all_rets. unfold session_jobs. apply Forall_forall.
    intros p Hp. apply in_map_iff in Hp. destruct Hp as ([now job] & <- & _).
    eapply all_rets_impl; [|apply processBubbleData_result_ok].
    intros res. apply names_match_of_result_ok. }
  clear - Hall. revert Hall. generalize (map snd jobs). intros js.
  revert js. induction settled as [|p rest IH]; intros js Hall.
  - destruct js; constructor.
  - destruct js as [|j js]; [constructor|]. inversion Hall; subst.
    simpl. constructor; [assumption|]. apply IH. assumption.
Qed.


End WorkerSession.

(* ================================================================= *)
(** ** Start-up *)

Lemma no_dup_keys_unique coll : no_dup_keys coll = true <-> unique_keys coll.
Proof.
  unfold unique_keys. induction coll as [|d rest IH]; simpl.
  - split; [intros _; constructor | reflexivity].
  - rewrite andb_true_iff, negb_true_iff, IH. split.
    + intros [Hn Hr]. constructor; [|exact Hr].
      intros Hin. apply in_map_iff in Hin. destruct Hin as [x [Hx Hin]].
      assert (He : existsb (has_key (doc_key d)) rest = true).
      { apply existsb_exists. exists x. split; [exact Hin|].
        apply has_key_eq. exact Hx. }
      congruence.
    + intros H. inversion H as [|k l Hn Hr]; subst. split; [|exact Hr].
      destruct (existsb (has_key (doc_key d)) rest) eqn:He; [|reflexivity].
      apply existsb_exists in He. destruct He as [x [Hin Hx]].
      apply has_key_eq in Hx. exfalso. apply Hn. rewrite <- Hx.
      apply in_map, Hin.
Qed.

Lemma createIndex_Ok srv srv' :
  createIndex srv = Ok srv' ->
  unique_index srv' = true /\ documents srv' = documents srv /\
  (server_ok srv -> unique_keys (documents srv')).
Proof.
  unfold createIndex, server_ok. intros H.
  destruct (indexing srv) as [[]|e]; [|discriminate H].
  destruct (unique_index srv) eqn:Hi.
  - injection H as <-. auto.
  - destruct (no_dup_keys (documents srv)) eqn:Hk; [|discriminate H].
    injection H as <-. cbn [unique_index documents].
    repeat split. intros _. apply no_dup_keys_unique, Hk.
Qed.

Lemma createIndex_Thrown srv :
  (exists e, createIndex srv = Thrown e) <->
  ((exists e, indexing srv = Thrown e) \/
   (unique_index srv = false /\ ~ unique_keys (documents srv))).
Proof.
  unfold createIndex. split.
  - intros [e H]. destruct (indexing srv) as [[]|e']; [|left; eauto].
    right. destruct (unique_index srv); [discriminate H|].
    destruct (no_dup_keys (documents srv)) eqn:Hk; [discriminate H|].
    split; [reflexivity|]. intros Hu. apply no_dup_keys_unique in Hu. congruence.
  - intros [[e He]|[Hi Hk]].
    + rewrite He. eauto.
    + destruct (indexing srv) as [[]|e]; [|eauto]. rewrite Hi.
      destruct (no_dup_keys (documents srv)) eqn:Hd; [|eauto].
      exfalso. apply Hk, no_dup_keys_unique, Hd.
Qed.

Lemma connectToMongo_try_Ok srv srv' log :
  connectToMongo_try srv = (Ok srv', log) -> createIndex srv = Ok srv'.
Proof.
  unfold connectToMongo_try. intros H.
  destruct (client srv) as [[]|e]; [|discriminate H].
  destruct (connecting srv) as [[]|e]; [|discriminate H].
  destruct (handles srv) as [[]|e]; [|discriminate H].
  destruct (createIndex srv) as [s1|e]; [|discriminate H].
  injection H as <- _. reflexivity.
Qed.

Lemma connectToMongo_inv srv mc srv' log :
  connectToMongo false srv = returned mc srv' log ->
  mc = true /\ createIndex srv = Ok srv'.
Proof.
  unfold connectToMongo. intros H.
  destruct (connectToMongo_try srv) as [[s1|e] l] eqn:E; [|discriminate H].
  injection H as <- <- <-. split; [reflexivity|].
  exact (connectToMongo_try_Ok _ E).
Qed.

Lemma connectToMongo_keys srv mc srv' log :
  server_ok srv ->
  connectToMongo false srv = returned mc srv' log ->
  unique_keys (documents srv').
Proof.
  intros Hok H. apply connectToMongo_inv in H. destruct H as [_ H].
  apply createIndex_Ok in H. apply H, Hok.
Qed.

(** X12.  When [connectToMongo] returns on a first call, the client is set,
    the unique index on the key is there, the stored documents are as they
    were and no two of them have the same key; a further call does nothing
    and logs nothing. *)
Theorem connectToMongo_returned srv mc srv' log :
  server_ok srv ->
  connectToMongo false srv = returned mc srv' log ->
  mc = true /\ unique_index srv' = true /\ documents srv' = documents srv /\
  unique_keys (documents srv') /\
  connectToMongo mc srv' = returned mc srv' [].
Proof.
  intros Hok H. apply connectToMongo_inv in H. destruct H as [-> H].
  apply createIndex_Ok in H. destruct H as (Hi & Hd & Hk).
  repeat split; auto.
Qed.

(** X13.  A first call of [connectToMongo] ends the process, with code 1,
    exactly when a step of its [try] block throws: [new MongoClient],
    [connect], getting the handles, or [createIndex], which throws when
    the server refuses the command or when the index is missing and two
    stored documents have the same key.  What was thrown is the last thing
    logged, and the process ends with no other code. *)
Theorem connectToMongo_exited srv :
  ((exists log, connectToMongo false srv = exited 1 log) <->
   ((exists e, client srv = Thrown e) \/
    (exists e, connecting srv = Thrown e) \/
    (exists e, handles srv = Thrown e) \/
    (exists e, indexing srv = Thrown e) \/
    (unique_index srv = false /\ ~ unique_keys (documents srv)))) /\
  (forall code log, connectToMongo false srv = exited code log ->
     code = 1 /\
     exists e before,
       fst (connectToMongo_try srv) = Thrown e /\
       log = before ++ [logger_error_connect e]).
Proof.
  split.
  - rewrite <- createIndex_Thrown. unfold connectToMongo, connectToMongo_try. split.
    + intros [log H].
      destruct (client srv) as [[]|e]; [|left; eauto].
      destruct (connecting srv) as [[]|e]; [|right; left; eauto].
      destruct (handles srv) as [[]|e]; [|right; right; left; eauto].
      destruct (createIndex srv) as [s1|e]; [discriminate H|].
      right; right; right. eauto.
    + intros H.
      destruct (client srv) as [[]|e]; [|eauto].
      destruct H as [[e He]|H]; [discriminate He|].
      destruct (connecting srv) as [[]|e]; [|eauto].
      destruct H as [[e He]|H]; [discriminate He|].
      destruct (handles srv) as [[]|e]; [|eauto].
      destruct H as [[e He]|[e He]]; [discriminate He|].
      rewrite He. eauto.
  - unfold connectToMongo. intros code log H.
    destruct (connectToMongo_try srv) as [[s1|e] l]; [discriminate H|].
    injection H as <- <-. split; [reflexivity|]. exists e, l. auto.
Qed.

Section StartWorkerFacts.

Variable pf : Platform.
Variable env : Env.

Lemma run_length {A} sched (jobs : list (Prog A)) coll :
  List.length (snd (fst (run pf env sched jobs coll))) = List.length jobs.
Proof.
  revert jobs coll. induction sched as [|i rest IH]; intros jobs coll; simpl;
    [reflexivity|].
  destruct (nth_error jobs i) as [p|]; [|apply IH].
  destruct (step pf env p coll) as [[coll1 p'] tr]. cbn [fst snd].
  specialize (IH (set_nth i p' jobs) coll1).
  destruct (run pf env rest (set_nth i p' jobs) coll1) as [[coll' jobs'] tr'].
  cbn [fst snd] in *. rewrite IH. apply set_nth_length.
Qed.

(** X14.  A worker that gets to work leaves no two documents with the same
    key, whatever was stored before it started, however many jobs it works
    on and however they take turns; and it settles the jobs it was given,
    one settlement for each. *)
Theorem worker_keeps_keys_unique srv sched jobs coll' ps tr :
  server_ok srv ->
  startWorker pf env srv sched jobs = Some (coll', ps, tr) ->
  unique_keys coll' /\ List.length ps = List.length jobs.
Proof.
  unfold startWorker. intros Hok H.
  destruct (connectToMongo false srv) as [code log|mc srv' log] eqn:Hc;
    [discriminate H|].
  pose proof (@connectToMongo_keys srv mc srv' log Hok Hc) as Hk.
  injection H as H.
  pose proof (@run_preserves pf env unique_keys Result sched
                (session_jobs pf jobs) (documents srv')
                (perform_unique_keys pf env) Hk) as Hr.
  pose proof (@run_length Result sched (session_jobs pf jobs) (documents srv')) as Hl.
  rewrite H in Hr, Hl. cbn [fst snd] in Hr, Hl. split; [exact Hr|].
  rewrite Hl. unfold session_jobs. apply length_map.
Qed.

End StartWorkerFacts.

(* ================================================================= *)
(** ** The producer *)

Lemma on_data_reached jobLimit st row :
  limit_reached (List.length (jobPromises st)) jobLimit = true ->
  on_data jobLimit st row = mkProducer (jobPromises st) true.
Proof. unfold on_data. intros ->. reflexivity. Qed.

Lemma on_data_row_id jobLimit st row :
  limit_reached (List.length (jobPromises st)) jobLimit = false ->
  on_data jobLimit st row
  = match row_id row with
    | Some b => mkProducer (jobPromises st ++ [b]) (destroyed st)
    | None => st
    end.
Proof.
  unfold on_data, row_id. intros ->.
  destruct (nth_error row 0) as [c|]; [|reflexivity]. cbn [option_map].
  destruct (truthy (Some (trim c)) && negb (startsWith "#" (trim c)))%bool; reflexivity.
Qed.

Lemma fold_on_data jobLimit rows st :
  jobPromises (fold_left (on_data jobLimit) rows st)
  = jobPromises st ++ up_to jobLimit (List.length (jobPromises st)) (row_ids rows).
Proof.
  revert st. induction rows as [|row rest IH]; intros st; cbn [fold_left row_ids].
  - destruct jobLimit; cbn [up_to]; [rewrite firstn_nil|]; rewrite app_nil_r; reflexivity.
  - rewrite IH.
    destruct (limit_reached (List.length (jobPromises st)) jobLimit) eqn:Hl.
    + rewrite (@on_data_reached jobLimit st row Hl). cbn [jobPromises].
      destruct jobLimit as [l|]; [|discriminate Hl]. cbn [limit_reached up_to] in *.
      apply Z.leb_le in Hl.
      replace (Z.to_nat (l - Z.of_nat (List.length (jobPromises st)))) with 0 by lia.
      reflexivity.
    + rewrite (@on_data_row_id jobLimit st row Hl). destruct (row_id row) as [b|]; [|reflexivity].
      cbn [jobPromises]. rewrite length_app, <- app_assoc. cbn [List.length app].
      f_equal. destruct jobLimit as [l|]; cbn [limit_reached up_to] in *; [|reflexivity].
      apply Z.leb_gt in Hl.
      replace (Z.to_nat (l - Z.of_nat (List.length (jobPromises st))))
        with (S (Z.to_nat (l - Z.of_nat (List.length (jobPromises st) + 1)))) by lia.
      reflexivity.
Qed.

(** X15.  From a file the producer enqueues the identifiers of its rows
    (first column, trimmed, neither empty nor a comment) in the order of
    the file: all of them without a limit, the first [n] of them under a
    limit of [n], so never more than the limit; and nothing without a file. *)
Theorem enqueueJobs_first_ids jobLimit rows :
  enqueueJobs jobLimit (Some rows) = Some (up_to jobLimit 0 (row_ids rows)) /\
  (forall n ids, jobLimit = Finite n ->
     enqueueJobs jobLimit (Some rows) = Some ids ->
     ids = firstn (Z.to_nat n) (row_ids rows) /\ (Z.of_nat (List.length ids) <= Z.max n 0)%Z) /\
  enqueueJobs jobLimit None = None.
Proof.
  assert (H : enqueueJobs jobLimit (Some rows) = Some (up_to jobLimit 0 (row_ids rows))).
  { unfold enqueueJobs, read_rows. rewrite fold_on_data. reflexivity. }
  split; [exact H|]. split; [|reflexivity].
  intros n ids -> Hids. rewrite H in Hids. injection Hids as <-.
  cbn [up_to Z.of_nat]. rewrite Z.sub_0_r.
  split; [reflexivity|]. rewrite length_firstn. lia.
Qed.

(** X16.  Rows read once the limit is reached add nothing: whatever
    follows in the file, the jobs are those of the rows before, and the
    first such row has the stream destroyed. *)
Theorem rows_after_limit jobLimit rows more :
  limit_reached (List.length (jobPromises (read_rows jobLimit rows))) jobLimit = true ->
  jobPromises (read_rows jobLimit (rows ++ more)) = jobPromises (read_rows jobLimit rows) /\
  (more <> [] -> destroyed (read_rows jobLimit (rows ++ more)) = true).
Proof.
  unfold read_rows. rewrite fold_left_app.
  generalize (fold_left (on_data jobLimit) rows (mkProducer [] false)).
  induction more as [|row rest IH]; intros st Hl.
  - split; [reflexivity|congruence].
  - cbn [fold_left]. rewrite (@on_data_reached jobLimit st row Hl).
    destruct (IH (mkProducer (jobPromises st) true) Hl) as [Hj Hd].
    split; [exact Hj|]. intros _.
    destruct rest as [|r rest']; [reflexivity|]. apply Hd. discriminate.
Qed.

(** X17.  The stream is destroyed only once the limit is reached: never
    without a limit, and under a limit only when as many jobs as the limit
    allows have been added. *)
Theorem destroyed_only_at_limit jobLimit rows :
  destroyed (read_rows jobLimit rows) = true ->
  limit_reached (List.length (jobPromises (read_rows jobLimit rows))) jobLimit = true /\
  jobLimit <> Infinity.
Proof.
  assert (H : forall st,
            (destroyed st = true ->
             limit_reached (List.length (jobPromises st)) jobLimit = true) ->
            destroyed (fold_left (on_data jobLimit) rows st) = true ->
            limit_reached
              (List.length (jobPromises (fold_left (on_data jobLimit) rows st)))
              jobLimit = true).
  { induction rows as [|row rest IH]; intros st Hst; cbn [fold_left]; [exact Hst|].
    apply IH.
    destruct (limit_reached (List.length (jobPromises st)) jobLimit) eqn:Hl.
    - rewrite (@on_data_reached jobLimit st row Hl). intros _. exact Hl.
    - rewrite (@on_data_row_id jobLimit st row Hl).
      destruct (row_id row) as [b|]; cbn [destroyed]; intros Hd;
        discriminate (Hst Hd). }
  intros Hd.
  assert (Hr : limit_reached (List.length (jobPromises (read_rows jobLimit rows)))
                             jobLimit = true).
  { apply H; [discriminate|exact Hd]. }
  split; [exact Hr|]. intros ->. discriminate Hr.
Qed.

Lemma parseInt10_nonempty s n : parseInt10 s = Some n -> s <> "".
Proof. intros H ->. discriminate H. Qed.

Lemma producerJobLimit_parsed s n :
  parseInt10 s = Some n ->
  producerJobLimit (Some s) = if Z.eqb n 0 then Infinity else Finite n.
Proof.
  intros H. unfold producerJobLimit.
  assert (Hs : or_else (Some s) (Some "0") = Some s).
  { pose proof (@parseInt10_nonempty s n H) as Hne.
    destruct s; [congruence|reflexivity]. }
  rewrite Hs, H. reflexivity.
Qed.

(** X18.  The limit of the configuration is never zero: unset, empty, not
    a number or zero, [PRODUCER_JOB_LIMIT] means no limit, and every
    identifier of the file is enqueued. *)
Theorem no_limit_enqueues_all v rows :
  producerJobLimit v <> Finite 0 /\
  (match or_else v (Some "0") with
   | Some s => parseInt10 s = None \/ parseInt10 s = Some 0%Z
   | None => True
   end ->
   producerJobLimit v = Infinity /\
   enqueueJobs (producerJobLimit v) (Some rows) = Some (row_ids rows)).
Proof.
  split.
  - unfold producerJobLimit. destruct (or_else v (Some "0")) as [s|]; [|discriminate].
    destruct (parseInt10 s) as [n|]; [|discriminate].
    destruct (Z.eqb n 0) eqn:Hn; [discriminate|].
    apply Z.eqb_neq in Hn. congruence.
  - intros H.
    assert (Hl : producerJobLimit v = Infinity).
    { unfold producerJobLimit. destruct (or_else v (Some "0")) as [s|]; [|reflexivity].
      destruct H as [-> | ->]; reflexivity. }
    split; [exact Hl|]. rewrite Hl.
    unfold enqueueJobs, read_rows. rewrite fold_on_data. reflexivity.
Qed.

(** X19.  A negative limit enqueues nothing, whatever the file holds. *)
Theorem negative_limit_enqueues_nothing s n rows :
  parseInt10 s = Some n -> (n < 0)%Z ->
  producerJobLimit (Some s) = Finite n /\
  enqueueJobs (producerJobLimit (Some s)) (Some rows) = Some [].
Proof.
  intros H Hn. rewrite (@producerJobLimit_parsed s n H).
  destruct (Z.eqb n 0) eqn:Hz; [apply Z.eqb_eq in Hz; lia|].
  split; [reflexivity|].
  unfold enqueueJobs, read_rows. rewrite fold_on_data. cbn [jobPromises app up_to List.length].
  replace (Z.to_nat (n - Z.of_nat 0)) with 0 by lia. reflexivity.
Qed.

(* ================================================================= *)
(** ** More scenarios, run *)

Lemma missing_record_not_found_witness :
  exec scenario_platform no_records
       (processBubbleData scenario_platform 0 (Scenario.job "gone")) Scenario.after_shop1
  = (Scenario.after_shop1,
     Ok (mkResult not_found None
           (Some "Record not found or accessible via API for bubbleId: gone") "gone"),
     [Called (axios_get "gone") None; Logged (issueLogger_warn "Record Not Found" "gone")]).
Proof.
  exact (@missing_record_not_found scenario_platform no_records 0 (Scenario.job "gone")
           Scenario.after_shop1 eq_refl).
Defined.

Lemma failed_run_changes_nothing_witness :
  exists tr,
    exec scenario_platform Scenario.env (Scenario.process "gone") Scenario.after_shop1
    = (Scenario.after_shop1, Thrown (AxiosError (Some 404%N)), tr) /\
    accepted_writes tr = [] /\ logged tr = [].
Proof.
  exists [Called (axios_get "gone") (Some (AxiosError (Some 404%N)))].
  assert (H : exec scenario_platform Scenario.env (Scenario.process "gone")
                   Scenario.after_shop1
              = (Scenario.after_shop1, Thrown (AxiosError (Some 404%N)),
                 [Called (axios_get "gone") (Some (AxiosError (Some 404%N)))]))
    by reflexivity.
  split; [exact H|].
  destruct (@failed_run_changes_nothing scenario_platform Scenario.env 0
              (Scenario.job "gone") Scenario.after_shop1 _ _ _ H) as (_ & Hw & Hl & _).
  split; [exact Hw|exact Hl].
Defined.

Lemma rerun_after_success_witness :
  fst (exec scenario_platform Scenario.env (Scenario.process "shop1") Scenario.after_shop1)
  = (Scenario.after_shop1, Ok (mkResult success (Some duplicate) None "shop1")).
Proof.
  apply (@rerun_after_success scenario_platform Scenario.env 0 0 (Scenario.job "shop1")
           [] Scenario.after_shop1
           (mkResult success (Some unmatched) None "shop1")
           (snd (exec scenario_platform Scenario.env (Scenario.process "shop1") []))).
  - constructor.
  - reflexivity.
  - reflexivity.
Defined.

Lemma later_job_same_key_witness :
  snd (fst (exec scenario_platform Scenario.env (Scenario.process "shop2")
                 Scenario.after_shop1))
  = Ok (mkResult success (Some duplicate) None "shop2") /\
  linked Scenario.shop_key "shop1"
         (fst (fst (exec scenario_platform Scenario.env (Scenario.process "shop2")
                         Scenario.after_shop1))) /\
  linked Scenario.shop_key "shop2"
         (fst (fst (exec scenario_platform Scenario.env (Scenario.process "shop2")
                         Scenario.after_shop1))).
Proof.
  destruct (@later_job_same_key scenario_platform Scenario.env 0 0
              (Scenario.job "shop1") (Scenario.job "shop2") Scenario.shop_key
              [] Scenario.after_shop1
              (mkResult success (Some unmatched) None "shop1")
              (snd (exec scenario_platform Scenario.env (Scenario.process "shop1") [])))
    as (H1 & _ & H3 & H4).
  - constructor.
  - reflexivity.
  - reflexivity.
  - reflexivity.
  - reflexivity.
  - split; [exact H1|]. split; [exact H3|exact H4].
Defined.

Lemma normalizeString_insensitive_witness :
  normalizeString16 scenario_unicode (Some (widen "1 Main" ++ widen " St."))
  = widen "1main" ++ widen "st" /\
  normalizeString16 scenario_unicode (Some (toLowerCase16 scenario_unicode (widen "1 Main St.")))
  = widen "1mainst" /\
  normalizeString16 scenario_unicode (Some (widen "1 Main" ++ widen ", " ++ widen "St"))
  = widen "1mainst".
Proof.
  destruct (@normalizeString_insensitive scenario_unicode scenario_unicode_latin1)
    as (H1 & H2 & H3).
  split; [|split].
  - rewrite (H1 _ _ (latin1_widen_string "1 Main") (latin1_widen_string " St.")).
    reflexivity.
  - rewrite (H2 _ (latin1_widen_string "1 Main St.")). reflexivity.
  - rewrite (H3 _ _ _ (latin1_widen_string "1 Main") (latin1_widen_string ", ")
                (latin1_widen_string "St") eq_refl).
    reflexivity.
Defined.

Lemma normalizeUrl_rejected_witness :
  (exists host,
     normalizeUrl scenario_platform (Some "Https://WWW.Bad Host/x") = Ok host /\
     toLowerCase host = host /\ no_slash host = true /\ host <> "") /\
  normalizeUrl scenario_platform (Some "WWW./Shop") = Ok "".
Proof.
  split.
  - destruct (@normalizeUrl_rejected scenario_platform "Https://WWW.Bad Host/x")
      as (host & Hn & Hl & Hs & _); [discriminate|reflexivity|].
    exists host. split; [exact Hn|]. split; [exact Hl|]. split; [exact Hs|].
    intros ->. discriminate Hn.
  - destruct (@normalizeUrl_rejected scenario_platform "WWW./Shop")
      as (host & Hn & _ & _ & He); [discriminate|reflexivity|].
    rewrite Hn. f_equal. apply He.
    exists "", "www.", "/shop". simpl. split; [tauto|]. split; [tauto|].
    split; [reflexivity|]. right. exists "shop". reflexivity.
Defined.

Lemma connectToMongo_returned_witness :
  exists srv' log,
    connectToMongo false fresh_server = returned true srv' log /\
    unique_index srv' = true /\ documents srv' = Scenario.after_shop1 /\
    unique_keys (documents srv').
Proof.
  exists (mkServer (Ok tt) (Ok tt) (Ok tt) Scenario.after_shop1 true (Ok tt)),
         [logger_info "Successfully connected to MongoDB.";
          logger_info "Ensured indexes are in place for authoritative collection."].
  assert (H : connectToMongo false fresh_server
              = returned true
                  (mkServer (Ok tt) (Ok tt) (Ok tt) Scenario.after_shop1 true (Ok tt))
                  [logger_info "Successfully connected to MongoDB.";
                   logger_info "Ensured indexes are in place for authoritative collection."])
    by reflexivity.
  split; [exact H|].
  destruct (@connectToMongo_returned fresh_server _ _ _
              (fun E => False_ind _ (diff_false_true E)) H)
    as (_ & Hi & Hd & Hk & _).
  split; [exact Hi|]. split; [exact Hd|exact Hk].
Defined.

Lemma worker_keeps_keys_unique_witness :
  exists coll' ps tr,
    startWorker scenario_platform Scenario.env fresh_server race_turns shop_jobs
    = Some (coll', ps, tr) /\
    unique_keys coll' /\ List.length ps = 2.
Proof.
  destruct (startWorker scenario_platform Scenario.env fresh_server race_turns shop_jobs)
    as [[[coll' ps] tr]|] eqn:E; [|discriminate E].
  exists coll', ps, tr. split; [reflexivity|].
  apply (@worker_keeps_keys_unique scenario_platform Scenario.env fresh_server
           race_turns shop_jobs coll' ps tr); [|exact E].
  intros Hi. discriminate Hi.
Defined.

Lemma rows_after_limit_witness :
  jobPromises (read_rows (Finite 2) ids_file) = ["a1"; "b2"] /\
  jobPromises (read_rows (Finite 2) (firstn 4 ids_file ++ skipn 4 ids_file)) = ["a1"; "b2"] /\
  destroyed (read_rows (Finite 2) (firstn 4 ids_file ++ skipn 4 ids_file)) = true.
Proof.
  split; [reflexivity|].
  destruct (@rows_after_limit (Finite 2) (firstn 4 ids_file) (skipn 4 ids_file) eq_refl)
    as [Hj Hd].
  split; [exact Hj|]. apply Hd. discriminate.
Defined.

Lemma destroyed_only_at_limit_witness :
  destroyed (read_rows (Finite 2) ids_file) = true /\
  limit_reached (List.length (jobPromises (read_rows (Finite 2) ids_file))) (Finite 2) = true.
Proof.
  split; [reflexivity|].
  exact (proj1 (@destroyed_only_at_limit (Finite 2) ids_file eq_refl)).
Defined.

Lemma negative_limit_enqueues_nothing_witness :
  parseInt10 " -3 jobs" = Some (-3)%Z /\
  producerJobLimit (Some " -3 jobs") = Finite (-3) /\
  enqueueJobs (producerJobLimit (Some " -3 jobs")) (Some ids_file) = Some [].
Proof.
  split; [reflexivity|].
  apply (@negative_limit_enqueues_nothing " -3 jobs" (-3)%Z ids_file); [reflexivity|reflexivity].
Defined.
